(** * Deutsch-Jozsa and Shor drivers: shallow embedding and verification

    The development embeds the two Python classes of the repository,
    [DeutschJozsaAlgorithm] (DEUTSCH_JOZSA/deutsch_jozsa.py) and
    [ShorsAlgorithm] (SHORS/shors.py), together with the pieces of the Python
    run time they rely on:

    - [Py]: exceptions, [for] loops over [range], sequence and string
      primitives, and the binary64 results of [int / int] and [float(int)];
    - [Fractions]: [Fraction.limit_denominator] of the standard library;
    - [Qiskit]: registers, instructions and circuits as plain data;
    - [DeutschJozsa] and [Shor]: the methods of the two classes;
    - [Spec] and [Invariants]: the gate lists and predicates of the
      specification, and the loop invariant used to verify
      [limit_denominator];
    - [CommandLine] and [Layout]: the argument handling of the
      Deutsch-Jozsa script, and the gate lists, counters and
      well-formedness predicate that describe the circuits as a whole.

    The quantum simulator is an external collaborator: its answers (the
    measurement counts) and the draws of the random generators are inputs
    of the embedded methods, and every circuit handed to it is logged.  The
    second part of the file proves the properties of the specification,
    each theorem being introduced by the property it settles, and then
    further properties of the two classes read off their code. *)

From Stdlib Require Import ZArith QArith Qabs Lia Ascii String DecimalString.
From stdpp Require Import base list strings gmap numbers.

Local Open Scope Z_scope.

(** ** Python run time *)

Module Py.

(** Exceptions raised by the embedded code.  The text carried by
    [ValueError] is the program's own message where the program raises it. *)
Inductive exn : Type :=
| ValueError (msg : string)
| TypeError
| IndexError
| OverflowError
| ZeroDivisionError.

(** Outcome of a computation: a value, a raised exception, or [OutOfFuel]
    when the inputs handed to the model (loop budget, random draws,
    simulator answers) are used up before the computation has finished. *)
Inductive res (A : Type) : Type :=
| Val (a : A)
| Raise (e : exn)
| OutOfFuel.

Arguments Val {A} a.
Arguments Raise {A} e.
Arguments OutOfFuel {A}.

#[global] Instance res_ret : MRet res := λ A a, Val a.

#[global] Instance res_bind : MBind res := λ A B f m,
  match m with
  | Val a => f a
  | Raise e => Raise e
  | OutOfFuel => OutOfFuel
  end.

(** [range(n)] and [range(a, b)]. *)
Definition range (n : Z) : list Z := seqZ 0 n.

Definition range2 (a b : Z) : list Z := seqZ a (b - a).

(** [for x in xs: body], threading the mutated object [s]. *)
Fixpoint for_each {A S : Type} (xs : list A) (body : A → S → res S) (s : S) : res S :=
  match xs with
  | [] => Val s
  | x :: xs' => s' ← body x s; for_each xs' body s'
  end.

(** [l[i]] on a sequence, negative indices counting from the end. *)
Definition getitem {A : Type} (l : list A) (i : Z) : res A :=
  let len := Z.of_nat (length l) in
  let j := if i <? 0 then i + len else i in
  if (0 <=? j) && (j <? len) then
    match l !! Z.to_nat j with
    | Some x => Val x
    | None => Raise IndexError
    end
  else Raise IndexError.

(** *** Strings *)

Definition str_len (s : string) : Z := Z.of_nat (String.length s).

Definition str_getitem (s : string) (i : Z) : res ascii :=
  let len := str_len s in
  let j := if i <? 0 then i + len else i in
  if (0 <=? j) && (j <? len) then
    match String.get (Z.to_nat j) s with
    | Some c => Val c
    | None => Raise IndexError
    end
  else Raise IndexError.

(** [s.count(c)] for a one-character [c]. *)
Fixpoint str_count (c : ascii) (s : string) : Z :=
  match s with
  | EmptyString => 0
  | String c' s' => (if Ascii.eqb c' c then 1 else 0) + str_count c s'
  end.

(** [all(p(ch) for ch in s)]. *)
Fixpoint str_all (p : ascii → bool) (s : string) : bool :=
  match s with
  | EmptyString => true
  | String c s' => p c && str_all p s'
  end.

Fixpoint str_mul_nat (s : string) (k : nat) : string :=
  match k with
  | O => EmptyString
  | S k' => s +:+ str_mul_nat s k'
  end.

(** [s * k]. *)
Definition str_mul (s : string) (k : Z) : string := str_mul_nat s (Z.to_nat k).

(** [s[k:]] for [k >= 0]. *)
Fixpoint str_drop (k : nat) (s : string) : string :=
  match k, s with
  | O, _ => s
  | S k', String _ s' => str_drop k' s'
  | S _, EmptyString => EmptyString
  end.

(** [str(z)]. *)
Definition str (z : Z) : string := NilZero.string_of_int (Z.to_int z).

Fixpoint bin_pos (p : positive) : string :=
  match p with
  | xH => "1"
  | xO q => bin_pos q +:+ "0"
  | xI q => bin_pos q +:+ "1"
  end.

(** Binary digits of the magnitude of [z], most significant first. *)
Definition bin_digits (z : Z) : string :=
  match z with
  | Z0 => "0"
  | Zpos p => bin_pos p
  | Zneg p => bin_pos p
  end.

(** [bin(z)]. *)
Definition bin (z : Z) : string :=
  (if z <? 0 then "-0b" else "0b") +:+ bin_digits z.

(** [format(z, '0{width}b')]: sign first, then zeros up to [width]
    characters in all, then the digits. *)
Definition format_b (width z : Z) : string :=
  let sign := if z <? 0 then "-" else "" in
  let digits := bin_digits z in
  sign +:+ str_mul "0" (width - str_len sign - str_len digits) +:+ digits.

Fixpoint int2_digits (acc : Z) (s : string) : res Z :=
  match s with
  | EmptyString => Val acc
  | String c s' =>
    if Ascii.eqb c "0"%char then int2_digits (2 * acc) s'
    else if Ascii.eqb c "1"%char then int2_digits (2 * acc + 1) s'
    else Raise (ValueError "invalid literal for int() with base 2")
  end.

(** [int(s, 2)] on strings of binary digits, the form of the keys of a
    counts mapping over one classical register.  The other literal forms
    that [int] accepts (sign, [0b] prefix, underscores, surrounding blanks)
    are outside this model and are rejected here. *)
Definition int2 (s : string) : res Z :=
  match s with
  | EmptyString => Raise (ValueError "invalid literal for int() with base 2")
  | _ => int2_digits 0 s
  end.

(** *** binary64 floats

    A finite float is modelled by its exact rational value, kept in lowest
    terms.  [int / int] and [float(int)] are correctly rounded (to nearest,
    ties to even) to 53 significant bits, with gradual underflow below
    [2^-1022]; both raise [OverflowError] when the rounded result reaches
    [2^1024]. *)
Definition float : Type := Q.

(** Nearest integer to [num / den] for [0 <= num], [0 < den], ties to even. *)
Definition round_half_even (num den : Z) : Z :=
  let q := num / den in
  let r := num mod den in
  if 2 * r <? den then q
  else if den <? 2 * r then q + 1
  else if Z.even q then q else q + 1.

(** [floor (log2 (num / den))] for [0 < num], [0 < den]. *)
Definition ratio_log2 (num den : Z) : Z :=
  let d := Z.log2 num - Z.log2 den in
  if num * 2 ^ Z.max 0 (- d) <? den * 2 ^ Z.max 0 d then d - 1 else d.

(** [m * 2^u] as a rational in lowest terms. *)
Definition scale2 (m u : Z) : Q :=
  if 0 <=? u then inject_Z (m * 2 ^ u) else Qred (m # Z.to_pos (2 ^ (- u))).

(** The binary64 number nearest to [num / den], for [0 <= num], [0 < den]. *)
Definition binary64_round (num den : Z) : Q :=
  if num =? 0 then 0%Q
  else
    let e := ratio_log2 num den in
    let u := Z.max (e - 52) (-1074) in
    let m :=
      if 0 <=? u then round_half_even num (den * 2 ^ u)
      else round_half_even (num * 2 ^ (- u)) den in
    scale2 m u.

Definition binary64_overflows (x : Q) : bool :=
  Qle_bool (inject_Z (2 ^ 1024)) x.

(** [a / b] on integers. *)
Definition truediv (a b : Z) : res float :=
  if b =? 0 then Raise ZeroDivisionError
  else
    let x := binary64_round (Z.abs a) (Z.abs b) in
    if binary64_overflows x then Raise OverflowError
    else Val (if Z.sgn a * Z.sgn b <? 0 then Qopp x else x).

(** [float(z)]. *)
Definition float_of_int (z : Z) : res float :=
  let x := binary64_round (Z.abs z) 1 in
  if binary64_overflows x then Raise OverflowError
  else Val (if z <? 0 then Qopp x else x).

(** [c > f] for an integer [c] and a float [f]: Python compares the exact
    values. *)
Definition int_gt_float (c : Z) (f : float) : bool :=
  negb (Qle_bool (inject_Z c) f).

(** [pow(a, e, m)] for [0 <= e], [0 < m]. *)
Definition pow_mod (a e m : Z) : Z := (a ^ e) mod m.

End Py.

Import Py.

(** ** fractions.Fraction *)

Module Fractions.

(** A [Fraction] is a rational in lowest terms with a positive
    denominator. *)
Definition Fraction : Type := Q.

Definition numerator (x : Fraction) : Z := Qnum x.

Definition denominator (x : Fraction) : Z := Zpos (Qden x).

(** [Fraction(f)] for a float [f]: the exact value of [f]. *)
Definition from_float (f : float) : Fraction := Qred f.

(** [Fraction(n, d)]. *)
Definition make (n d : Z) : res Fraction :=
  if d =? 0 then Raise ZeroDivisionError
  else Val (Qred ((n * Z.sgn d) # Z.to_pos (Z.abs d))).

(** The [while True] loop of [limit_denominator]; it leaves through
    [break] with the state [(p0, q0, p1, q1, n, d)]. *)
Fixpoint cf_loop (fuel : nat) (max_denominator p0 q0 p1 q1 n d : Z)
  : res (Z * Z * Z * Z * Z * Z) :=
  match fuel with
  | O => OutOfFuel
  | S fuel' =>
    if d =? 0 then Raise ZeroDivisionError
    else
      let a := n / d in
      let q2 := q0 + a * q1 in
      if max_denominator <? q2 then Val (p0, q0, p1, q1, n, d)
      else cf_loop fuel' max_denominator p1 q1 (p0 + a * p1) q2 d (n - a * d)
  end.

(** Iterations granted to [cf_loop]: the product of the two remainders
    halves at each step after the first. *)
Definition cf_fuel (den : Z) : nat := Z.to_nat (2 * Z.log2 den + 4).

(** [self.limit_denominator(max_denominator)], as in CPython 3.11:
<<
    if max_denominator < 1: raise ValueError(...)
    if self._denominator <= max_denominator: return Fraction(self)
    p0, q0, p1, q1 = 0, 1, 1, 0
    n, d = self._numerator, self._denominator
    while True:
        a = n//d
        q2 = q0+a*q1
        if q2 > max_denominator: break
        p0, q0, p1, q1 = p1, q1, p0+a*p1, q2
        n, d = d, n-a*d
    k = (max_denominator-q0)//q1
    bound1 = Fraction(p0+k*p1, q0+k*q1)
    bound2 = Fraction(p1, q1)
    if abs(bound2 - self) <= abs(bound1-self): return bound2
    else: return bound1
>>
    (later versions compare [2*d*(q0+k*q1) <= self._denominator], which is
    the same test). *)
Definition limit_denominator (self : Fraction) (max_denominator : Z) : res Fraction :=
  if max_denominator <? 1 then
    Raise (ValueError "max_denominator should be at least 1")
  else if denominator self <=? max_denominator then Val self
  else
    '(p0, q0, p1, q1, n, d) ←
      cf_loop (cf_fuel (denominator self)) max_denominator
              0 1 1 0 (numerator self) (denominator self);
    (if q1 =? 0 then Raise ZeroDivisionError else Val tt) ≫= λ _,
    let k := (max_denominator - q0) / q1 in
    bound1 ← make (p0 + k * p1) (q0 + k * q1);
    bound2 ← make p1 q1;
    if Qle_bool (Qabs (bound2 - self)) (Qabs (bound1 - self))
    then Val bound2 else Val bound1.

End Fractions.

Import Fractions.

(** ** Circuits *)

Module Qiskit.

(** A qubit is named by its register and its index in it. *)
Record Qubit : Type := mkQubit { qubit_register : string; qubit_index : Z }.

Record Clbit : Type := mkClbit { clbit_register : string; clbit_index : Z }.

(** Rotation angles, kept as the expression the program evaluates, with
    [np.pi] symbolic and the operands already converted to floats. *)
Inductive Angle : Type :=
| NegPiOver (d : float)              (* -np.pi / d *)
| TwoPiTimesOver (c d : float).      (* 2 * np.pi * c / d *)

Inductive Instruction : Type :=
| H (q : Qubit)
| X (q : Qubit)
| CX (control target : Qubit)
| MCX (controls : list Qubit) (target : Qubit)
| CP (theta : Angle) (control target : Qubit)
| SWAP (a b : Qubit)
| Measure (q : Qubit) (c : Clbit).

Record QuantumCircuit : Type := mkCircuit {
  qregs : list (list Qubit);
  cregs : list (list Clbit);
  data : list Instruction
}.

(** [QuantumRegister(size, name)] and [ClassicalRegister(size, name)]. *)
Definition QuantumRegister (size : Z) (name : string) : list Qubit :=
  mkQubit name <$> range size.

Definition ClassicalRegister (size : Z) (name : string) : list Clbit :=
  mkClbit name <$> range size.

(** A gate method of the circuit appends one instruction. *)
Definition append (i : Instruction) (qc : QuantumCircuit) : QuantumCircuit :=
  {| qregs := qregs qc; cregs := cregs qc; data := data qc ++ [i] |}.

Definition extend (qc : QuantumCircuit) (gates : list Instruction) : QuantumCircuit :=
  {| qregs := qregs qc; cregs := cregs qc; data := data qc ++ gates |}.

(** [qc.measure(qreg, creg)] on two registers of one size: qubit [i] is
    measured into bit [i]. *)
Definition measure (qs : list Qubit) (cs : list Clbit) (qc : QuantumCircuit)
  : QuantumCircuit :=
  extend qc (zip_with Measure qs cs).

(** Calls that hand a circuit to the simulator are logged in order. *)
Definition io (A : Type) : Type := (list QuantumCircuit * res A)%type.

#[global] Instance io_ret : MRet io := λ A a, ([], Val a).

#[global] Instance io_bind : MBind io := λ A B f m,
  match m with
  | (log, Val a) => let '(log', r) := f a in (log ++ log', r)
  | (log, Raise e) => (log, Raise e)
  | (log, OutOfFuel) => (log, OutOfFuel)
  end.

Definition lift {A : Type} (r : res A) : io A := ([], r).

(** [self.simulator.run(qc, shots=...)]: the circuit goes to the
    collaborator. *)
Definition submit (qc : QuantumCircuit) : io unit := ([qc], Val tt).

End Qiskit.

Import Qiskit.

(** ** DEUTSCH_JOZSA/deutsch_jozsa.py *)

Module DeutschJozsa.

Record DeutschJozsaAlgorithm : Type := mkDJ {
  n_qubits : Z;
  oracle_type : string;
  constant_value : Z;
  custom_bitstring : option string;
  shots : Z
}.

(** [random.shuffle] is the parameter [shuffle]. *)
Definition _generate_random_balanced_oracle (shuffle : string → string)
    (n_qubits : Z) : string :=
  let total_inputs := 2 ^ n_qubits in
  let balanced_bits :=
    str_mul "0" (total_inputs / 2) +:+ str_mul "1" (total_inputs / 2) in
  shuffle balanced_bits.

Definition is_bit (c : ascii) : bool :=
  Ascii.eqb c "0"%char || Ascii.eqb c "1"%char.

Definition __init__ (shuffle : string → string) (n_qubits : Z)
    (oracle_type : string) (constant_value : Z)
    (custom_bitstring : option string) (shots : Z) : res DeutschJozsaAlgorithm :=
  if n_qubits <=? 0 then Raise (ValueError "N must be a positive integer.")
  else if negb (bool_decide (oracle_type ∈ ["constant"; "balanced"; "custom"])) then
    Raise (ValueError "Oracle type must be one of: constant, balanced, custom")
  else if negb (bool_decide (constant_value ∈ [0; 1])) then
    Raise (ValueError "Constant value must be 0 or 1.")
  else
    bitstring ←
      (if String.eqb oracle_type "custom" then
         match custom_bitstring with
         | None => Val (Some (_generate_random_balanced_oracle shuffle n_qubits))
         | Some s =>
           if negb (str_len s =? 2 ^ n_qubits) then
             Raise (ValueError ("Custom bitstring length must be 2^" +:+ str n_qubits
                                +:+ " = " +:+ str (2 ^ n_qubits)))
           else if negb (str_all is_bit s) then
             Raise (ValueError "Custom bitstring must contain only 0 and 1")
           else Val (Some s)
         end
       else Val custom_bitstring);
    if shots <=? 0 then
      Raise (ValueError "Number of shots must be a positive integer.")
    else
      Val {| n_qubits := n_qubits; oracle_type := oracle_type;
             constant_value := constant_value; custom_bitstring := bitstring;
             shots := shots |}.

(** The body of the loop over [i] in the custom branch of
    [_create_oracle]. *)
Definition custom_term (bitstring : option string) (qubits : list Qubit)
    (target_qubit : Qubit) (i : Z) (qc : QuantumCircuit) : res QuantumCircuit :=
  let n := Z.of_nat (length qubits) in
  let binary := format_b n i in
  s ← match bitstring with Some s => Val s | None => Raise TypeError end;
  b ← str_getitem s i;
  if Ascii.eqb b "1"%char then
    qc ← for_each (range n) (λ j qc,
            c ← str_getitem binary j;
            if Ascii.eqb c "0"%char then q ← getitem qubits j; Val (append (X q) qc)
            else Val qc) qc;
    qc ← (if n =? 1 then q ← getitem qubits 0; Val (append (CX q target_qubit) qc)
          else Val (append (MCX qubits target_qubit) qc));
    for_each (range n) (λ j qc,
      c ← str_getitem binary j;
      if Ascii.eqb c "0"%char then q ← getitem qubits j; Val (append (X q) qc)
      else Val qc) qc
  else Val qc.

Definition _create_oracle (self : DeutschJozsaAlgorithm) (qc : QuantumCircuit)
    (qubits : list Qubit) (target_qubit : Qubit) : res QuantumCircuit :=
  if String.eqb (oracle_type self) "constant" then
    if constant_value self =? 1 then Val (append (X target_qubit) qc) else Val qc
  else if String.eqb (oracle_type self) "balanced" then
    q ← getitem qubits 0;
    let qc := append (CX q target_qubit) qc in
    for_each (range2 1 (Z.of_nat (length qubits))) (λ i qc,
      q ← getitem qubits i; Val (append (CX q target_qubit) qc)) qc
  else if String.eqb (oracle_type self) "custom" then
    let n := Z.of_nat (length qubits) in
    for_each (range (2 ^ n))
      (custom_term (custom_bitstring self) qubits target_qubit) qc
  else Val qc.

(** The interpretation of the counts at the end of [run]. *)
Definition interpret (self : DeutschJozsaAlgorithm) (counts : gmap string Z)
  : res string :=
  let zeros := str_mul "0" (n_qubits self) in
  match counts !! zeros with
  | Some c =>
    half ← truediv (shots self) 2;
    if int_gt_float c half then Val "constant" else Val "balanced"
  | None => Val "balanced"
  end.

(** [run]: the circuit built in the body of [run], then the request to the
    simulator, whose answer is [counts]. *)
Definition run_circuit (self : DeutschJozsaAlgorithm) : res QuantumCircuit :=
  let input_register := QuantumRegister (n_qubits self) "input" in
  let output_register := QuantumRegister 1 "output" in
  let classical_register := ClassicalRegister (n_qubits self) "c" in
  let qc := mkCircuit [input_register; output_register] [classical_register] [] in
  out ← getitem output_register 0;
  let qc := append (X out) qc in
  qc ← for_each (range (n_qubits self)) (λ i qc,
          q ← getitem input_register i; Val (append (H q) qc)) qc;
  out ← getitem output_register 0;
  let qc := append (H out) qc in
  out ← getitem output_register 0;
  qc ← _create_oracle self qc input_register out;
  qc ← for_each (range (n_qubits self)) (λ i qc,
          q ← getitem input_register i; Val (append (H q) qc)) qc;
  Val (measure input_register classical_register qc).

Definition run (self : DeutschJozsaAlgorithm) (counts : gmap string Z) : io string :=
  qc ← lift (run_circuit self);
  submit qc ≫= λ _,
  lift (interpret self counts).

Definition get_circuit (self : DeutschJozsaAlgorithm) : res QuantumCircuit :=
  let input_register := QuantumRegister (n_qubits self) "input" in
  let output_register := QuantumRegister 1 "output" in
  let classical_register := ClassicalRegister (n_qubits self) "c" in
  let qc := mkCircuit [input_register; output_register] [classical_register] [] in
  out ← getitem output_register 0;
  let qc := append (X out) qc in
  qc ← for_each (range (n_qubits self)) (λ i qc,
          q ← getitem input_register i; Val (append (H q) qc)) qc;
  out ← getitem output_register 0;
  let qc := append (H out) qc in
  out ← getitem output_register 0;
  qc ← _create_oracle self qc input_register out;
  qc ← for_each (range (n_qubits self)) (λ i qc,
          q ← getitem input_register i; Val (append (H q) qc)) qc;
  let qc := measure input_register classical_register qc in
  Val qc.

Definition validate_oracle (self : DeutschJozsaAlgorithm) : res (option string) :=
  if String.eqb (oracle_type self) "constant" then Val (Some "constant")
  else if String.eqb (oracle_type self) "balanced" then Val (Some "balanced")
  else if String.eqb (oracle_type self) "custom" then
    s ← match custom_bitstring self with Some s => Val s | None => Raise TypeError end;
    let ones_count := str_count "1" s in
    let total := str_len s in
    if (ones_count =? 0) || (ones_count =? total) then Val (Some "constant")
    else if ones_count =? total / 2 then Val (Some "balanced")
    else Val (Some ("neither (ones: " +:+ str ones_count +:+ ", zeros: "
                    +:+ str (total - ones_count) +:+ ")"))
  else Val None.


End DeutschJozsa.

(** ** SHORS/shors.py *)

Module Shor.

Record ShorsAlgorithm : Type := mkShor {
  N : Z;
  shots : Z;
  n : Z
}.

Definition __init__ (N shots : Z) : res ShorsAlgorithm :=
  if N <=? 1 then Raise (ValueError "N must be an integer greater than 1.")
  else if shots <=? 0 then
    Raise (ValueError "Number of shots must be a positive integer.")
  else
    Val {| N := N; shots := shots; n := str_len (str_drop 2 (bin N)) |}.

Definition _apply_qft_inverse (qc : QuantumCircuit) (qubits : list Qubit)
  : res QuantumCircuit :=
  let len := Z.of_nat (length qubits) in
  qc ← for_each (range (len / 2)) (λ i qc,
          a ← getitem qubits i;
          b ← getitem qubits (- (i + 1));
          Val (append (SWAP a b) qc)) qc;
  for_each (range len) (λ j qc,
    qc ← for_each (range j) (λ k qc,
            d ← float_of_int (2 ^ (j - k));
            c ← getitem qubits k;
            t ← getitem qubits j;
            Val (append (CP (NegPiOver d) c t) qc)) qc;
    t ← getitem qubits j;
    Val (append (H t) qc)) qc.

Definition _controlled_modular_multiplication (qc : QuantumCircuit)
    (control : Qubit) (target_reg : list Qubit) (power : Z) : res QuantumCircuit :=
  let n := Z.of_nat (length target_reg) in
  for_each (range n) (λ i qc,
    c ← float_of_int power;
    d ← float_of_int (2 ^ (i + 1));
    t ← getitem target_reg i;
    Val (append (CP (TwoPiTimesOver c d) control t) qc)) qc.

(** The circuit built by [_quantum_period_finding]. *)
Definition period_circuit (self : ShorsAlgorithm) (a : Z) : res QuantumCircuit :=
  let n_count := 2 * n self in
  let n_power := n self in
  let q_count := QuantumRegister n_count "count" in
  let q_power := QuantumRegister n_power "power" in
  let c_reg := ClassicalRegister n_count "c" in
  let qc := mkCircuit [q_count; q_power] [c_reg] [] in
  qc ← for_each (range n_count) (λ i qc,
          q ← getitem q_count i; Val (append (H q) qc)) qc;
  q ← getitem q_power 0;
  let qc := append (X q) qc in
  qc ← for_each (range n_count) (λ i qc,
          let power := pow_mod a (2 ^ i) (N self) in
          q ← getitem q_count i;
          _controlled_modular_multiplication qc q q_power power) qc;
  qc ← _apply_qft_inverse qc q_count;
  Val (measure q_count c_reg qc).

(** The counts of a run, in the iteration order of the mapping. *)
Definition Counts : Type := list (string * Z).

Fixpoint max_from (best : string * Z) (items : list (string * Z)) : string :=
  match items with
  | [] => best.1
  | kv :: items' =>
    if best.2 <? kv.2 then max_from kv items' else max_from best items'
  end.

(** [max(counts, key=counts.get)]: the first key, in iteration order, with
    the largest count. *)
Definition max_key (counts : Counts) : res string :=
  match counts with
  | [] => Raise (ValueError "max() arg is an empty sequence")
  | kv :: items => Val (max_from kv items)
  end.

(** [counts] is the simulator's answer for the circuit. *)
Definition _quantum_period_finding (self : ShorsAlgorithm) (a : Z)
    (counts : Counts) : io string :=
  qc ← lift (period_circuit self a);
  submit qc ≫= λ _,
  lift (max_key counts).

Definition _classical_post_processing (self : ShorsAlgorithm)
    (measurement : string) : res Z :=
  m ← int2 measurement;
  phase ← truediv m (2 ^ (2 * n self));
  frac ← limit_denominator (from_float phase) (N self);
  Val (denominator frac).

(** One pass through the body of [factor] after the parity test: [a] is
    the draw of [np.random.randint(2, N)] (a Python integer handed in by
    the environment), [counts] the simulator's answer should the quantum
    step be reached.  [Again] stands for [return self.factor()]. *)
Inductive step : Type :=
| Return (factors : Z * Z)
| Again.

Definition attempt (self : ShorsAlgorithm) (a : Z) (counts : Counts) : io step :=
  let g := Z.gcd a (N self) in
  if negb (g =? 1) then mret (Return (g, N self / g))
  else
    measurement ← _quantum_period_finding self a counts;
    r ← lift (_classical_post_processing self measurement);
    if negb (r mod 2 =? 0) then mret Again
    else
      let x := pow_mod a (r / 2) (N self) in
      let factor1 := Z.gcd (x + 1) (N self) in
      let factor2 := Z.gcd (x - 1) (N self) in
      if negb (factor1 * factor2 =? N self) then mret Again
      else mret (Return (factor1, factor2)).

(** [factor]: each element of [env] serves one pass, and [OutOfFuel] is
    the outcome when [env] is used up before a pair is returned. *)
Fixpoint factor (self : ShorsAlgorithm) (env : list (Z * Counts)) : io (Z * Z) :=
  if N self mod 2 =? 0 then mret (2, N self / 2)
  else
    match env with
    | [] => lift OutOfFuel
    | (a, counts) :: env' =>
      s ← attempt self a counts;
      match s with
      | Return factors => mret factors
      | Again => factor self env'
      end
    end.

Definition factor_number (N shots : Z) (env : list (Z * Counts)) : io (Z * Z) :=
  shor ← lift (__init__ N shots);
  factor shor env.

End Shor.

(** ** Specification-level definitions

    The gate lists and predicates below follow the wording of the
    specification; the theorems compare them with the embedded methods. *)

Module Spec.

#[global] Instance qubit_inhabited : Inhabited Qubit := populate (mkQubit "" 0).

(** Qubit number [j] of a register. *)
Definition qubit_at (qubits : list Qubit) (j : Z) : Qubit :=
  qubits !!! Z.to_nat j.

(** The character that writes a bit. *)
Definition bit_char (b : bool) : ascii := if b then "1"%char else "0"%char.

(** *** Custom oracle *)

(** Positions [j] of the [n]-bit binary representation of [i] (most
    significant bit at position 0) that hold a 0. *)
Definition zero_positions (n i : Z) : list Z :=
  filter (λ j, Z.testbit i (n - 1 - j) = false) (range n).

(** Bit-flips on the input qubits at the zero positions of [i]. *)
Definition flips (qubits : list Qubit) (i : Z) : list Instruction :=
  (λ j, X (qubit_at qubits j)) <$> zero_positions (Z.of_nat (length qubits)) i.

(** The multi-controlled bit-flip from all input qubits, an ordinary
    controlled bit-flip when there is one input qubit. *)
Definition controlled_flip (qubits : list Qubit) (target : Qubit) : Instruction :=
  if Z.of_nat (length qubits) =? 1 then CX (qubit_at qubits 0) target
  else MCX qubits target.

(** Gates for index [i]: flip, controlled flip, flip again when character
    [i] of the bitstring is ['1'], nothing otherwise. *)
Definition custom_term_gates (bitstring : string) (qubits : list Qubit)
    (target : Qubit) (i : Z) : list Instruction :=
  if decide (String.get (Z.to_nat i) bitstring = Some "1"%char) then
    flips qubits i ++ [controlled_flip qubits target] ++ flips qubits i
  else [].

Definition custom_oracle_gates (bitstring : string) (qubits : list Qubit)
    (target : Qubit) : list Instruction :=
  flat_map (custom_term_gates bitstring qubits target)
           (range (2 ^ Z.of_nat (length qubits))).

(** *** Inverse quantum Fourier transform *)

(** The angle [-pi / 2^e]. *)
Definition neg_pi_over_pow2 (e : Z) : Angle := NegPiOver (inject_Z (2 ^ e)).

Definition iqft_swaps (qubits : list Qubit) : list Instruction :=
  let m := Z.of_nat (length qubits) in
  (λ i, SWAP (qubit_at qubits i) (qubit_at qubits (m - 1 - i))) <$> range (m / 2).

Definition iqft_rotations (qubits : list Qubit) (j : Z) : list Instruction :=
  ((λ k, CP (neg_pi_over_pow2 (j - k)) (qubit_at qubits k) (qubit_at qubits j))
     <$> range j)
  ++ [H (qubit_at qubits j)].

Definition iqft_gates (qubits : list Qubit) : list Instruction :=
  iqft_swaps qubits
  ++ flat_map (iqft_rotations qubits) (range (Z.of_nat (length qubits))).

(** *** Deutsch-Jozsa configurations *)

(** A configuration as the constructor leaves it. *)
Definition valid_config (self : DeutschJozsa.DeutschJozsaAlgorithm) : Prop :=
  1 ≤ DeutschJozsa.n_qubits self ∧
  DeutschJozsa.oracle_type self ∈ ["constant"; "balanced"; "custom"] ∧
  DeutschJozsa.constant_value self ∈ [0; 1] ∧
  0 < DeutschJozsa.shots self ∧
  (DeutschJozsa.oracle_type self = "custom" →
   ∃ s, DeutschJozsa.custom_bitstring self = Some s ∧
        str_len s = 2 ^ DeutschJozsa.n_qubits self ∧
        str_all DeutschJozsa.is_bit s = true).

(** *** Best rational approximation *)

(** A measured bitstring read as an unsigned integer: the sum of the
    weights [2^k] of its ['1'] digits, the last digit having weight 1. *)
Fixpoint unsigned_value (s : string) : Z :=
  match s with
  | EmptyString => 0
  | String c s' =>
    (if Ascii.eqb c "1"%char then 2 ^ Z.of_nat (String.length s') else 0)
    + unsigned_value s'
  end.

(** [p/q] is a closest fraction to [x] among those of denominator at most
    [bound]. *)
Definition best_approximation (bound : Z) (x : Q) (p q : Z) : Prop :=
  1 ≤ q ≤ bound ∧
  ∀ u v : Z, 1 ≤ v ≤ bound →
    (Qabs (x - (p # Z.to_pos q)) <= Qabs (x - (u # Z.to_pos v)))%Q.

(** [q] is the denominator of a best approximation of [x]. *)
Definition best_denominator (bound : Z) (x : Q) (q : Z) : Prop :=
  ∃ p, Z.gcd p q = 1 ∧ best_approximation bound x p q.

End Spec.

Import Spec.

(** ** Invariants used in the proofs *)

Module Invariants.

(** The state [(p0, q0, p1, q1, n, d)] of the loop of [limit_denominator]
    on the fraction [n0 / d0]: [p0/q0] and [p1/q1] are consecutive
    convergents and [n/d] is the remaining tail. *)
Definition cf_invariant (max_denominator n0 d0 p0 q0 p1 q1 n d : Z) : Prop :=
  n0 = p1 * n + p0 * d ∧
  d0 = q1 * n + q0 * d ∧
  (p1 * q0 - p0 * q1 = 1 ∨ p1 * q0 - p0 * q1 = -1) ∧
  0 ≤ q0 ≤ max_denominator ∧
  0 ≤ q1 ≤ max_denominator ∧
  0 ≤ n ∧
  0 < d.

End Invariants.

Import Invariants.

(** ** The command line of DEUTSCH_JOZSA/deutsch_jozsa.py *)

Module CommandLine.

(** The branch of the script taken when [len(sys.argv) > 1], up to the
    construction of the object.  The conversion [int] of an argument is
    the parameter [int_] (it raises [ValueError] on a malformed argument):
<<
    n_qubits = int(sys.argv[1])
    oracle_type = sys.argv[2] if len(sys.argv) > 2 else 'balanced'
    constant_value = int(sys.argv[3]) if len(sys.argv) > 3 and oracle_type == 'constant' else 0
    shots = int(sys.argv[-1]) if len(sys.argv) > 4 else 1024
    dj = DeutschJozsaAlgorithm(n_qubits, oracle_type, constant_value, None, shots)
>> *)
Definition configure (int_ : string → res Z) (shuffle : string → string)
    (argv : list string) : res DeutschJozsa.DeutschJozsaAlgorithm :=
  let len := Z.of_nat (length argv) in
  n_qubits ← (arg ← getitem argv 1; int_ arg);
  oracle_type ← (if 2 <? len then getitem argv 2 else Val "balanced");
  constant_value ←
    (if (3 <? len) && String.eqb oracle_type "constant"
     then arg ← getitem argv 3; int_ arg
     else Val 0);
  shots ← (if 4 <? len then arg ← getitem argv (-1); int_ arg else Val 1024);
  DeutschJozsa.__init__ shuffle n_qubits oracle_type constant_value None shots.

End CommandLine.

Import CommandLine.

(** ** Circuit layouts

    The gate lists that the circuit builders emit as a whole, and counters
    over gate lists. *)

Module Layout.

#[global] Instance qubit_eq_dec : EqDecision Qubit.
Proof. solve_decision. Defined.

(** Measurement of a register, qubit [i] into bit [i]. *)
Definition measure_gates (qs : list Qubit) (cs : list Clbit) : list Instruction :=
  zip_with Measure qs cs.

(** *** Deutsch-Jozsa *)

(** The gates of the oracle, by oracle type: nothing or one bit-flip of the
    target for a constant function, one controlled bit-flip per input qubit
    for the balanced one, the synthesis of the bitstring for a custom one. *)
Definition oracle_gates (self : DeutschJozsa.DeutschJozsaAlgorithm)
    (qubits : list Qubit) (target : Qubit) : list Instruction :=
  if String.eqb (DeutschJozsa.oracle_type self) "constant" then
    if DeutschJozsa.constant_value self =? 1 then [X target] else []
  else if String.eqb (DeutschJozsa.oracle_type self) "balanced" then
    (λ q, CX q target) <$> qubits
  else
    match DeutschJozsa.custom_bitstring self with
    | Some s => custom_oracle_gates s qubits target
    | None => []
    end.

(** The whole Deutsch-Jozsa circuit: output qubit to [|1>], Hadamard on
    every qubit, the oracle, Hadamard on the input qubits, measurement of
    the input register. *)
Definition dj_gates (self : DeutschJozsa.DeutschJozsaAlgorithm) : list Instruction :=
  let input := QuantumRegister (DeutschJozsa.n_qubits self) "input" in
  let out := mkQubit "output" 0 in
  [X out] ++ (H <$> input) ++ [H out]
  ++ oracle_gates self input out
  ++ (H <$> input)
  ++ measure_gates input (ClassicalRegister (DeutschJozsa.n_qubits self) "c").

(** *** Period finding *)

(** The angle [2 pi c / 2^e]. *)
Definition two_pi_times_over_pow2 (c e : Z) : Angle :=
  TwoPiTimesOver (inject_Z c) (inject_Z (2 ^ e)).

(** The rotations of one controlled modular multiplication: from [control]
    onto qubit [i] of the target register with angle
    [2 pi power / 2^(i+1)]. *)
Definition cmm_gates (control : Qubit) (target_reg : list Qubit) (power : Z)
  : list Instruction :=
  (λ i, CP (two_pi_times_over_pow2 power (i + 1)) control (qubit_at target_reg i))
    <$> range (Z.of_nat (length target_reg)).

(** The whole period-finding circuit for the base [a]. *)
Definition period_gates (self : Shor.ShorsAlgorithm) (a : Z) : list Instruction :=
  let q_count := QuantumRegister (2 * Shor.n self) "count" in
  let q_power := QuantumRegister (Shor.n self) "power" in
  (H <$> q_count) ++ [X (mkQubit "power" 0)]
  ++ flat_map (λ i, cmm_gates (mkQubit "count" i) q_power
                      (pow_mod a (2 ^ i) (Shor.N self)))
       (range (2 * Shor.n self))
  ++ iqft_gates q_count
  ++ measure_gates q_count (ClassicalRegister (2 * Shor.n self) "c").

(** *** Counters *)

Fixpoint count_gates (p : Instruction → bool) (gates : list Instruction) : Z :=
  match gates with
  | [] => 0
  | g :: gates' => (if p g then 1 else 0) + count_gates p gates'
  end.

(** Controlled bit-flips: [cx] and [mcx]. *)
Definition is_controlled_flip (g : Instruction) : bool :=
  match g with
  | CX _ _ | MCX _ _ => true
  | _ => false
  end.

(** Bit-flips of the qubit [q]. *)
Definition is_flip_of (q : Qubit) (g : Instruction) : bool :=
  match g with
  | X q' => bool_decide (q' = q)
  | _ => false
  end.

(** *** Measurement outcomes *)

(** [k] is a most frequent outcome of [counts], and the first such in the
    iteration order of the mapping. *)
Definition first_most_frequent (counts : Shor.Counts) (k : string) : Prop :=
  ∃ before c after,
    counts = before ++ (k, c) :: after ∧
    (∀ kv, kv ∈ before → kv.2 < c) ∧
    (∀ kv, kv ∈ after → kv.2 ≤ c).

(** *** Well-formed instructions *)

(** The qubits an instruction acts on, controls first. *)
Definition instruction_qubits (g : Instruction) : list Qubit :=
  match g with
  | H q | X q => [q]
  | CX c t => [c; t]
  | MCX cs t => cs ++ [t]
  | CP _ c t => [c; t]
  | SWAP a b => [a; b]
  | Measure q _ => [q]
  end.

(** The classical bits an instruction writes. *)
Definition instruction_clbits (g : Instruction) : list Clbit :=
  match g with
  | Measure _ c => [c]
  | _ => []
  end.

(** An instruction is well formed in a circuit when the qubits it acts on
    are pairwise distinct qubits of the registers of the circuit and the
    bits it writes are bits of its classical registers; the circuit library
    refuses any other instruction. *)
Definition well_formed (qc : QuantumCircuit) (g : Instruction) : Prop :=
  NoDup (instruction_qubits g) ∧
  (∀ q, q ∈ instruction_qubits g → q ∈ concat (qregs qc)) ∧
  (∀ c, c ∈ instruction_clbits g → c ∈ concat (cregs qc)).

End Layout.

Import Layout.

(** * Verification *)

(** ** Loops, sequences and strings *)

Section Loops.

Context {A S : Type}.

Lemma for_each_app (xs ys : list A) (body : A → S → res S) (s : S) :
  for_each (xs ++ ys) body s = (s' ← for_each xs body s; for_each ys body s').
Proof.
  revert s. induction xs as [|x xs IH]; intros s; cbn; [reflexivity|].
  destruct (body x s); cbn; auto.
Qed.

End Loops.

Lemma range_elem (n i : Z) : i ∈ range n ↔ 0 ≤ i < n.
Proof. unfold range. rewrite elem_of_seqZ. lia. Qed.

Section Sequences.

Context {A : Type} `{Inhabited A}.

Lemma getitem_nonneg (l : list A) (i : Z) :
  0 ≤ i < Z.of_nat (length l) → getitem l i = Val (l !!! Z.to_nat i).
Proof.
  intros Hi. unfold getitem.
  replace (i <? 0) with false by (symmetry; apply Z.ltb_ge; lia).
  replace (0 <=? i) with true by (symmetry; apply Z.leb_le; lia).
  replace (i <? Z.of_nat (length l)) with true by (symmetry; apply Z.ltb_lt; lia).
  cbn. rewrite (list_lookup_lookup_total_lt l (Z.to_nat i)) by lia. reflexivity.
Qed.

Lemma getitem_negative (l : list A) (i : Z) :
  - Z.of_nat (length l) ≤ i < 0 →
  getitem l i = Val (l !!! Z.to_nat (Z.of_nat (length l) + i)).
Proof.
  intros Hi. unfold getitem.
  replace (i <? 0) with true by (symmetry; apply Z.ltb_lt; lia).
  replace (0 <=? i + Z.of_nat (length l)) with true
    by (symmetry; apply Z.leb_le; lia).
  replace (i + Z.of_nat (length l) <? Z.of_nat (length l)) with true
    by (symmetry; apply Z.ltb_lt; lia).
  cbn. replace (i + Z.of_nat (length l)) with (Z.of_nat (length l) + i) by lia.
  rewrite (list_lookup_lookup_total_lt l) by lia. reflexivity.
Qed.

End Sequences.

Section Strings.

Lemma str_length_app (s1 s2 : string) :
  String.length (s1 +:+ s2) = (String.length s1 + String.length s2)%nat.
Proof.
  induction s1 as [|c s1 IH]; [reflexivity|].
  change (S (String.length (s1 +:+ s2))
          = S (String.length s1 + String.length s2)%nat).
  f_equal. exact IH.
Qed.

Lemma str_get_lt (s : string) (i : nat) (c : ascii) :
  String.get i s = Some c → (i < String.length s)%nat.
Proof.
  revert i. induction s as [|c' s IH]; intros i; cbn; [discriminate|].
  destruct i as [|i]; [lia|]. intros Hg. apply IH in Hg. lia.
Qed.

Lemma str_get_is_Some (s : string) (i : nat) :
  (i < String.length s)%nat → ∃ c, String.get i s = Some c.
Proof.
  revert i. induction s as [|c' s IH]; intros i; cbn; [lia|].
  destruct i as [|i]; [eauto|]. intros Hi. apply IH. lia.
Qed.

Lemma str_getitem_nonneg (s : string) (i : Z) (c : ascii) :
  0 ≤ i → String.get (Z.to_nat i) s = Some c → str_getitem s i = Val c.
Proof.
  intros Hi Hg. pose proof (str_get_lt _ _ _ Hg) as Hlt.
  unfold str_getitem, str_len.
  replace (i <? 0) with false by (symmetry; apply Z.ltb_ge; lia).
  replace (0 <=? i) with true by (symmetry; apply Z.leb_le; lia).
  replace (i <? Z.of_nat (String.length s)) with true
    by (symmetry; apply Z.ltb_lt; lia).
  cbn. rewrite Hg. reflexivity.
Qed.

Lemma str_mul_nat_length (c : ascii) (k : nat) :
  String.length (str_mul_nat (String c EmptyString) k) = k.
Proof.
  induction k as [|k IH]; [reflexivity|].
  cbn [str_mul_nat]. rewrite str_length_app, IH. reflexivity.
Qed.

Lemma str_mul_nat_get (c : ascii) (k i : nat) :
  (i < k)%nat → String.get i (str_mul_nat (String c EmptyString) k) = Some c.
Proof.
  revert i. induction k as [|k IH]; intros i Hi; [lia|].
  change (str_mul_nat (String c EmptyString) (S k))
    with (String c (str_mul_nat (String c EmptyString) k)).
  destruct i as [|i]; [reflexivity|]. apply IH. lia.
Qed.

Lemma bin_pos_length_pos (p : positive) : (0 < String.length (bin_pos p))%nat.
Proof. destruct p; cbn; rewrite ?str_length_app; cbn; lia. Qed.

Lemma bin_pos_bounds (p : positive) :
  2 ^ (Z.of_nat (String.length (bin_pos p)) - 1) ≤ Z.pos p
  < 2 ^ Z.of_nat (String.length (bin_pos p)).
Proof.
  induction p as [p IH|p IH|]; cbn [bin_pos]; rewrite ?str_length_app;
    cbn [String.length]; [| |cbn; lia].
  - pose proof (bin_pos_length_pos p).
    replace (Z.of_nat (String.length (bin_pos p) + 1) - 1)
      with (Z.succ (Z.of_nat (String.length (bin_pos p)) - 1)) by lia.
    replace (Z.of_nat (String.length (bin_pos p) + 1))
      with (Z.succ (Z.of_nat (String.length (bin_pos p)))) by lia.
    rewrite !Z.pow_succ_r by lia. lia.
  - pose proof (bin_pos_length_pos p).
    replace (Z.of_nat (String.length (bin_pos p) + 1) - 1)
      with (Z.succ (Z.of_nat (String.length (bin_pos p)) - 1)) by lia.
    replace (Z.of_nat (String.length (bin_pos p) + 1))
      with (Z.succ (Z.of_nat (String.length (bin_pos p)))) by lia.
    rewrite !Z.pow_succ_r by lia. lia.
Qed.

Lemma bin_pos_get (p : positive) (j : nat) :
  (j < String.length (bin_pos p))%nat →
  String.get j (bin_pos p)
  = Some (bit_char (Z.testbit (Z.pos p)
                      (Z.of_nat (String.length (bin_pos p) - 1 - j)))).
Proof.
  revert j. induction p as [p IH|p IH|]; intros j; cbn [bin_pos];
    rewrite ?str_length_app; cbn [String.length]; intros Hj.
  - destruct (decide (j < String.length (bin_pos p))%nat) as [Hlt|Hge].
    + rewrite <- append_correct1 by exact Hlt. rewrite IH by exact Hlt.
      replace (Z.of_nat (String.length (bin_pos p) + 1 - 1 - j))
        with (Z.succ (Z.of_nat (String.length (bin_pos p) - 1 - j))) by lia.
      change (Z.pos p~1) with (2 * Z.pos p + 1).
      rewrite Z.testbit_odd_succ by lia. reflexivity.
    + assert (j = (0 + String.length (bin_pos p))%nat) as -> by lia.
      rewrite <- append_correct2. cbn [String.get].
      replace (String.length (bin_pos p) + 1 - 1
               - (0 + String.length (bin_pos p)))%nat with 0%nat by lia.
      reflexivity.
  - destruct (decide (j < String.length (bin_pos p))%nat) as [Hlt|Hge].
    + rewrite <- append_correct1 by exact Hlt. rewrite IH by exact Hlt.
      replace (Z.of_nat (String.length (bin_pos p) + 1 - 1 - j))
        with (Z.succ (Z.of_nat (String.length (bin_pos p) - 1 - j))) by lia.
      change (Z.pos p~0) with (2 * Z.pos p).
      rewrite Z.testbit_even_succ by lia. reflexivity.
    + assert (j = (0 + String.length (bin_pos p))%nat) as -> by lia.
      rewrite <- append_correct2. cbn [String.get].
      replace (String.length (bin_pos p) + 1 - 1
               - (0 + String.length (bin_pos p)))%nat with 0%nat by lia.
      reflexivity.
  - cbn in Hj. assert (j = 0%nat) as -> by lia. reflexivity.
Qed.

Lemma bin_digits_bounds (i : Z) :
  0 ≤ i →
  (0 < String.length (bin_digits i))%nat ∧
  i < 2 ^ Z.of_nat (String.length (bin_digits i)) ∧
  (0 < i → 2 ^ (Z.of_nat (String.length (bin_digits i)) - 1) ≤ i).
Proof.
  intros Hi. destruct i as [|p|p]; [cbn; lia| |lia].
  cbn [bin_digits]. pose proof (bin_pos_bounds p). pose proof (bin_pos_length_pos p).
  lia.
Qed.

Lemma bin_digits_get (i : Z) (j : nat) :
  0 ≤ i →
  (j < String.length (bin_digits i))%nat →
  String.get j (bin_digits i)
  = Some (bit_char (Z.testbit i (Z.of_nat (String.length (bin_digits i) - 1 - j)))).
Proof.
  intros Hi Hj. destruct i as [|p|p]; [|apply bin_pos_get, Hj|lia].
  cbn in Hj. assert (j = 0%nat) as -> by lia. reflexivity.
Qed.

(** The characters of [format(i, '0{n}b')], for [0 <= i < 2^n]: position
    [j] holds bit [n - 1 - j] of [i]. *)
Lemma format_b_get (n i j : Z) :
  0 ≤ i < 2 ^ n → 0 ≤ j < n →
  str_getitem (format_b n i) j = Val (bit_char (Z.testbit i (n - 1 - j))).
Proof.
  intros Hi Hj. apply str_getitem_nonneg; [lia|].
  unfold format_b. replace (i <? 0) with false by (symmetry; apply Z.ltb_ge; lia).
  change ("" +:+ ?x)%string with x. change (str_len "") with 0.
  destruct (bin_digits_bounds i ltac:(lia)) as (Hpos & Hub & Hlb).
  set (L := String.length (bin_digits i)) in *.
  assert (HLn : Z.of_nat L ≤ n).
  { destruct (Z.eq_dec i 0) as [->|Hne].
    - subst L. cbn. lia.
    - specialize (Hlb ltac:(lia)).
      destruct (Z_lt_le_dec n (Z.of_nat L)) as [Hlt|]; [|lia].
      assert (2 ^ n ≤ 2 ^ (Z.of_nat L - 1)) by (apply Z.pow_le_mono_r; lia).
      lia. }
  unfold str_mul, str_len. fold L.
  replace (n - 0 - Z.of_nat L) with (n - Z.of_nat L) by lia.
  destruct (Z_lt_le_dec j (n - Z.of_nat L)) as [Hpad|Hdig].
  - rewrite <- append_correct1
      by (rewrite (str_mul_nat_length "0"%char); lia).
    rewrite (str_mul_nat_get "0"%char) by lia.
    assert (Z.testbit i (n - 1 - j) = false) as ->; [|reflexivity].
    apply (Z.bounded_iff_bits_nonneg (Z.of_nat L) i); lia.
  - replace (Z.to_nat j)
      with (Z.to_nat (j - (n - Z.of_nat L))
            + String.length (str_mul_nat "0" (Z.to_nat (n - Z.of_nat L))))%nat
      by (rewrite (str_mul_nat_length "0"%char); lia).
    rewrite <- append_correct2.
    rewrite bin_digits_get by (fold L; lia). fold L.
    do 3 f_equal. lia.
Qed.

Lemma str_count_bits (s : string) :
  str_all DeutschJozsa.is_bit s = true →
  str_len s - str_count "1" s = str_count "0" s.
Proof.
  unfold str_len. induction s as [|c s IH]; cbn [str_all str_count String.length];
    [reflexivity|].
  intros Hall. apply andb_true_iff in Hall as [Hc Hs]. specialize (IH Hs).
  unfold DeutschJozsa.is_bit in Hc. apply orb_true_iff in Hc as [Hc|Hc];
    apply Ascii.eqb_eq in Hc; subst c; cbn; lia.
Qed.


End Strings.

(** ** Emission of gates *)

Section Emission.

Lemma extend_nil (qc : QuantumCircuit) : extend qc [] = qc.
Proof. destruct qc; unfold extend; cbn. rewrite app_nil_r. reflexivity. Qed.

Lemma extend_extend (qc : QuantumCircuit) (g1 g2 : list Instruction) :
  extend (extend qc g1) g2 = extend qc (g1 ++ g2).
Proof. unfold extend; cbn. rewrite app_assoc. reflexivity. Qed.

Lemma append_extend (i : Instruction) (qc : QuantumCircuit) :
  append i qc = extend qc [i].
Proof. reflexivity. Qed.

(** A loop whose body appends [g x] at each [x] appends their
    concatenation. *)
Lemma for_each_emits {A : Type} (xs : list A)
    (body : A → QuantumCircuit → res QuantumCircuit)
    (g : A → list Instruction) (qc : QuantumCircuit) :
  (∀ x qc', x ∈ xs → body x qc' = Val (extend qc' (g x))) →
  for_each xs body qc = Val (extend qc (flat_map g xs)).
Proof.
  revert qc. induction xs as [|x xs IH]; intros qc Hb; cbn.
  - rewrite extend_nil. reflexivity.
  - rewrite Hb by apply list_elem_of_here. cbn.
    rewrite IH by (intros y qc' Hy; apply Hb, list_elem_of_further, Hy).
    rewrite extend_extend. reflexivity.
Qed.

Lemma flat_map_singleton {A B : Type} (f : A → B) (xs : list A) :
  flat_map (λ x, [f x]) xs = f <$> xs.
Proof. induction xs as [|x xs IH]; cbn; [reflexivity|]. rewrite IH. reflexivity. Qed.

Lemma flat_map_guard {A B : Type} (P : A → Prop) `{∀ x, Decision (P x)}
    (f : A → B) (xs : list A) :
  flat_map (λ x, if decide (P x) then [f x] else []) xs = f <$> filter P xs.
Proof.
  induction xs as [|x xs IH]; [reflexivity|].
  cbn [flat_map]. rewrite IH, filter_cons.
  destruct (decide (P x)); reflexivity.
Qed.

Lemma register_getitem (size : Z) (name : string) (i : Z) :
  0 ≤ i < size → getitem (QuantumRegister size name) i = Val (mkQubit name i).
Proof.
  intros Hi. unfold getitem, QuantumRegister, range.
  rewrite length_fmap, length_seqZ.
  replace (i <? 0) with false by (symmetry; apply Z.ltb_ge; lia).
  replace (0 <=? i) with true by (symmetry; apply Z.leb_le; lia).
  replace (i <? Z.of_nat (Z.to_nat size)) with true
    by (symmetry; apply Z.ltb_lt; lia).
  cbn. rewrite list_lookup_fmap, lookup_seqZ_lt by lia. cbn.
  do 2 f_equal. lia.
Qed.

Lemma register_length (size : Z) (name : string) :
  0 ≤ size → Z.of_nat (length (QuantumRegister size name)) = size.
Proof.
  intros Hs. unfold QuantumRegister, range. rewrite length_fmap, length_seqZ. lia.
Qed.

End Emission.

(** ** binary64: exact cases *)

Section FloatExact.

Lemma round_half_even_exact (q d : Z) : 0 < d → round_half_even (q * d) d = q.
Proof.
  intros Hd. unfold round_half_even.
  rewrite Z.div_mul, Z.mod_mul by lia.
  replace (2 * 0 <? d) with true by (symmetry; apply Z.ltb_lt; lia).
  reflexivity.
Qed.

Lemma ratio_log2_pow2 (a k : Z) :
  0 < a → 0 ≤ k → ratio_log2 a (2 ^ k) = Z.log2 a - k.
Proof.
  intros Ha Hk. unfold ratio_log2. rewrite Z.log2_pow2 by lia.
  pose proof (Z.log2_spec a Ha) as [Hlo _].
  pose proof (Z.log2_nonneg a) as HL.
  set (L := Z.log2 a) in *.
  assert (Hge : 2 ^ k * 2 ^ Z.max 0 (L - k) ≤ a * 2 ^ Z.max 0 (- (L - k))).
  { destruct (Z_le_gt_dec k L) as [Hle|Hgt].
    - rewrite (Z.max_r 0 (L - k)), (Z.max_l 0 (- (L - k))) by lia.
      rewrite <- Z.pow_add_r by lia. replace (k + (L - k)) with L by lia.
      rewrite Z.pow_0_r. lia.
    - rewrite (Z.max_l 0 (L - k)), (Z.max_r 0 (- (L - k))) by lia.
      rewrite Z.pow_0_r, Z.mul_1_r.
      replace k with (L + - (L - k)) at 1 by lia.
      rewrite Z.pow_add_r by lia.
      apply Z.mul_le_mono_nonneg_r; [apply Z.pow_nonneg; lia|exact Hlo]. }
  replace (a * 2 ^ Z.max 0 (- (L - k)) <? 2 ^ k * 2 ^ Z.max 0 (L - k))
    with false by (symmetry; apply Z.ltb_ge; exact Hge).
  reflexivity.
Qed.

Lemma Qred_inject_Z (z : Z) : Qred (inject_Z z) = inject_Z z.
Proof. apply Qcanon.Qred_identity. cbn. apply Z.gcd_1_r. Qed.

Lemma Qred_nonneg (y : Q) : 0 ≤ Qnum y → 0 ≤ Qnum (Qred y).
Proof.
  intros Hy. pose proof (Qred_correct y) as Heq. unfold Qeq in Heq.
  destruct (Z_lt_le_dec (Qnum (Qred y)) 0) as [Hneg|]; [exfalso|assumption].
  assert (Qnum (Qred y) * QDen y < 0) by (apply Z.mul_neg_pos; lia).
  assert (0 ≤ Qnum y * QDen (Qred y)) by (apply Z.mul_nonneg_nonneg; lia).
  lia.
Qed.

(** A dyadic number [a * 2^j / 2^k] whose odd part [a] fits 53 bits and
    whose last bit is not below [2^-1074] is a binary64 number: no rounding
    takes place. *)
Lemma binary64_round_dyadic_exact (a j k : Z) :
  0 < a < 2 ^ 53 → 0 ≤ j → 0 ≤ k → -1074 ≤ j - k →
  binary64_round (a * 2 ^ j) (2 ^ k) = Qred ((a * 2 ^ j) # Z.to_pos (2 ^ k)).
Proof.
  intros Ha Hj Hk Hjk. unfold binary64_round.
  assert (Hpj : 0 < 2 ^ j) by (apply Z.pow_pos_nonneg; lia).
  assert (Hpk : 0 < 2 ^ k) by (apply Z.pow_pos_nonneg; lia).
  assert (Hnum : 0 < a * 2 ^ j) by (apply Z.mul_pos_pos; lia).
  replace (a * 2 ^ j =? 0) with false by (symmetry; apply Z.eqb_neq; lia).
  rewrite ratio_log2_pow2, Z.log2_mul_pow2 by lia.
  assert (HL : 0 ≤ Z.log2 a < 53).
  { split; [apply Z.log2_nonneg|]. apply Z.log2_lt_pow2; lia. }
  set (u := Z.max (j + Z.log2 a - k - 52) (-1074)).
  assert (Hu : u ≤ j - k) by (subst u; lia).
  destruct (0 <=? u) eqn:Hu0.
  - apply Z.leb_le in Hu0.
    replace (a * 2 ^ j) with (a * 2 ^ (j - k - u) * (2 ^ k * 2 ^ u)) at 1.
    2:{ rewrite <- Z.mul_assoc, <- !Z.pow_add_r by lia. do 2 f_equal. lia. }
    rewrite round_half_even_exact by (apply Z.mul_pos_pos; [lia|apply Z.pow_pos_nonneg; lia]).
    unfold scale2.
    replace (0 <=? u) with true by (symmetry; apply Z.leb_le; lia).
    rewrite <- Qred_inject_Z. apply Qred_complete.
    unfold Qeq. cbn [Qnum Qden inject_Z]. rewrite Z2Pos.id by lia.
    rewrite Z.mul_1_r, <- !Z.mul_assoc, <- !Z.pow_add_r by lia.
    do 2 f_equal. lia.
  - apply Z.leb_gt in Hu0.
    replace (a * 2 ^ j * 2 ^ (- u)) with (a * 2 ^ (j - u - k) * 2 ^ k).
    2:{ rewrite <- !Z.mul_assoc, <- !Z.pow_add_r by lia. do 2 f_equal. lia. }
    rewrite round_half_even_exact by lia.
    unfold scale2.
    replace (0 <=? u) with false by (symmetry; apply Z.leb_gt; lia).
    apply Qred_complete. unfold Qeq. cbn [Qnum Qden].
    assert (Hpu : 0 < 2 ^ (- u)) by (apply Z.pow_pos_nonneg; lia).
    rewrite !Z2Pos.id by lia.
    rewrite <- !Z.mul_assoc, <- !Z.pow_add_r by lia. do 2 f_equal. lia.
Qed.

(** A quotient [a / 2^k] with [a] below [2^53] is exact. *)
Lemma binary64_round_pow2_exact (a k : Z) :
  0 < a < 2 ^ 53 → 0 ≤ k ≤ 1074 →
  binary64_round a (2 ^ k) = Qred (a # Z.to_pos (2 ^ k)).
Proof.
  intros Ha Hk.
  pose proof (binary64_round_dyadic_exact a 0 k Ha ltac:(lia) ltac:(lia)
                ltac:(lia)) as Hex.
  change (2 ^ 0) with 1 in Hex. rewrite Z.mul_1_r in Hex. exact Hex.
Qed.

(** [float(2**e)] is exact up to [e = 1023] and overflows at [e = 1024]. *)
Lemma float_of_int_pow2 (e : Z) :
  0 ≤ e ≤ 1023 → float_of_int (2 ^ e) = Val (inject_Z (2 ^ e)).
Proof.
  intros He. unfold float_of_int.
  assert (Hpe : 0 < 2 ^ e) by (apply Z.pow_pos_nonneg; lia).
  rewrite Z.abs_eq by lia.
  pose proof (binary64_round_dyadic_exact 1 e 0 ltac:(lia) ltac:(lia)
                ltac:(lia) ltac:(lia)) as Hex.
  change (2 ^ 0) with 1 in Hex. rewrite Z.mul_1_l in Hex.
  change (Z.to_pos 1) with 1%positive in Hex.
  change (2 ^ e # 1) with (inject_Z (2 ^ e)) in Hex.
  rewrite Qred_inject_Z in Hex. rewrite Hex.
  replace (binary64_overflows (inject_Z (2 ^ e))) with false.
  - replace (2 ^ e <? 0) with false by (symmetry; apply Z.ltb_ge; lia).
    reflexivity.
  - symmetry. unfold binary64_overflows.
    destruct (Qle_bool (inject_Z (2 ^ 1024)) (inject_Z (2 ^ e))) eqn:Hle;
      [exfalso|reflexivity].
    apply Qle_bool_iff in Hle. unfold Qle in Hle.
    cbn [Qnum Qden inject_Z] in Hle.
    assert (2 ^ e < 2 ^ 1024) by (apply Z.pow_lt_mono_r; lia). lia.
Qed.

Lemma float_of_int_pow2_overflow : float_of_int (2 ^ 1024) = Raise OverflowError.
Proof. vm_compute. reflexivity. Qed.

Lemma small_ratio_no_overflow (a : Z) (p : positive) :
  0 ≤ a < 2 ^ 53 → binary64_overflows (Qred (a # p)) = false.
Proof.
  intros Ha. unfold binary64_overflows.
  destruct (Qle_bool (inject_Z (2 ^ 1024)) (Qred (a # p))) eqn:Hle; [|reflexivity].
  exfalso. apply Qle_bool_iff in Hle. rewrite Qred_correct in Hle.
  unfold Qle in Hle. cbn [Qnum Qden inject_Z] in Hle.
  assert (a * 1 < 2 ^ 1024 * Z.pos p); [|lia].
  assert (2 ^ 53 ≤ 2 ^ 1024) by (apply Z.pow_le_mono_r; lia).
  nia.
Qed.

(** [a / 2**k] is exact for [0 <= a < 2^53] and [k <= 1074]. *)
Lemma truediv_pow2_exact (a k : Z) :
  0 ≤ a < 2 ^ 53 → 0 ≤ k ≤ 1074 →
  truediv a (2 ^ k) = Val (Qred (a # Z.to_pos (2 ^ k))).
Proof.
  intros Ha Hk. unfold truediv.
  assert (Hpk : 0 < 2 ^ k) by (apply Z.pow_pos_nonneg; lia).
  replace (2 ^ k =? 0) with false by (symmetry; apply Z.eqb_neq; lia).
  rewrite (Z.abs_eq a), (Z.abs_eq (2 ^ k)) by lia.
  replace (Z.sgn a * Z.sgn (2 ^ k) <? 0) with false.
  2:{ symmetry. apply Z.ltb_ge. rewrite (Z.sgn_pos (2 ^ k)) by lia.
      pose proof (Z.sgn_nonneg a). lia. }
  destruct (Z.eq_dec a 0) as [->|Hne].
  - unfold binary64_round. cbn [Z.eqb].
    replace (Qred (0 # Z.to_pos (2 ^ k))) with 0%Q
      by (symmetry; apply (Qred_complete (0 # Z.to_pos (2 ^ k)) 0); reflexivity).
    reflexivity.
  - rewrite binary64_round_pow2_exact by lia.
    rewrite small_ratio_no_overflow by lia. reflexivity.
Qed.

End FloatExact.

Section FloatBounds.

Lemma round_half_even_bounds (num den : Z) :
  0 ≤ num → 0 < den →
  num / den ≤ round_half_even num den ≤ num / den + 1 ∧
  (num mod den = 0 → round_half_even num den = num / den).
Proof.
  intros Hn Hd. unfold round_half_even. split.
  - destruct (2 * (num mod den) <? den); [lia|].
    destruct (den <? 2 * (num mod den)); [lia|].
    destruct (Z.even (num / den)); lia.
  - intros ->. replace (2 * 0 <? den) with true by (symmetry; apply Z.ltb_lt; lia).
    reflexivity.
Qed.

Lemma ratio_log2_le (num den : Z) :
  0 < num ≤ den → ratio_log2 num den ≤ 0.
Proof.
  intros Hnd. unfold ratio_log2.
  pose proof (Z.log2_le_mono num den ltac:(lia)) as Hmono.
  destruct (_ <? _); lia.
Qed.

(** A quotient of [num <= den] rounds to a binary64 number in [[0, 1]]. *)
Lemma binary64_round_unit (num den : Z) :
  0 ≤ num ≤ den → 0 < den →
  0 ≤ Qnum (binary64_round num den) ∧ (binary64_round num den <= 1)%Q.
Proof.
  intros Hnd Hd. unfold binary64_round.
  destruct (num =? 0) eqn:Hz; [cbn; split; [lia|discriminate]|].
  apply Z.eqb_neq in Hz.
  pose proof (ratio_log2_le num den ltac:(lia)) as He.
  set (u := Z.max (ratio_log2 num den - 52) (-1074)).
  assert (Hu : u < 0) by (subst u; lia).
  replace (0 <=? u) with false by (symmetry; apply Z.leb_gt; lia).
  unfold scale2.
  replace (0 <=? u) with false by (symmetry; apply Z.leb_gt; lia).
  assert (Hpu : 0 < 2 ^ (- u)) by (apply Z.pow_pos_nonneg; lia).
  set (t := 2 ^ (- u)) in *.
  assert (Hnt : 0 ≤ num * t) by (apply Z.mul_nonneg_nonneg; lia).
  destruct (round_half_even_bounds (num * t) den Hnt Hd) as [[Hlo Hhi] Hexact].
  pose proof (Z.div_pos (num * t) den Hnt Hd) as Hq.
  assert (Hm : 0 ≤ round_half_even (num * t) den ≤ t).
  { split; [lia|].
    destruct (Z.eq_dec num den) as [->|Hne].
    - rewrite Hexact by (rewrite Z.mul_comm; apply Z.mod_mul; lia).
      rewrite Z.mul_comm, Z.div_mul by lia. lia.
    - assert ((num * t) / den < t); [|lia].
      apply Z.div_lt_upper_bound; [lia|].
      rewrite (Z.mul_comm den t), (Z.mul_comm num t).
      apply Z.mul_lt_mono_pos_l; lia. }
  set (m := round_half_even (num * t) den) in *.
  split.
  - apply Qred_nonneg. cbn [Qnum]. lia.
  - rewrite Qred_correct. unfold Qle. cbn [Qnum Qden].
    rewrite Z2Pos.id by lia. lia.
Qed.

(** [m / 2**k] never raises when [0 <= m < 2^k]. *)
Lemma truediv_unit (m k : Z) :
  0 ≤ m < 2 ^ k → 0 ≤ k →
  ∃ phase, truediv m (2 ^ k) = Val phase ∧
           Qred phase = phase ∧ 0 ≤ Qnum phase.
Proof.
  intros Hm Hk. unfold truediv.
  assert (Hpk : 0 < 2 ^ k) by (apply Z.pow_pos_nonneg; lia).
  replace (2 ^ k =? 0) with false by (symmetry; apply Z.eqb_neq; lia).
  rewrite (Z.abs_eq m), (Z.abs_eq (2 ^ k)) by lia.
  replace (Z.sgn m * Z.sgn (2 ^ k) <? 0) with false.
  2:{ symmetry. apply Z.ltb_ge. rewrite (Z.sgn_pos (2 ^ k)) by lia.
      pose proof (Z.sgn_nonneg m). lia. }
  destruct (binary64_round_unit m (2 ^ k) ltac:(lia) Hpk) as [Hnn Hle].
  replace (binary64_overflows (binary64_round m (2 ^ k))) with false.
  - eexists. split; [reflexivity|]. split; [|exact Hnn].
    unfold binary64_round. destruct (m =? 0); [reflexivity|].
    unfold scale2. destruct (0 <=? _).
    + apply Qred_inject_Z.
    + apply Qcanon.Qred_involutive.
  - symmetry. unfold binary64_overflows.
    destruct (Qle_bool _ _) eqn:Hov; [exfalso|reflexivity].
    apply Qle_bool_iff in Hov.
    pose proof (Qle_trans _ _ _ Hov Hle) as Habs.
    unfold Qle in Habs. cbn in Habs. lia.
Qed.

End FloatBounds.

(** ** Fraction.limit_denominator *)

Section ContinuedFraction.

Variables (M n0 d0 : Z).

Hypothesis HM : 1 ≤ M.
Hypothesis Hd0 : M < d0.
Hypothesis Hn0 : 0 ≤ n0.
Hypothesis Hcop : Z.gcd n0 d0 = 1.

Lemma cf_invariant_init : cf_invariant M n0 d0 0 1 1 0 n0 d0.
Proof. unfold cf_invariant. lia. Qed.

(** An iteration that does not leave the loop keeps the invariant; the
    new remainder is positive because [n0/d0] is in lowest terms and [d0]
    exceeds the bound. *)
Lemma cf_invariant_step (p0 q0 p1 q1 n d : Z) :
  cf_invariant M n0 d0 p0 q0 p1 q1 n d →
  q0 + n / d * q1 ≤ M →
  cf_invariant M n0 d0 p1 q1 (p0 + n / d * p1) (q0 + n / d * q1) d (n - n / d * d)
  ∧ n - n / d * d < d.
Proof.
  intros (H1 & H2 & H3 & H4 & H5 & H6 & H7) Hq2.
  pose proof (Z.mod_pos_bound n d H7) as Hr.
  pose proof (Z.div_pos n d H6 H7) as Ha.
  assert (Hmod : n - n / d * d = n mod d) by (rewrite Z.mod_eq by lia; lia).
  set (a := n / d) in *.
  assert (Hq2nn : 0 ≤ a * q1) by (apply Z.mul_nonneg_nonneg; lia).
  assert (Hrpos : 0 < n - a * d).
  { destruct (Z.eq_dec (n - a * d) 0) as [Hz|Hnz]; [exfalso|lia].
    assert (Hn : n = a * d) by lia.
    assert (Hdn : (d | n0)).
    { exists (p1 * a + p0). rewrite H1, Hn. ring. }
    assert (Hdd : (d | d0)).
    { exists (q1 * a + q0). rewrite H2, Hn. ring. }
    pose proof (Z.gcd_greatest n0 d0 d Hdn Hdd) as Hg. rewrite Hcop in Hg.
    apply Z.divide_1_r_nonneg in Hg; [|lia]. subst d.
    assert (d0 = q0 + a * q1) by (rewrite H2, Hn; ring). lia. }
  split; [|lia]. unfold cf_invariant. repeat split; lia.
Qed.

(** Once the remainders decrease, their product halves at each iteration:
    [fuel] iterations suffice when it is below [2^fuel]. *)
Lemma cf_loop_runs (fuel : nat) :
  ∀ p0 q0 p1 q1 n d,
    cf_invariant M n0 d0 p0 q0 p1 q1 n d →
    d < n →
    n * d < 2 ^ Z.of_nat fuel →
    ∃ p0' q0' p1' q1' n' d',
      cf_loop (S fuel) M p0 q0 p1 q1 n d = Val (p0', q0', p1', q1', n', d') ∧
      cf_invariant M n0 d0 p0' q0' p1' q1' n' d' ∧
      M < q0' + n' / d' * q1'.
Proof.
  induction fuel as [|fuel IH]; intros p0 q0 p1 q1 n d Hinv Hdn Hpot.
  - exfalso. destruct Hinv as (_ & _ & _ & _ & _ & _ & Hd).
    change (2 ^ Z.of_nat 0) with 1 in Hpot. nia.
  - pose proof Hinv as (_ & _ & _ & _ & _ & Hn & Hd).
    cbn [cf_loop].
    replace (d =? 0) with false by (symmetry; apply Z.eqb_neq; lia).
    destruct (M <? q0 + n / d * q1) eqn:Hbreak.
    + apply Z.ltb_lt in Hbreak. do 6 eexists. split; [reflexivity|].
      split; assumption.
    + apply Z.ltb_ge in Hbreak.
      destruct (cf_invariant_step _ _ _ _ _ _ Hinv Hbreak) as [Hinv' Hlt].
      pose proof Hinv' as (_ & _ & _ & _ & _ & _ & Hr).
      apply IH; [exact Hinv'|exact Hlt|].
      rewrite Nat2Z.inj_succ, Z.pow_succ_r in Hpot by lia.
      assert (Ha : 1 ≤ n / d) by (apply Z.div_le_lower_bound; lia).
      set (a := n / d) in *. nia.
Qed.

(** The loop of [limit_denominator] leaves through [break]: it neither
    divides by zero nor exhausts the iterations granted by [cf_fuel]. *)
Lemma cf_loop_breaks :
  ∃ p0 q0 p1 q1 n d,
    cf_loop (cf_fuel d0) M 0 1 1 0 n0 d0 = Val (p0, q0, p1, q1, n, d) ∧
    cf_invariant M n0 d0 p0 q0 p1 q1 n d ∧
    M < q0 + n / d * q1.
Proof.
  assert (Hd0pos : 0 < d0) by lia.
  pose proof (Z.log2_nonneg d0) as HL.
  pose proof (Z.log2_spec d0 Hd0pos) as [_ Hub].
  unfold cf_fuel.
  replace (Z.to_nat (2 * Z.log2 d0 + 4))
    with (S (S (Z.to_nat (2 * Z.log2 d0 + 2)))) by lia.
  cbn [cf_loop].
  replace (d0 =? 0) with false by (symmetry; apply Z.eqb_neq; lia).
  replace (M <? 1 + n0 / d0 * 0) with false
    by (symmetry; apply Z.ltb_ge; lia).
  destruct (cf_invariant_step 0 1 1 0 n0 d0 cf_invariant_init ltac:(lia))
    as [Hinv Hlt].
  apply cf_loop_runs; [exact Hinv|exact Hlt|].
  rewrite Z2Nat.id by lia.
  pose proof Hinv as (_ & _ & _ & _ & _ & _ & Hr).
  replace (2 * Z.log2 d0 + 2) with (Z.succ (Z.log2 d0) + Z.succ (Z.log2 d0)) by lia.
  rewrite Z.pow_add_r by lia. nia.
Qed.

End ContinuedFraction.

Section BestOfTwo.

(** No fraction of denominator at most [M] lies strictly between two
    fractions [P/Q] and [p1/q1] of determinant [±1] with [M < Q + q1]; so
    every such fraction is at least as far from a point [n0/d0] between
    them as the nearer of the two.  [d] and [e] are the distances of
    [n0/d0] to [p1/q1] and to [P/Q], scaled by [d0 q1] and [d0 Q]. *)
Lemma between_convergents (n0 d0 p1 q1 P Q d e u v M : Z) :
  0 < d0 → 0 < q1 → 0 < Q → 0 < d → 0 < e →
  (p1 * Q - P * q1 = 1 ∧ n0 * q1 - p1 * d0 = - d ∧ n0 * Q - P * d0 = e)
  ∨ (p1 * Q - P * q1 = -1 ∧ n0 * q1 - p1 * d0 = d ∧ n0 * Q - P * d0 = - e) →
  M < Q + q1 → 1 ≤ v ≤ M →
  d * v ≤ Z.abs (n0 * v - u * d0) * q1 ∨ e * v ≤ Z.abs (n0 * v - u * d0) * Q.
Proof.
  intros Hd0 Hq1 HQ Hd He Hdet HM Hv.
  set (w := n0 * v - u * d0).
  assert (Habs1 : w * q1 ≤ Z.abs w * q1 ∧ - w * q1 ≤ Z.abs w * q1)
    by (split; apply Z.mul_le_mono_nonneg_r; lia).
  assert (Habs2 : w * Q ≤ Z.abs w * Q ∧ - w * Q ≤ Z.abs w * Q)
    by (split; apply Z.mul_le_mono_nonneg_r; lia).
  set (t2 := p1 * v - u * q1). set (t1 := u * Q - P * v).
  destruct Hdet as [(Hdet & H2 & H1)|(Hdet & H2 & H1)].
  - assert (Hv' : v = Q * t2 + q1 * t1).
    { pose proof (f_equal (Z.mul v) Hdet) as E. subst t1 t2. lia. }
    assert (Hw2 : w * q1 = d0 * t2 - d * v).
    { pose proof (f_equal (Z.mul v) H2) as E. subst w t2. lia. }
    assert (Hw1 : w * Q = e * v - d0 * t1).
    { pose proof (f_equal (Z.mul v) H1) as E. subst w t1. lia. }
    destruct (Z_le_gt_dec t2 0) as [Ht2|Ht2].
    + left. assert (d0 * t2 ≤ 0) by (apply Z.mul_nonneg_nonpos; lia). lia.
    + destruct (Z_le_gt_dec t1 0) as [Ht1|Ht1].
      * right. assert (d0 * t1 ≤ 0) by (apply Z.mul_nonneg_nonpos; lia). lia.
      * exfalso. assert (Q * 1 ≤ Q * t2) by (apply Z.mul_le_mono_nonneg_l; lia).
        assert (q1 * 1 ≤ q1 * t1) by (apply Z.mul_le_mono_nonneg_l; lia). lia.
  - assert (Hv' : v = - Q * t2 - q1 * t1).
    { pose proof (f_equal (Z.mul v) Hdet) as E. subst t1 t2. lia. }
    assert (Hw2 : w * q1 = d0 * t2 + d * v).
    { pose proof (f_equal (Z.mul v) H2) as E. subst w t2. lia. }
    assert (Hw1 : w * Q = - e * v - d0 * t1).
    { pose proof (f_equal (Z.mul v) H1) as E. subst w t1. lia. }
    destruct (Z_le_gt_dec 0 t2) as [Ht2|Ht2].
    + left. assert (0 ≤ d0 * t2) by (apply Z.mul_nonneg_nonneg; lia). lia.
    + destruct (Z_le_gt_dec 0 t1) as [Ht1|Ht1].
      * right. assert (0 ≤ d0 * t1) by (apply Z.mul_nonneg_nonneg; lia). lia.
      * exfalso.
        assert (Q * 1 ≤ Q * - t2) by (apply Z.mul_le_mono_nonneg_l; lia).
        assert (q1 * 1 ≤ q1 * - t1) by (apply Z.mul_le_mono_nonneg_l; lia). lia.
Qed.

(** Distances between fractions, compared through integers. *)
Lemma Qabs_dist_le (n0 : Z) (d0 : positive) (a u : Z) (b v : positive) :
  (Qabs ((n0 # d0) - (a # b)) <= Qabs ((n0 # d0) - (u # v)))%Q
  ↔ Z.abs (n0 * Z.pos b - a * Z.pos d0) * Z.pos v
    ≤ Z.abs (n0 * Z.pos v - u * Z.pos d0) * Z.pos b.
Proof.
  unfold Qle, Qabs, Qminus, Qplus, Qopp. cbn [Qnum Qden].
  rewrite !Pos2Z.inj_mul.
  replace (n0 * Z.pos b + - a * Z.pos d0) with (n0 * Z.pos b - a * Z.pos d0) by ring.
  replace (n0 * Z.pos v + - u * Z.pos d0) with (n0 * Z.pos v - u * Z.pos d0) by ring.
  set (A := Z.abs (n0 * Z.pos b - a * Z.pos d0)).
  set (B := Z.abs (n0 * Z.pos v - u * Z.pos d0)).
  replace (A * (Z.pos d0 * Z.pos v)) with (Z.pos d0 * (A * Z.pos v)) by ring.
  replace (B * (Z.pos d0 * Z.pos b)) with (Z.pos d0 * (B * Z.pos b)) by ring.
  symmetry. apply Z.mul_le_mono_pos_l. lia.
Qed.

End BestOfTwo.

Section LimitDenominatorCorrect.

Lemma coprime_of_determinant (a b c d : Z) :
  a * d - b * c = 1 ∨ a * d - b * c = -1 → Z.gcd a b = 1.
Proof.
  intros [Hdet|Hdet]; apply Z.bezout_1_gcd.
  - exists d, (- c). lia.
  - exists (- d), c. lia.
Qed.

Lemma make_lowest_terms (P Q : Z) :
  0 < Q → Z.gcd P Q = 1 → make P Q = Val (P # Z.to_pos Q).
Proof.
  intros HQ Hg. unfold make.
  replace (Q =? 0) with false by (symmetry; apply Z.eqb_neq; lia).
  rewrite Z.sgn_pos, Z.abs_eq, Z.mul_1_r by lia. f_equal.
  apply Qcanon.Qred_identity. cbn [Qnum Qden]. rewrite Z2Pos.id by lia. exact Hg.
Qed.

Lemma chain_le (d e W Q q1 v : Z) :
  0 < Q → 0 < q1 → 0 < v → 0 ≤ W →
  d * Q ≤ e * q1 → e * v ≤ W * Q → d * v ≤ W * q1.
Proof.
  intros HQ Hq1 Hv HW H1 H2.
  assert (d * Q * v ≤ e * q1 * v) by (apply Z.mul_le_mono_nonneg_r; lia).
  assert (e * v * q1 ≤ W * Q * q1) by (apply Z.mul_le_mono_nonneg_r; lia).
  apply (Z.mul_le_mono_pos_r _ _ Q); lia.
Qed.

Lemma chain_lt (d e W Q q1 v : Z) :
  0 < Q → 0 < q1 → 0 < v → 0 ≤ W →
  e * q1 < d * Q → d * v ≤ W * q1 → e * v ≤ W * Q.
Proof.
  intros HQ Hq1 Hv HW H1 H2.
  assert (e * q1 * v < d * Q * v) by (apply Z.mul_lt_mono_pos_r; lia).
  assert (d * v * Q ≤ W * q1 * Q) by (apply Z.mul_le_mono_nonneg_r; lia).
  apply (Z.mul_le_mono_pos_r _ _ q1); lia.
Qed.

(** [limit_denominator] returns, in lowest terms, a fraction of
    denominator at most [max_denominator] that no other such fraction
    beats. *)
Lemma limit_denominator_best (x : Q) (M : Z) :
  Qred x = x → 0 ≤ Qnum x → 1 ≤ M →
  ∃ r, limit_denominator x M = Val r ∧
       Z.gcd (numerator r) (denominator r) = 1 ∧
       best_approximation M x (numerator r) (denominator r).
Proof.
  intros Hred Hnn HM. destruct x as [n0 d0p]. cbn [Qnum] in Hnn.
  pose proof (Qcanon.Qred_identity2 _ Hred) as Hcop. cbn [Qnum Qden] in Hcop.
  unfold limit_denominator, numerator, denominator. cbn [Qnum Qden].
  replace (M <? 1) with false by (symmetry; apply Z.ltb_ge; lia).
  destruct (Z.pos d0p <=? M) eqn:Hsmall.
  - apply Z.leb_le in Hsmall. exists (n0 # d0p). cbn [Qnum Qden].
    split; [reflexivity|]. split; [exact Hcop|]. split; [lia|].
    intros u v Hv. cbn [Z.to_pos]. apply Qabs_dist_le.
    replace (n0 * Z.pos d0p - n0 * Z.pos d0p) with 0 by ring.
    cbn [Z.abs Z.mul]. apply Z.mul_nonneg_nonneg; lia.
  - apply Z.leb_gt in Hsmall.
    destruct (cf_loop_breaks M n0 (Z.pos d0p) HM Hsmall Hnn Hcop)
      as (p0 & q0 & p1 & q1 & n & d & Hloop & Hinv & Hbreak).
    rewrite Hloop. cbn [mbind res_bind].
    destruct Hinv as (H1 & H2 & H3 & H4 & H5 & H6 & H7).
    pose proof (Z.div_pos n d H6 H7) as Ha.
    pose proof (Z.mul_div_le n d H7) as Han.
    assert (Hq1 : 0 < q1).
    { destruct (Z.eq_dec q1 0) as [->|]; [|lia]. rewrite Z.mul_0_r in Hbreak. lia. }
    replace (q1 =? 0) with false by (symmetry; apply Z.eqb_neq; lia).
    cbn [mbind res_bind].
    pose proof (Z.div_pos (M - q0) q1 ltac:(lia) Hq1) as Hk.
    pose proof (Z.mul_div_le (M - q0) q1 Hq1) as Hklo.
    pose proof (Z.mul_succ_div_gt (M - q0) q1 Hq1) as Hkhi.
    set (a := n / d) in *. set (k := (M - q0) / q1) in *.
    assert (Hka : k < a).
    { destruct (Z_lt_le_dec k a) as [|Hge]; [assumption|exfalso].
      assert (a * q1 ≤ k * q1) by (apply Z.mul_le_mono_nonneg_r; lia). lia. }
    assert (HQ1 : 1 ≤ q0 + k * q1).
    { destruct (Z.eq_dec q0 0) as [Hq0|]; [|nia].
      assert (1 ≤ k); [|nia]. subst k. rewrite Hq0, Z.sub_0_r.
      apply Z.div_le_lower_bound; lia. }
    assert (HQM : q0 + k * q1 ≤ M) by lia.
    assert (HQq : M < q0 + k * q1 + q1) by lia.
    assert (He : 0 < n - k * d).
    { assert (k * d ≤ (a - 1) * d) by (apply Z.mul_le_mono_nonneg_r; lia). lia. }
    set (P := p0 + k * p1) in *. set (Q := q0 + k * q1) in *.
    assert (Hdet : p1 * Q - P * q1 = p1 * q0 - p0 * q1) by (subst P Q; ring).
    assert (Hd2 : n0 * q1 - p1 * Z.pos d0p = - (p1 * q0 - p0 * q1) * d)
      by (rewrite H1, H2; ring).
    assert (Hd1 : n0 * Q - P * Z.pos d0p = (p1 * q0 - p0 * q1) * (n - k * d))
      by (rewrite H1, H2; subst P Q; ring).
    assert (Hcase :
      (p1 * Q - P * q1 = 1 ∧ n0 * q1 - p1 * Z.pos d0p = - d
       ∧ n0 * Q - P * Z.pos d0p = n - k * d)
      ∨ (p1 * Q - P * q1 = -1 ∧ n0 * q1 - p1 * Z.pos d0p = d
         ∧ n0 * Q - P * Z.pos d0p = - (n - k * d))).
    { destruct H3 as [H3|H3]; rewrite H3 in Hdet, Hd2, Hd1; [left|right]; lia. }
    assert (Hg1 : Z.gcd P Q = 1).
    { apply (coprime_of_determinant P Q p1 q1).
      destruct Hcase as [(E & _)|(E & _)]; lia. }
    assert (Hg2 : Z.gcd p1 q1 = 1).
    { apply (coprime_of_determinant p1 q1 P Q).
      destruct Hcase as [(E & _)|(E & _)]; lia. }
    rewrite (make_lowest_terms P Q) by (assumption || lia).
    cbn [mbind res_bind].
    rewrite (make_lowest_terms p1 q1) by assumption.
    cbn [mbind res_bind].
    assert (Hbetween : ∀ u v, 1 ≤ v ≤ M →
              d * v ≤ Z.abs (n0 * v - u * Z.pos d0p) * q1
              ∨ (n - k * d) * v ≤ Z.abs (n0 * v - u * Z.pos d0p) * Q).
    { intros u v Hv.
      apply (between_convergents n0 (Z.pos d0p) p1 q1 P Q d (n - k * d) u v M);
        (assumption || lia). }
    assert (Hdist2 : Z.abs (n0 * q1 - p1 * Z.pos d0p) = d)
      by (destruct Hcase as [(_ & E & _)|(_ & E & _)]; lia).
    assert (Hdist1 : Z.abs (n0 * Q - P * Z.pos d0p) = n - k * d)
      by (destruct Hcase as [(_ & _ & E)|(_ & _ & E)]; lia).
    destruct (Qle_bool _ _) eqn:Hcmp.
    + apply Qle_bool_iff in Hcmp.
      rewrite (Qabs_Qminus (p1 # Z.to_pos q1)), (Qabs_Qminus (P # Z.to_pos Q))
        in Hcmp.
      apply Qabs_dist_le in Hcmp. rewrite !Z2Pos.id in Hcmp by lia.
      rewrite Hdist1, Hdist2 in Hcmp.
      exists (p1 # Z.to_pos q1). cbn [Qnum Qden]. rewrite Z2Pos.id by lia.
      split; [reflexivity|]. split; [exact Hg2|]. split; [lia|].
      intros u v Hv. apply Qabs_dist_le. rewrite !Z2Pos.id by lia.
      rewrite Hdist2.
      destruct (Hbetween u v Hv) as [Hl|Hr]; [exact Hl|].
      apply (chain_le d (n - k * d) _ Q q1 v); (assumption || lia).
    + assert (Hlt : (n - k * d) * q1 < d * Q).
      { destruct (Z_lt_le_dec ((n - k * d) * q1) (d * Q)) as [|Hge];
          [assumption|exfalso].
        assert (Hq : Qle_bool (Qabs ((p1 # Z.to_pos q1) - (n0 # d0p)))
                       (Qabs ((P # Z.to_pos Q) - (n0 # d0p))) = true).
        { apply Qle_bool_iff.
          rewrite (Qabs_Qminus (p1 # Z.to_pos q1)),
            (Qabs_Qminus (P # Z.to_pos Q)).
          apply Qabs_dist_le. rewrite !Z2Pos.id by lia.
          rewrite Hdist1, Hdist2. exact Hge. }
        congruence. }
      exists (P # Z.to_pos Q). cbn [Qnum Qden]. rewrite Z2Pos.id by lia.
      split; [reflexivity|]. split; [exact Hg1|]. split; [lia|].
      intros u v Hv. apply Qabs_dist_le. rewrite !Z2Pos.id by lia.
      rewrite Hdist1.
      destruct (Hbetween u v Hv) as [Hl|Hr]; [|exact Hr].
      apply (chain_lt d (n - k * d) _ Q q1 v); (assumption || lia).
Qed.

End LimitDenominatorCorrect.

(** ** Deutsch-Jozsa: oracle synthesis *)

Section Oracle.

Import DeutschJozsa.

Variables (qubits : list Qubit) (target : Qubit).

Local Abbreviation n := (Z.of_nat (length qubits)).

(** One of the two loops over [j] that flip the qubits at the zero
    positions of [i]. *)
Lemma flip_loop_emits (i : Z) (qc : QuantumCircuit) :
  0 ≤ i < 2 ^ n →
  for_each (range n) (λ j qc,
    c ← str_getitem (format_b n i) j;
    if Ascii.eqb c "0"%char then q ← getitem qubits j; Val (append (X q) qc)
    else Val qc) qc
  = Val (extend qc (flips qubits i)).
Proof.
  intros Hi. unfold flips, zero_positions.
  rewrite <- (flat_map_guard (λ j, Z.testbit i (n - 1 - j) = false)).
  apply for_each_emits. intros j qc' Hj. apply range_elem in Hj.
  rewrite format_b_get by lia. cbn.
  destruct (Z.testbit i (n - 1 - j)) eqn:Hb; cbn.
  - rewrite extend_nil. reflexivity.
  - rewrite getitem_nonneg by lia. reflexivity.
Qed.

Lemma custom_term_emits (s : string) (i : Z) (qc : QuantumCircuit) :
  str_len s = 2 ^ n → 0 ≤ i < 2 ^ n → 1 ≤ n →
  custom_term (Some s) qubits target i qc
  = Val (extend qc (custom_term_gates s qubits target i)).
Proof.
  intros Hlen Hi Hn. unfold custom_term, custom_term_gates. cbn.
  destruct (str_get_is_Some s (Z.to_nat i)) as [c Hc];
    [unfold str_len in Hlen; lia|].
  rewrite (str_getitem_nonneg s i c) by (lia || exact Hc). cbn. rewrite Hc.
  destruct (Ascii.eqb_spec c "1"%char) as [->|Hne].
  - rewrite decide_True by reflexivity.
    rewrite flip_loop_emits by exact Hi. cbn.
    assert (Hcf : (if n =? 1
                   then q ← getitem qubits 0;
                        Val (append (CX q target) (extend qc (flips qubits i)))
                   else Val (append (MCX qubits target)
                               (extend qc (flips qubits i))))
                  = Val (extend (extend qc (flips qubits i))
                           [controlled_flip qubits target])).
    { unfold controlled_flip. destruct (n =? 1) eqn:Hn1; [|reflexivity].
      rewrite getitem_nonneg by lia. reflexivity. }
    rewrite Hcf. cbn. rewrite flip_loop_emits by exact Hi.
    rewrite !extend_extend. reflexivity.
  - rewrite decide_False by congruence. rewrite extend_nil. reflexivity.
Qed.

End Oracle.

Section OracleClaims.

Import DeutschJozsa.

(** C4. For a valid Custom bitstring of length [2^n] over [n >= 1] input
    qubits, the oracle synthesizer appends, for the indices [i] in ascending
    order whose character is ['1'] (and nothing for the others): bit-flips
    on the input qubits whose bit in the [n]-bit binary representation of
    [i] is 0 (qubit [j] goes with character [j] of the representation, the
    most significant bit first), one multi-controlled bit-flip from all
    input qubits onto the output qubit (a plain controlled bit-flip when
    [n = 1]), and the same bit-flips again. *)
Theorem custom_oracle_synthesis (self : DeutschJozsaAlgorithm)
    (qc : QuantumCircuit) (qubits : list Qubit) (target : Qubit) (s : string) :
  1 ≤ Z.of_nat (length qubits) →
  oracle_type self = "custom" →
  custom_bitstring self = Some s →
  str_len s = 2 ^ Z.of_nat (length qubits) →
  str_all is_bit s = true →
  _create_oracle self qc qubits target
  = Val (extend qc (custom_oracle_gates s qubits target)).
Proof.
  intros Hn Hty Hs Hlen _. unfold _create_oracle, custom_oracle_gates.
  rewrite Hty, Hs. cbn [String.eqb Ascii.eqb Bool.eqb].
  apply for_each_emits. intros i qc' Hi. apply range_elem in Hi.
  apply custom_term_emits; assumption.
Qed.

Lemma custom_oracle_synthesis_witness :
  _create_oracle (mkDJ 2 "custom" 0 (Some "0110") 1024) (mkCircuit [] [] [])
    (QuantumRegister 2 "input") (mkQubit "output" 0)
  = Val (mkCircuit [] []
           [X (mkQubit "input" 0);
            MCX (QuantumRegister 2 "input") (mkQubit "output" 0);
            X (mkQubit "input" 0);
            X (mkQubit "input" 1);
            MCX (QuantumRegister 2 "input") (mkQubit "output" 0);
            X (mkQubit "input" 1)]).
Proof.
  rewrite (custom_oracle_synthesis (mkDJ 2 "custom" 0 (Some "0110") 1024)
             (mkCircuit [] [] []) (QuantumRegister 2 "input")
             (mkQubit "output" 0) "0110");
    [reflexivity|vm_compute; discriminate|reflexivity|reflexivity|reflexivity
    |reflexivity].
Defined.

End OracleClaims.

(** ** Deutsch-Jozsa: construction, circuit and classification *)

Section Classification.

Import DeutschJozsa.

Lemma int_gt_half (c s : Z) :
  int_gt_float c (Qred (s # Z.to_pos (2 ^ 1))) = true ↔ s < 2 * c.
Proof.
  unfold int_gt_float. rewrite negb_true_iff.
  change (Z.to_pos (2 ^ 1)) with 2%positive.
  destruct (Qle_bool (inject_Z c) (Qred (s # 2))) eqn:Hle.
  - apply Qle_bool_iff in Hle. rewrite Qred_correct in Hle.
    unfold Qle in Hle. cbn [Qnum Qden inject_Z] in Hle.
    split; [discriminate|lia].
  - split; [intros _|reflexivity].
    destruct (Z_lt_le_dec s (2 * c)) as [Hlt|Hge]; [exact Hlt|exfalso].
    assert (Hq : Qle_bool (inject_Z c) (Qred (s # 2)) = true).
    { apply Qle_bool_iff. rewrite Qred_correct.
      unfold Qle. cbn [Qnum Qden inject_Z]. lia. }
    congruence.
Qed.

(** The interpretation rule, for shot counts that binary64 holds exactly. *)
Lemma interpret_exact_range (self : DeutschJozsaAlgorithm) (counts : gmap string Z) :
  0 < shots self < 2 ^ 53 →
  interpret self counts =
    Val (match counts !! str_mul "0" (n_qubits self) with
         | Some c => if decide (shots self < 2 * c) then "constant" else "balanced"
         | None => "balanced"
         end).
Proof.
  intros Hs. unfold interpret.
  destruct (counts !! str_mul "0" (n_qubits self)) as [c|]; [|reflexivity].
  change 2 with (2 ^ 1) at 1. rewrite truediv_pow2_exact by lia.
  cbn [mbind res_bind].
  pose proof (int_gt_half c (shots self)) as Hgt.
  destruct (int_gt_float c _).
  - rewrite decide_True by (apply Hgt; reflexivity). reflexivity.
  - rewrite decide_False; [reflexivity|]. intros Hlt. apply Hgt in Hlt.
    discriminate.
Qed.

End Classification.

Section ConfigurationLemmas.

Import DeutschJozsa.

Lemma hadamard_loop_emits (n : Z) (qc : QuantumCircuit) :
  for_each (range n) (λ i qc,
    q ← getitem (QuantumRegister n "input") i; Val (append (H q) qc)) qc
  = Val (extend qc ((λ i, H (mkQubit "input" i)) <$> range n)).
Proof.
  rewrite <- flat_map_singleton. apply for_each_emits.
  intros i qc' Hi. apply range_elem in Hi.
  rewrite register_getitem by lia. reflexivity.
Qed.

(** The oracle synthesizer succeeds on every valid configuration. *)
Lemma create_oracle_succeeds (self : DeutschJozsaAlgorithm) (qc : QuantumCircuit) :
  valid_config self →
  ∃ gates,
    _create_oracle self qc (QuantumRegister (n_qubits self) "input")
      (mkQubit "output" 0)
    = Val (extend qc gates).
Proof.
  intros (Hn & Hty & _ & _ & Hcustom).
  assert (Hlen : Z.of_nat (length (QuantumRegister (n_qubits self) "input"))
                 = n_qubits self) by (apply register_length; lia).
  apply list_elem_of_In in Hty. cbn in Hty.
  destruct Hty as [Hty|[Hty|[Hty|[]]]]; symmetry in Hty.
  - unfold _create_oracle. rewrite Hty. cbn [String.eqb Ascii.eqb Bool.eqb].
    destruct (constant_value self =? 1).
    + exists [X (mkQubit "output" 0)]. reflexivity.
    + exists []. rewrite extend_nil. reflexivity.
  - unfold _create_oracle. rewrite Hty. cbn [String.eqb Ascii.eqb Bool.eqb].
    rewrite register_getitem by lia. cbn [mbind res_bind].
    rewrite (for_each_emits _ _ (λ i, [CX (mkQubit "input" i) (mkQubit "output" 0)])).
    + rewrite append_extend, extend_extend. eauto.
    + intros i qc' Hi. unfold range2 in Hi. apply elem_of_seqZ in Hi.
      rewrite register_getitem by lia. reflexivity.
  - destruct (Hcustom Hty) as (s & Hs & Hslen & _).
    exists (custom_oracle_gates s (QuantumRegister (n_qubits self) "input")
              (mkQubit "output" 0)).
    unfold _create_oracle, custom_oracle_gates. rewrite Hty, Hs.
    cbn [String.eqb Ascii.eqb Bool.eqb].
    apply for_each_emits. intros i qc' Hi. apply range_elem in Hi.
    rewrite Hlen in Hi.
    apply custom_term_emits; rewrite ?Hlen; [exact Hslen|exact Hi|lia].
Qed.

End ConfigurationLemmas.

Section ConfigurationClaims.

Import DeutschJozsa.

Lemma run_circuit_succeeds (self : DeutschJozsaAlgorithm) :
  valid_config self → ∃ qc, run_circuit self = Val qc.
Proof.
  intros Hv. pose proof Hv as (Hn & _). unfold run_circuit.
  rewrite (register_getitem 1 "output" 0) by lia. cbn [mbind res_bind].
  rewrite hadamard_loop_emits. cbn [mbind res_bind].
  destruct (create_oracle_succeeds self
              (append (H (mkQubit "output" 0))
                 (extend (append (X (mkQubit "output" 0))
                            (mkCircuit [QuantumRegister (n_qubits self) "input";
                                        QuantumRegister 1 "output"]
                               [ClassicalRegister (n_qubits self) "c"] []))
                    ((λ i, H (mkQubit "input" i)) <$> range (n_qubits self))))
              Hv) as [gates Hg].
  rewrite Hg. cbn [mbind res_bind].
  rewrite hadamard_loop_emits. cbn [mbind res_bind]. eauto.
Qed.

Lemma run_unfold (self : DeutschJozsaAlgorithm) (counts : gmap string Z)
    (qc : QuantumCircuit) :
  run_circuit self = Val qc → run self counts = ([qc], interpret self counts).
Proof.
  intros Hqc. unfold run. rewrite Hqc. cbn.
  destruct (interpret self counts); reflexivity.
Qed.

Lemma half_of_pow2 (n : Z) : 1 ≤ n → 2 ^ n / 2 = 2 ^ (n - 1).
Proof.
  intros Hn. replace n with (Z.succ (n - 1)) at 1 by lia.
  rewrite Z.pow_succ_r by lia. rewrite Z.mul_comm, Z.div_mul by lia. reflexivity.
Qed.


Lemma str_all_app (p : ascii → bool) (s1 s2 : string) :
  str_all p (s1 +:+ s2) = str_all p s1 && str_all p s2.
Proof.
  induction s1 as [|c s1 IH]; [reflexivity|].
  change (String c s1 +:+ s2) with (String c (s1 +:+ s2)).
  cbn [str_all]. rewrite IH, andb_assoc. reflexivity.
Qed.

Lemma str_all_mul (p : ascii → bool) (c : ascii) (k : nat) :
  p c = true → str_all p (str_mul_nat (String c EmptyString) k) = true.
Proof.
  intros Hc. induction k as [|k IH]; [reflexivity|].
  change (str_mul_nat (String c EmptyString) (S k))
    with (String c (str_mul_nat (String c EmptyString) k)).
  cbn [str_all]. rewrite Hc, IH. reflexivity.
Qed.


(** C3 (in the exact range of binary64). For a valid configuration with
    fewer than [2^53] shots and any counts mapping, [run] answers
    ["constant"] exactly when the count of the all-zero [n]-bit string
    strictly exceeds [shots/2], and ["balanced"] in every other case, the
    absence of the all-zero string included. *)
Theorem run_majority_rule (self : DeutschJozsaAlgorithm) (counts : gmap string Z) :
  valid_config self →
  shots self < 2 ^ 53 →
  ((run self counts).2 = Val "constant"
   ↔ ∃ c, counts !! str_mul "0" (n_qubits self) = Some c ∧ shots self < 2 * c) ∧
  ((run self counts).2 = Val "balanced"
   ↔ ¬ ∃ c, counts !! str_mul "0" (n_qubits self) = Some c ∧ shots self < 2 * c).
Proof.
  intros Hv Hs. destruct (run_circuit_succeeds self Hv) as [qc Hqc].
  rewrite (run_unfold self counts qc Hqc). cbn [snd].
  destruct Hv as (_ & _ & _ & Hpos & _).
  rewrite interpret_exact_range by lia.
  destruct (counts !! str_mul "0" (n_qubits self)) as [c|].
  - destruct (decide (shots self < 2 * c)) as [Hlt|Hge].
    + split; split; intros Hyp.
      * eauto.
      * reflexivity.
      * discriminate.
      * exfalso. apply Hyp. eauto.
    + split; split; intros Hyp.
      * discriminate.
      * destruct Hyp as (c' & [= <-] & Hlt). lia.
      * intros (c' & [= <-] & Hlt). lia.
      * reflexivity.
  - split; split; intros Hyp.
    + discriminate.
    + destruct Hyp as (c' & Hc & _). discriminate.
    + intros (c' & Hc & _). discriminate.
    + reflexivity.
Qed.

Lemma run_majority_rule_witness :
  (run (mkDJ 2 "constant" 1 None 1024) {[ "00" := 1000; "01" := 24 ]}).2
  = Val "constant".
Proof.
  apply (run_majority_rule (mkDJ 2 "constant" 1 None 1024)
           {[ "00" := 1000; "01" := 24 ]}).
  - repeat split; cbn; try lia.
    + apply list_elem_of_In. cbn. tauto.
    + apply list_elem_of_In. cbn. tauto.
    + discriminate.
  - cbn. lia.
  - exists 1000. split; [reflexivity|cbn; lia].
Defined.

(** Beyond [2^53] shots the binary64 quotient [shots / 2] is rounded and
    the rule of C3 fails: with [2^53 + 3] shots and [2^52 + 2] all-zero
    outcomes the count exceeds [shots/2] and [run] answers ["balanced"]. *)
Lemma run_majority_rule_counterexample :
  let self := mkDJ 2 "constant" 0 None 9007199254740995 in
  let counts : gmap string Z :=
    {[ "00" := 4503599627370498; "01" := 4503599627370497 ]} in
  valid_config self ∧
  counts !! str_mul "0" (n_qubits self) = Some 4503599627370498 ∧
  shots self < 2 * 4503599627370498 ∧
  truediv (shots self) 2 = Val (inject_Z 4503599627370498) ∧
  (run self counts).2 = Val "balanced" ∧
  ¬ ((run self counts).2 = Val "constant"
     ↔ ∃ c, counts !! str_mul "0" (n_qubits self) = Some c ∧ shots self < 2 * c).
Proof.
  cbv zeta.
  assert (Hrun : (run (mkDJ 2 "constant" 0 None 9007199254740995)
                    {[ "00" := 4503599627370498;
                       "01" := 4503599627370497 ]}).2 = Val "balanced")
    by (vm_compute; reflexivity).
  split; [|split; [reflexivity|split; [cbn; lia|split; [vm_compute; reflexivity|]]]].
  - repeat split; cbn; try lia.
    + apply list_elem_of_In. cbn. tauto.
    + apply list_elem_of_In. cbn. tauto.
    + discriminate.
  - split; [exact Hrun|]. intros [_ Hback].
    rewrite Hback in Hrun; [discriminate|].
    exists 4503599627370498. split; [reflexivity|cbn; lia].
Qed.

(** C5. [validate_oracle] answers ["constant"] for a Constant spec,
    ["balanced"] for a Balanced spec, and for a Custom bitstring of length
    [2^n]: ["constant"] when the number of ['1'] is 0 or [2^n], ["balanced"]
    when it is [2^(n-1)], and otherwise the ["neither"] text that reports
    the number of ['1'] and the number of ['0']. *)
Theorem validate_oracle_categories (self : DeutschJozsaAlgorithm) :
  (oracle_type self = "constant" → validate_oracle self = Val (Some "constant")) ∧
  (oracle_type self = "balanced" → validate_oracle self = Val (Some "balanced")) ∧
  (∀ s, oracle_type self = "custom" →
        custom_bitstring self = Some s →
        1 ≤ n_qubits self →
        str_len s = 2 ^ n_qubits self →
        str_all is_bit s = true →
        let ones := str_count "1" s in
        let zeros := str_count "0" s in
        validate_oracle self =
          Val (Some (if decide (ones = 0 ∨ ones = 2 ^ n_qubits self) then "constant"
                     else if decide (ones = 2 ^ (n_qubits self - 1)) then "balanced"
                     else "neither (ones: " +:+ str ones +:+ ", zeros: "
                          +:+ str zeros +:+ ")"))).
Proof.
  split; [|split].
  - unfold validate_oracle. intros ->. reflexivity.
  - unfold validate_oracle. intros ->. reflexivity.
  - intros s Hty Hs Hn Hlen Hbits ones zeros. unfold validate_oracle.
    rewrite Hty, Hs.
    cbn [String.eqb Ascii.eqb Bool.eqb mbind res_bind].
    fold ones. rewrite Hlen, half_of_pow2 by lia.
    assert (Hz : 2 ^ n_qubits self - ones = zeros).
    { rewrite <- Hlen. apply str_count_bits, Hbits. }
    rewrite Hz.
    destruct (ones =? 0) eqn:H0; cbn [orb].
    { apply Z.eqb_eq in H0. rewrite decide_True by (left; exact H0). reflexivity. }
    destruct (ones =? 2 ^ n_qubits self) eqn:H1.
    { apply Z.eqb_eq in H1. rewrite decide_True by (right; exact H1). reflexivity. }
    apply Z.eqb_neq in H0, H1. rewrite decide_False by tauto.
    destruct (ones =? 2 ^ (n_qubits self - 1)) eqn:H2.
    + apply Z.eqb_eq in H2. rewrite decide_True by exact H2. reflexivity.
    + apply Z.eqb_neq in H2. rewrite decide_False by exact H2. reflexivity.
Qed.

Lemma validate_oracle_categories_witness :
  validate_oracle (mkDJ 2 "custom" 0 (Some "0111") 1024)
  = Val (Some "neither (ones: 3, zeros: 1)") ∧
  validate_oracle (mkDJ 2 "custom" 0 (Some "0110") 1024)
  = Val (Some "balanced") ∧
  validate_oracle (mkDJ 2 "balanced" 0 None 1024) = Val (Some "balanced").
Proof.
  split; [|split].
  - destruct (validate_oracle_categories (mkDJ 2 "custom" 0 (Some "0111") 1024))
      as (_ & _ & Hc).
    exact (Hc "0111" eq_refl eq_refl ltac:(cbn; lia) eq_refl eq_refl).
  - destruct (validate_oracle_categories (mkDJ 2 "custom" 0 (Some "0110") 1024))
      as (_ & _ & Hc).
    exact (Hc "0110" eq_refl eq_refl ltac:(cbn; lia) eq_refl eq_refl).
  - destruct (validate_oracle_categories (mkDJ 2 "balanced" 0 None 1024))
      as (_ & Hb & _).
    exact (Hb eq_refl).
Defined.



(** C9. [run] builds the circuit that [get_circuit] returns: the two
    constructions agree on every configuration, and on a valid one both
    succeed and the circuit that [run] hands to the simulator is the one of
    [get_circuit], with the same registers, instructions and measurements. *)
Theorem run_submits_get_circuit (self : DeutschJozsaAlgorithm)
    (counts : gmap string Z) :
  run_circuit self = get_circuit self ∧
  (valid_config self →
   ∃ qc, get_circuit self = Val qc ∧
         run self counts = ([qc], interpret self counts)).
Proof.
  split; [reflexivity|]. intros Hv.
  destruct (run_circuit_succeeds self Hv) as [qc Hqc].
  exists qc. split; [exact Hqc|]. apply run_unfold, Hqc.
Qed.

Lemma run_submits_get_circuit_witness :
  ∃ qc, get_circuit (mkDJ 2 "custom" 0 (Some "0110") 1024) = Val qc ∧
        (run (mkDJ 2 "custom" 0 (Some "0110") 1024) ∅).1 = [qc].
Proof.
  destruct (run_submits_get_circuit (mkDJ 2 "custom" 0 (Some "0110") 1024) ∅)
    as [_ Hrun].
  destruct Hrun as (qc & Hget & Hrun).
  - repeat split; cbn; try lia.
    + apply list_elem_of_In. cbn. tauto.
    + apply list_elem_of_In. cbn. tauto.
    + intros _. exists "0110". repeat split.
  - exists qc. split; [exact Hget|]. rewrite Hrun. reflexivity.
Defined.

End ConfigurationClaims.

(** ** Shor: the inverse quantum Fourier transform *)

Section InverseQFT.

Import Shor.

Variable qubits : list Qubit.

Local Abbreviation m := (Z.of_nat (length qubits)).

Lemma swap_loop_emits (qc : QuantumCircuit) :
  for_each (range (m / 2)) (λ i qc,
    a ← getitem qubits i;
    b ← getitem qubits (- (i + 1));
    Val (append (SWAP a b) qc)) qc
  = Val (extend qc (iqft_swaps qubits)).
Proof.
  unfold iqft_swaps. rewrite <- flat_map_singleton.
  apply for_each_emits. intros i qc' Hi. apply range_elem in Hi.
  assert (Hm : 0 ≤ m) by lia.
  assert (Hhalf : m / 2 * 2 ≤ m)
    by (pose proof (Z.mul_div_le m 2); lia).
  rewrite (getitem_nonneg qubits i) by lia. cbn.
  rewrite (getitem_negative qubits (- (i + 1))) by lia. cbn.
  replace (m + - (i + 1)) with (m - 1 - i) by lia. reflexivity.
Qed.

Lemma rotation_loop_emits (j : Z) (qc : QuantumCircuit) :
  0 ≤ j < m → j ≤ 1023 →
  (qc ← for_each (range j) (λ k qc,
           d ← float_of_int (2 ^ (j - k));
           c ← getitem qubits k;
           t ← getitem qubits j;
           Val (append (CP (NegPiOver d) c t) qc)) qc;
   t ← getitem qubits j;
   Val (append (H t) qc))
  = Val (extend qc (iqft_rotations qubits j)).
Proof.
  intros Hj Hj'. unfold iqft_rotations. rewrite <- flat_map_singleton.
  rewrite (for_each_emits (range j) _
             (λ k, [CP (neg_pi_over_pow2 (j - k)) (qubit_at qubits k)
                       (qubit_at qubits j)])).
  - cbn [mbind res_bind].
    rewrite (getitem_nonneg qubits j) by lia. cbn [mbind res_bind].
    rewrite append_extend, extend_extend. reflexivity.
  - intros k qc' Hk. apply range_elem in Hk.
    rewrite float_of_int_pow2 by lia. cbn.
    rewrite (getitem_nonneg qubits k), (getitem_nonneg qubits j)
      by lia.
    reflexivity.
Qed.

Lemma apply_qft_inverse_overflows (qc : QuantumCircuit) :
  1025 ≤ m → _apply_qft_inverse qc qubits = Raise OverflowError.
Proof.
  intros Hm. unfold _apply_qft_inverse.
  rewrite swap_loop_emits. cbn [mbind res_bind].
  assert (Hsplit : range m = range 1024 ++ 1024 :: seqZ 1025 (m - 1025)).
  { unfold range. transitivity (seqZ 0 (1024 + (m - 1024))); [f_equal; lia|].
    rewrite seqZ_app by lia. f_equal.
    rewrite (seqZ_cons (0 + 1024)) by lia. f_equal. f_equal; lia. }
  rewrite Hsplit, for_each_app.
  rewrite (for_each_emits (range 1024) _ (iqft_rotations qubits)).
  - cbn [mbind res_bind for_each].
    unfold range. rewrite (seqZ_cons 0 1024) by lia. cbn [for_each].
    change (2 ^ (1024 - 0)) with (2 ^ 1024).
    rewrite float_of_int_pow2_overflow. reflexivity.
  - intros j qc' Hj. apply range_elem in Hj.
    apply rotation_loop_emits; lia.
Qed.

End InverseQFT.

(** ** Shor: classical post-processing *)

Section PostProcessing.

Import Shor.

Lemma unsigned_value_bounds (s : string) :
  0 ≤ unsigned_value s < 2 ^ Z.of_nat (String.length s).
Proof.
  induction s as [|c s IH]; [cbn; lia|].
  cbn [unsigned_value String.length]. rewrite Nat2Z.inj_succ, Z.pow_succ_r by lia.
  destruct (Ascii.eqb c "1"); lia.
Qed.

(** [int(s, 2)] accumulates the digits from the left; the result is the
    positional value. *)
Lemma int2_digits_value (s : string) (acc : Z) :
  str_all DeutschJozsa.is_bit s = true →
  int2_digits acc s = Val (acc * 2 ^ Z.of_nat (String.length s) + unsigned_value s).
Proof.
  revert acc. induction s as [|c s IH]; intros acc Hbits.
  - cbn. f_equal. lia.
  - cbn [str_all] in Hbits. apply andb_true_iff in Hbits as [Hc Hs].
    cbn [int2_digits unsigned_value String.length].
    rewrite Nat2Z.inj_succ, Z.pow_succ_r by lia.
    unfold DeutschJozsa.is_bit in Hc. apply orb_true_iff in Hc as [Hc|Hc];
      apply Ascii.eqb_eq in Hc; subst c; cbn [Ascii.eqb Bool.eqb andb];
      rewrite IH by exact Hs; f_equal; lia.
Qed.

Lemma int2_value (s : string) :
  str_all DeutschJozsa.is_bit s = true → (0 < String.length s)%nat →
  int2 s = Val (unsigned_value s).
Proof.
  intros Hbits Hlen. destruct s as [|c s]; [cbn in Hlen; lia|].
  unfold int2. rewrite int2_digits_value by exact Hbits. reflexivity.
Qed.

Lemma best_approximation_Qred (M : Z) (y : Q) (p q : Z) :
  best_approximation M (Qred y) p q → best_approximation M y p q.
Proof.
  intros [Hq Hbest]. split; [exact Hq|]. intros u v Hv.
  specialize (Hbest u v Hv). rewrite !Qred_correct in Hbest. exact Hbest.
Qed.

(** For every width: the candidate period is the denominator of a best
    approximation of the binary64 value of the phase. *)
Lemma post_processing_binary64 (self : ShorsAlgorithm) (measurement : string) :
  1 ≤ N self →
  1 ≤ n self →
  str_len measurement = 2 * n self →
  str_all DeutschJozsa.is_bit measurement = true →
  ∃ phase r,
    truediv (unsigned_value measurement) (2 ^ (2 * n self)) = Val phase ∧
    _classical_post_processing self measurement = Val r ∧
    best_denominator (N self) phase r.
Proof.
  intros HN Hn Hlen Hbits. unfold _classical_post_processing.
  unfold str_len in Hlen.
  rewrite int2_value by (assumption || lia). cbn [mbind res_bind].
  pose proof (unsigned_value_bounds measurement) as Hm. rewrite Hlen in Hm.
  destruct (truediv_unit (unsigned_value measurement) (2 * n self) Hm ltac:(lia))
    as (phase & Hphase & Hred & Hnn).
  rewrite Hphase. cbn [mbind res_bind]. unfold from_float. rewrite Hred.
  destruct (limit_denominator_best phase (N self) Hred Hnn HN)
    as (r & Hr & Hg & Hbest).
  rewrite Hr. cbn [mbind res_bind]. exists phase. eexists.
  split; [reflexivity|]. split; [reflexivity|].
  exists (numerator r). split; [exact Hg|exact Hbest].
Qed.

Lemma init_bit_length (N0 shots0 : Z) (self : ShorsAlgorithm) :
  __init__ N0 shots0 = Val self → N self = N0 ∧ n self = Z.log2 N0 + 1.
Proof.
  unfold __init__. destruct (N0 <=? 1) eqn:HN; [discriminate|].
  destruct (shots0 <=? 0); [discriminate|]. intros [= <-].
  split; [reflexivity|]. apply Z.leb_gt in HN.
  change (str_len (str_drop 2 (bin N0)) = Z.log2 N0 + 1).
  unfold bin. replace (N0 <? 0) with false by (symmetry; apply Z.ltb_ge; lia).
  change (str_drop 2 ("0b" +:+ bin_digits N0)) with (bin_digits N0).
  destruct (bin_digits_bounds N0 ltac:(lia)) as (Hpos & Hub & Hlb).
  specialize (Hlb ltac:(lia)). unfold str_len.
  symmetry. apply Z.add_move_r. apply Z.log2_unique; [lia|].
  replace (Z.succ (Z.of_nat (String.length (bin_digits N0)) - 1))
    with (Z.of_nat (String.length (bin_digits N0))) by lia.
  lia.
Qed.

End PostProcessing.

(** ** The factor loop *)

Section FactorLoop.

Import Shor.

Variable self : ShorsAlgorithm.

Lemma gcd_times_quotient (a : Z) :
  Z.gcd a (N self) * (N self / Z.gcd a (N self)) = N self.
Proof.
  destruct (Z.gcd_divide_r a (N self)) as [k Hk].
  destruct (Z.eq_dec (Z.gcd a (N self)) 0) as [H0|H0].
  - rewrite H0 in Hk |- *. lia.
  - rewrite Hk at 2. rewrite Z.div_mul by exact H0. lia.
Qed.

(** The quantum path of one pass, once the measurement and the period
    candidate are known. *)
Lemma attempt_quantum_path (a : Z) (counts : Counts) (qc : QuantumCircuit)
    (m : string) (r : Z) :
  Z.gcd a (N self) = 1 →
  period_circuit self a = Val qc →
  max_key counts = Val m →
  _classical_post_processing self m = Val r →
  attempt self a counts =
    ([qc],
     Val (if negb (r mod 2 =? 0) then Again
          else
            let x := pow_mod a (r / 2) (N self) in
            if negb (Z.gcd (x + 1) (N self) * Z.gcd (x - 1) (N self) =? N self)
            then Again
            else Return (Z.gcd (x + 1) (N self), Z.gcd (x - 1) (N self)))).
Proof.
  intros Hg Hqc Hm Hr. unfold attempt, _quantum_period_finding.
  rewrite Hg, Hqc, Hm. cbn. rewrite Hr. cbn.
  destruct (r mod 2 =? 0); cbn; [|reflexivity].
  destruct (_ =? N self); reflexivity.
Qed.

Lemma attempt_return_product (a : Z) (counts : Counts) (log : list QuantumCircuit)
    (p q : Z) :
  attempt self a counts = (log, Val (Return (p, q))) → p * q = N self.
Proof.
  unfold attempt. destruct (Z.gcd a (N self) =? 1) eqn:Hg; cbn.
  - unfold _quantum_period_finding.
    destruct (period_circuit self a) as [qc| |]; cbn; try discriminate.
    destruct (max_key counts) as [m| |]; cbn; try discriminate.
    destruct (_classical_post_processing self m) as [r| |]; cbn; try discriminate.
    destruct (r mod 2 =? 0); cbn; try discriminate.
    destruct (_ =? N self) eqn:Hprod; cbn; try discriminate.
    intros [= <- <- <-]. lia.
  - intros [= <- <- <-]. apply gcd_times_quotient.
Qed.

Lemma factor_return_product (env : list (Z * Counts)) (log : list QuantumCircuit)
    (p q : Z) :
  factor self env = (log, Val (p, q)) → p * q = N self.
Proof.
  revert log. induction env as [|[a counts] env IH]; intros log; cbn.
  - destruct (N self mod 2 =? 0) eqn:He; cbn; [|discriminate].
    intros [= <- <- <-]. apply Z.eqb_eq in He.
    pose proof (Z.div_mod (N self) 2). lia.
  - destruct (N self mod 2 =? 0) eqn:He; cbn.
    + intros [= <- <- <-]. apply Z.eqb_eq in He.
      pose proof (Z.div_mod (N self) 2). lia.
    + destruct (attempt self a counts) as [log1 [[[p1 q1]|]| |]] eqn:Ha; cbn;
        try discriminate.
      * intros [= <- <- <-]. eapply attempt_return_product, Ha.
      * destruct (factor self env) as [log2 r2] eqn:Hf.
        intros [= <- ->]. eapply IH. reflexivity.
Qed.

Lemma factor_odd_unfold (a : Z) (counts : Counts) (env : list (Z * Counts)) :
  N self mod 2 ≠ 0 →
  factor self ((a, counts) :: env) =
    (s ← attempt self a counts;
     match s with
     | Return factors => mret factors
     | Again => factor self env
     end).
Proof. intros Ho. cbn. apply Z.eqb_neq in Ho. rewrite Ho. reflexivity. Qed.

End FactorLoop.

(** ** Claims on the factor loop *)

Section FactorClaims.

Import Shor.

(** C1. Every pair that [factor] returns multiplies to [N]: for every
    object and every sequence of draws and measurements, on any path (even
    [N], the gcd exit, the quantum path, after any number of retries), with
    no assumption.  On the quantum path (odd [N > 1], base [a] coprime to
    [N], measurement [m], candidate period [r]), the pass ends in a retry
    exactly when [r] is odd or [gcd(x+1, N) * gcd(x-1, N)] differs from [N],
    where [x = a^(r/2) mod N]; a retry re-runs [factor] on the remaining
    draws; without retry the call returns [(gcd(x+1, N), gcd(x-1, N))]. *)
Theorem factor_retry_and_result (self : ShorsAlgorithm) :
  (∀ (env : list (Z * Counts)) (log : list QuantumCircuit) (p q : Z),
     factor self env = (log, Val (p, q)) → p * q = N self) ∧
  (∀ (a : Z) (counts : Counts) (env : list (Z * Counts)) (qc : QuantumCircuit)
     (m : string) (r : Z),
     1 < N self →
     N self mod 2 ≠ 0 →
     Z.gcd a (N self) = 1 →
     period_circuit self a = Val qc →
     max_key counts = Val m →
     _classical_post_processing self m = Val r →
     let x := pow_mod a (r / 2) (N self) in
     let factor1 := Z.gcd (x + 1) (N self) in
     let factor2 := Z.gcd (x - 1) (N self) in
     (attempt self a counts = ([qc], Val Again)
      ↔ (r mod 2 ≠ 0 ∨ factor1 * factor2 ≠ N self)) ∧
     (attempt self a counts = ([qc], Val Again) →
      factor self ((a, counts) :: env)
      = ([qc] ++ (factor self env).1, (factor self env).2)) ∧
     (¬ (r mod 2 ≠ 0 ∨ factor1 * factor2 ≠ N self) →
      factor self ((a, counts) :: env) = ([qc], Val (factor1, factor2)))).
Proof.
  split; [intros env log p q; apply factor_return_product|].
  intros a counts env qc m r HN Ho Hg Hqc Hm Hr x factor1 factor2.
  pose proof (attempt_quantum_path self a counts qc m r Hg Hqc Hm Hr) as Ha.
  subst x factor1 factor2. cbv zeta in Ha.
  set (prod_ok := Z.gcd _ _ * Z.gcd _ _ =? N self) in Ha.
  assert (Hprod_ok : prod_ok = true ↔
    Z.gcd (pow_mod a (r / 2) (N self) + 1) (N self)
    * Z.gcd (pow_mod a (r / 2) (N self) - 1) (N self) = N self)
    by apply Z.eqb_eq.
  assert (Hpar : (r mod 2 =? 0) = true ↔ r mod 2 = 0) by apply Z.eqb_eq.
  repeat split.
  - rewrite Ha. intros [= Hs].
    destruct (r mod 2 =? 0); cbn in Hs.
    + destruct prod_ok; cbn in Hs; [discriminate|].
      right. intros Hc. apply Hprod_ok in Hc. discriminate.
    + left. intros Hc. apply Hpar in Hc. discriminate.
  - rewrite Ha. intros [Hodd|Hprod].
    + destruct (r mod 2 =? 0); [|reflexivity].
      exfalso. apply Hodd, Hpar. reflexivity.
    + destruct prod_ok.
      * exfalso. apply Hprod, Hprod_ok. reflexivity.
      * destruct (r mod 2 =? 0); reflexivity.
  - intros Hag. rewrite factor_odd_unfold by exact Ho. rewrite Hag. cbn.
    destruct (factor self env); reflexivity.
  - intros Hgood. rewrite factor_odd_unfold by exact Ho. rewrite Ha.
    destruct (r mod 2 =? 0); cbn.
    + destruct prod_ok; cbn; [reflexivity|].
      exfalso. apply Hgood. right. intros Hc. apply Hprod_ok in Hc. discriminate.
    + exfalso. apply Hgood. left. intros Hc. apply Hpar in Hc. discriminate.
Qed.

(** At [N = 15] with the draw [a = 7] and the measurement [01000000] the
    call returns [(5, 3)]; at the even [N = 12] it returns [(2, 6)]; both
    pairs multiply to [N]. *)
Lemma factor_retry_and_result_witness :
  (factor (mkShor 15 100 4) [(7, [("01000000", 60); ("11000000", 40)])]).2
  = Val (5, 3)
  ∧ 5 * 3 = N (mkShor 15 100 4)
  ∧ factor (mkShor 12 100 4) [] = ([], Val (2, 6))
  ∧ 2 * 6 = N (mkShor 12 100 4).
Proof.
  destruct (period_circuit (mkShor 15 100 4) 7) as [qc| |] eqn:Hqc;
    [|vm_compute in Hqc; discriminate..].
  destruct (factor_retry_and_result (mkShor 15 100 4)) as [Hprod Hpass].
  destruct (Hpass 7 [("01000000", 60); ("11000000", 40)] [] qc "01000000" 4
              ltac:(cbn; lia) ltac:(vm_compute; discriminate)
              ltac:(reflexivity) Hqc ltac:(reflexivity)
              ltac:(vm_compute; reflexivity)) as (_ & _ & Hret).
  assert (Hgood : factor (mkShor 15 100 4)
                    [(7, [("01000000", 60); ("11000000", 40)])]
                  = ([qc], Val (5, 3))).
  { refine (Hret _). vm_compute. intros [Hc|Hc]; apply Hc; reflexivity. }
  split; [exact (f_equal snd Hgood)|].
  split; [exact (Hprod _ _ 5 3 Hgood)|].
  assert (Heven : factor (mkShor 12 100 4) [] = ([], Val (2, 6)))
    by reflexivity.
  split; [exact Heven|].
  exact (proj1 (factor_retry_and_result (mkShor 12 100 4)) _ _ 2 6 Heven).
Defined.

(** C7. For every even [N > 1], [factor] returns [(2, N/2)] at once, with
    no draw and no circuit (so [factor(2)] is [(2, 1)]); for every odd [N]
    and drawn base [a] in [[2, N-1]] with [g = gcd(a, N)] different from 1,
    it returns [(g, N/g)] with no circuit built. *)
Theorem factor_short_circuits (self : ShorsAlgorithm) (a : Z) (counts : Counts)
    (env : list (Z * Counts)) :
  1 < N self →
  (N self mod 2 = 0 → factor self env = ([], Val (2, N self / 2))) ∧
  (∀ shots, 0 < shots → factor_number 2 shots env = ([], Val (2, 1))) ∧
  (N self mod 2 ≠ 0 → 2 ≤ a ≤ N self - 1 → Z.gcd a (N self) ≠ 1 →
   factor self ((a, counts) :: env)
   = ([], Val (Z.gcd a (N self), N self / Z.gcd a (N self)))).
Proof.
  intros HN. repeat split.
  - intros He. apply Z.eqb_eq in He.
    destruct env as [|[a' c'] env']; cbn; rewrite He; reflexivity.
  - intros shots Hs. unfold factor_number, __init__.
    replace (2 <=? 1) with false by reflexivity.
    apply Z.leb_gt in Hs. rewrite Hs. cbn.
    destruct env as [|[a' c'] env']; reflexivity.
  - intros Ho Ha Hg. rewrite factor_odd_unfold by exact Ho.
    unfold attempt. apply Z.eqb_neq in Hg. rewrite Hg. reflexivity.
Qed.

Lemma factor_short_circuits_witness :
  factor (mkShor 21 100 5) [(3, [])] = ([], Val (3, 7)) ∧
  factor (mkShor 2 100 2) [] = ([], Val (2, 1)).
Proof.
  split.
  - destruct (factor_short_circuits (mkShor 21 100 5) 3 [] []
                ltac:(cbn; lia)) as (_ & _ & Hgcd).
    apply Hgcd.
    + vm_compute; discriminate.
    + cbn; lia.
    + vm_compute; discriminate.
  - destruct (factor_short_circuits (mkShor 2 100 2) 0 [] []
                ltac:(cbn; lia)) as (Heven & _ & _).
    exact (Heven eq_refl).
Defined.

(** C10. The test [factor1 * factor2 == N] accepts trivial pairs: for odd
    [N > 1], when the candidate period [r] is even and [x = a^(r/2) mod N]
    is 1 the call returns [(1, N)], and when [x] is [N - 1] it returns
    [(N, 1)]. *)
Theorem factor_accepts_trivial_pairs (self : ShorsAlgorithm) (a : Z)
    (counts : Counts) (env : list (Z * Counts)) (qc : QuantumCircuit)
    (m : string) (r : Z) :
  1 < N self →
  N self mod 2 ≠ 0 →
  Z.gcd a (N self) = 1 →
  period_circuit self a = Val qc →
  max_key counts = Val m →
  _classical_post_processing self m = Val r →
  r mod 2 = 0 →
  (pow_mod a (r / 2) (N self) = 1 →
   factor self ((a, counts) :: env) = ([qc], Val (1, N self))) ∧
  (pow_mod a (r / 2) (N self) = N self - 1 →
   factor self ((a, counts) :: env) = ([qc], Val (N self, 1))).
Proof.
  intros HN Ho Hg Hqc Hm Hr Hpar.
  pose proof (attempt_quantum_path self a counts qc m r Hg Hqc Hm Hr) as Ha.
  apply Z.eqb_eq in Hpar. rewrite Hpar in Ha. cbn [negb] in Ha.
  assert (H2 : Z.gcd 2 (N self) = 1).
  { pose proof (Z.gcd_nonneg 2 (N self)) as Hnn.
    destruct (Z.gcd_divide_l 2 (N self)) as [k Hk].
    destruct (Z.gcd_divide_r 2 (N self)) as [k' Hk'].
    assert (Hle : Z.gcd 2 (N self) ≤ 2).
    { apply Z.divide_pos_le; [lia|]. exists k. exact Hk. }
    assert (Hne0 : Z.gcd 2 (N self) ≠ 0) by (intros H0; rewrite H0 in Hk; lia).
    assert (Hne2 : Z.gcd 2 (N self) ≠ 2).
    { intros H2'. rewrite H2' in Hk'. apply Ho. rewrite Hk'.
      apply Z.mod_mul. lia. }
    lia. }
  split; intros Hx; rewrite factor_odd_unfold by exact Ho; rewrite Ha;
    cbv zeta; rewrite Hx.
  - replace (1 + 1) with 2 by lia. replace (1 - 1) with 0 by lia.
    rewrite H2, Z.gcd_0_l, Z.abs_eq by lia.
    replace (1 * N self =? N self) with true by (symmetry; apply Z.eqb_eq; lia).
    reflexivity.
  - replace (N self - 1 + 1) with (N self) by lia.
    rewrite Z.gcd_diag, Z.abs_eq by lia.
    assert (Hm2 : Z.gcd (N self - 1 - 1) (N self) = 1).
    { pose proof (Z.gcd_nonneg (N self - 1 - 1) (N self)) as Hnn.
      assert (Hd : (Z.gcd (N self - 1 - 1) (N self) | Z.gcd 2 (N self))).
      { apply Z.gcd_greatest; [|apply Z.gcd_divide_r].
        destruct (Z.gcd_divide_l (N self - 1 - 1) (N self)) as [k1 Hk1].
        destruct (Z.gcd_divide_r (N self - 1 - 1) (N self)) as [k2 Hk2].
        exists (k2 - k1). lia. }
      rewrite H2 in Hd. apply Z.divide_1_r_nonneg; assumption. }
    rewrite Hm2.
    replace (N self * 1 =? N self) with true by (symmetry; apply Z.eqb_eq; lia).
    reflexivity.
Qed.

Lemma factor_accepts_trivial_pairs_witness :
  (factor (mkShor 15 100 4) [(4, [("01000000", 60); ("11000000", 40)])]).2
  = Val (1, 15) ∧
  (factor (mkShor 15 100 4) [(14, [("10000000", 60); ("11000000", 40)])]).2
  = Val (15, 1).
Proof.
  split.
  - destruct (period_circuit (mkShor 15 100 4) 4) as [qc| |] eqn:Hqc;
      [|vm_compute in Hqc; discriminate..].
    pose proof (factor_accepts_trivial_pairs (mkShor 15 100 4) 4
                  [("01000000", 60); ("11000000", 40)] [] qc "01000000" 4
                  ltac:(cbn; lia) ltac:(vm_compute; discriminate)
                  ltac:(reflexivity) Hqc ltac:(reflexivity)
                  ltac:(vm_compute; reflexivity) ltac:(reflexivity))
      as [Hone _].
    exact (f_equal snd (Hone eq_refl)).
  - destruct (period_circuit (mkShor 15 100 4) 14) as [qc| |] eqn:Hqc;
      [|vm_compute in Hqc; discriminate..].
    pose proof (factor_accepts_trivial_pairs (mkShor 15 100 4) 14
                  [("10000000", 60); ("11000000", 40)] [] qc "10000000" 2
                  ltac:(cbn; lia) ltac:(vm_compute; discriminate)
                  ltac:(reflexivity) Hqc ltac:(reflexivity)
                  ltac:(vm_compute; reflexivity) ltac:(reflexivity))
      as [_ Hminus].
    exact (f_equal snd (Hminus eq_refl)).
Defined.

End FactorClaims.

(** ** Claims on the period-finding pipeline *)

Section PeriodClaims.

Import Shor.

(** C2 (within the precision of binary64). For every measured bitstring of
    width [2n] with [2n <= 53] and every [N > 1], [measurementToPeriod]
    ([_classical_post_processing]) returns the denominator of a best
    rational approximation, of denominator at most [N], of the fraction
    (bitstring read as an unsigned integer) [/ 2^(2n)]; for [N = 15]
    ([n = 4]) and the measurement of phase 1/4 over 8 bits it returns 4. *)
Theorem measurement_to_period_best_denominator (self : ShorsAlgorithm)
    (measurement : string) :
  1 < N self →
  1 ≤ n self →
  2 * n self ≤ 53 →
  str_len measurement = 2 * n self →
  str_all DeutschJozsa.is_bit measurement = true →
  (∃ r, _classical_post_processing self measurement = Val r ∧
        best_denominator (N self)
          (unsigned_value measurement # Z.to_pos (2 ^ (2 * n self))) r) ∧
  (∀ shots0 shor, __init__ 15 shots0 = Val shor →
     n shor = 4 ∧
     (unsigned_value "01000000" # Z.to_pos (2 ^ (2 * n shor)) == 1 # 4)%Q ∧
     _classical_post_processing shor "01000000" = Val 4).
Proof.
  intros HN Hn H53 Hlen Hbits. split.
  - unfold _classical_post_processing. unfold str_len in Hlen.
    rewrite int2_value by (assumption || lia). cbn [mbind res_bind].
    pose proof (unsigned_value_bounds measurement) as Hm. rewrite Hlen in Hm.
    assert (Hpow : 2 ^ (2 * n self) ≤ 2 ^ 53) by (apply Z.pow_le_mono_r; lia).
    rewrite truediv_pow2_exact by lia. cbn [mbind res_bind].
    unfold from_float. rewrite Qcanon.Qred_involutive.
    set (y := unsigned_value measurement # Z.to_pos (2 ^ (2 * n self))).
    destruct (limit_denominator_best (Qred y) (N self)) as (r & Hr & Hg & Hbest).
    + apply Qcanon.Qred_involutive.
    + apply Qred_nonneg. subst y. cbn [Qnum]. lia.
    + lia.
    + rewrite Hr. cbn [mbind res_bind]. eexists. split; [reflexivity|].
      exists (numerator r). split; [exact Hg|].
      apply best_approximation_Qred. exact Hbest.
  - intros shots0 shor Hinit. unfold __init__ in Hinit.
    replace (15 <=? 1) with false in Hinit by reflexivity.
    destruct (shots0 <=? 0); [discriminate|]. injection Hinit as <-.
    split; [reflexivity|]. split; [reflexivity|]. vm_compute. reflexivity.
Qed.

Lemma measurement_to_period_best_denominator_witness :
  ∃ r, _classical_post_processing (mkShor 15 1000 4) "01000000" = Val r ∧
       best_denominator 15 (unsigned_value "01000000" # Z.to_pos (2 ^ (2 * 4))) r.
Proof.
  apply (measurement_to_period_best_denominator (mkShor 15 1000 4) "01000000");
    [cbn; lia|cbn; lia|cbn; lia|reflexivity|reflexivity].
Defined.

(** At [n = 27] the quotient [m / 2^54] no longer fits a binary64
    significand and the statement of C2 fails: for [N = 2^26 + 1] and the
    54-bit measurement below the method returns 45880649, which is not the
    denominator of any best approximation of [m / 2^54]; the fraction
    34316786/43090401 is strictly closer than every fraction of that
    denominator, and 43090401 is the denominator of a best approximation. *)
Lemma measurement_to_period_counterexample :
  let measurement :=
    "110010111110000000111111011100001001010111010010111101" in
  let x := (unsigned_value measurement # Z.to_pos (2 ^ (2 * 27)))%Q in
  __init__ 67108865 1000 = Val (mkShor 67108865 1000 27) ∧
  str_len measurement = 2 * 27 ∧
  str_all DeutschJozsa.is_bit measurement = true ∧
  _classical_post_processing (mkShor 67108865 1000 27) measurement
  = Val 45880649 ∧
  ¬ best_denominator 67108865 x 45880649 ∧
  best_denominator 67108865 x 43090401.
Proof.
  cbv zeta. split; [vm_compute; reflexivity|].
  split; [reflexivity|]. split; [reflexivity|].
  split; [vm_compute; reflexivity|].
  assert (Hm : unsigned_value
                 "110010111110000000111111011100001001010111010010111101"
               = 14346495837172925) by (vm_compute; reflexivity).
  rewrite Hm. split.
  - intros (p & _ & _ & Hbest).
    specialize (Hbest 34316786 43090401 ltac:(lia)).
    apply Qabs_dist_le in Hbest.
    change (Z.pos (Z.to_pos (2 ^ (2 * 27)))) with 18014398509481984 in Hbest.
    change (Z.pos (Z.to_pos 45880649)) with 45880649 in Hbest.
    change (Z.pos (Z.to_pos 43090401)) with 43090401 in Hbest.
    lia.
  - set (x := (14346495837172925 # Z.to_pos (2 ^ (2 * 27)))%Q).
    destruct (limit_denominator_best (Qred x) 67108865) as (r & Hr & Hg & Hbest).
    + apply Qcanon.Qred_involutive.
    + vm_compute. discriminate.
    + lia.
    + assert (Hval : limit_denominator (Qred x) 67108865
                     = Val (34316786 # 43090401)) by (vm_compute; reflexivity).
      rewrite Hval in Hr. injection Hr as <-.
      exists 34316786. split; [exact Hg|].
      apply best_approximation_Qred. exact Hbest.
Qed.

(** C6 (within the range of binary64). For every counting register of
    [m <= 1024] qubits, the inverse quantum Fourier transform appends
    exactly: [floor(m/2)] swaps pairing qubit [i] with qubit [m-1-i] for
    [i < floor(m/2)]; then for each qubit [j] from 0 to [m-1] in order, a
    controlled-phase rotation of angle [-pi / 2^(j-k)] controlled by qubit
    [k] on qubit [j] for every [k < j] in ascending [k], followed by a
    Hadamard on qubit [j]. *)
Theorem inverse_qft_gate_sequence (qc : QuantumCircuit) (qubits : list Qubit) :
  Z.of_nat (length qubits) ≤ 1024 →
  _apply_qft_inverse qc qubits = Val (extend qc (iqft_gates qubits)).
Proof.
  intros Hm. unfold _apply_qft_inverse, iqft_gates.
  rewrite swap_loop_emits. cbn [mbind res_bind].
  rewrite (for_each_emits (range (Z.of_nat (length qubits))) _
             (iqft_rotations qubits)).
  - rewrite extend_extend. reflexivity.
  - intros j qc' Hj. apply range_elem in Hj.
    apply rotation_loop_emits; lia.
Qed.

Lemma inverse_qft_gate_sequence_witness :
  _apply_qft_inverse (mkCircuit [] [] []) (QuantumRegister 3 "count")
  = Val (mkCircuit [] []
           [SWAP (mkQubit "count" 0) (mkQubit "count" 2);
            H (mkQubit "count" 0);
            CP (neg_pi_over_pow2 1) (mkQubit "count" 0) (mkQubit "count" 1);
            H (mkQubit "count" 1);
            CP (neg_pi_over_pow2 2) (mkQubit "count" 0) (mkQubit "count" 2);
            CP (neg_pi_over_pow2 1) (mkQubit "count" 1) (mkQubit "count" 2);
            H (mkQubit "count" 2)]).
Proof.
  rewrite (inverse_qft_gate_sequence (mkCircuit [] [] [])
             (QuantumRegister 3 "count")) by (vm_compute; discriminate).
  reflexivity.
Defined.

(** On a register of 1025 qubits the conversion [float(2**1024)] raises
    [OverflowError] and no gate sequence is returned. *)
Lemma inverse_qft_counterexample :
  _apply_qft_inverse (mkCircuit [] [] []) (QuantumRegister 1025 "count")
  = Raise OverflowError ∧
  _apply_qft_inverse (mkCircuit [] [] []) (QuantumRegister 1025 "count")
  ≠ Val (extend (mkCircuit [] [] [])
           (iqft_gates (QuantumRegister 1025 "count"))).
Proof.
  assert (Hraise : _apply_qft_inverse (mkCircuit [] [] [])
                     (QuantumRegister 1025 "count") = Raise OverflowError).
  { apply apply_qft_inverse_overflows. rewrite register_length; lia. }
  split; [exact Hraise|]. rewrite Hraise. discriminate.
Qed.

End PeriodClaims.

(** * Further properties of the two classes *)

(** ** Registers *)

Section Registers.

Lemma register_elem (size : Z) (name : string) (q : Qubit) :
  q ∈ QuantumRegister size name ↔ ∃ i, 0 ≤ i < size ∧ q = mkQubit name i.
Proof.
  unfold QuantumRegister, range. rewrite list_elem_of_fmap. split.
  - intros (i & -> & Hi). apply elem_of_seqZ in Hi. exists i. split; [lia|reflexivity].
  - intros (i & Hi & ->). exists i. split; [reflexivity|]. apply elem_of_seqZ. lia.
Qed.

Lemma register_NoDup (size : Z) (name : string) : NoDup (QuantumRegister size name).
Proof.
  unfold QuantumRegister, range. apply NoDup_fmap_2; [|apply NoDup_seqZ].
  intros i j [=]. assumption.
Qed.

Lemma qubit_at_register (size : Z) (name : string) (j : Z) :
  0 ≤ j < size → qubit_at (QuantumRegister size name) j = mkQubit name j.
Proof.
  intros Hj. pose proof (register_getitem size name j Hj) as Hg.
  rewrite getitem_nonneg in Hg by (rewrite register_length; lia).
  injection Hg as Hg. exact Hg.
Qed.

(** Measuring a register into a classical register of the same size
    pairs qubit [i] with bit [i]. *)
Lemma measure_gates_registers (size : Z) (qname cname : string) :
  measure_gates (QuantumRegister size qname) (ClassicalRegister size cname)
  = (λ i, Measure (mkQubit qname i) (mkClbit cname i)) <$> range size.
Proof.
  unfold measure_gates, QuantumRegister, ClassicalRegister.
  rewrite zip_with_fmap_l, zip_with_fmap_r, zip_with_diag. reflexivity.
Qed.

End Registers.

(** ** Shor: construction and the period-finding circuit *)

Section GateCounts.

Lemma float_of_int_exact (z : Z) :
  0 ≤ z < 2 ^ 53 → float_of_int z = Val (inject_Z z).
Proof.
  intros Hz. unfold float_of_int. rewrite Z.abs_eq by lia.
  replace (z <? 0) with false by (symmetry; apply Z.ltb_ge; lia).
  destruct (Z.eq_dec z 0) as [->|Hne]; [reflexivity|].
  pose proof (binary64_round_pow2_exact z 0 ltac:(lia) ltac:(lia)) as Hex.
  change (2 ^ 0) with 1 in Hex. change (Z.to_pos 1) with 1%positive in Hex.
  rewrite Hex, small_ratio_no_overflow by lia.
  change (z # 1) with (inject_Z z). rewrite Qred_inject_Z. reflexivity.
Qed.

(** A loop that applies a Hadamard gate to every qubit of a register. *)
Lemma register_loop_emits (size : Z) (name : string) (qc : QuantumCircuit) :
  for_each (range size) (λ i qc,
    q ← getitem (QuantumRegister size name) i; Val (append (H q) qc)) qc
  = Val (extend qc (H <$> QuantumRegister size name)).
Proof.
  unfold QuantumRegister at 2. rewrite <- list_fmap_compose.
  rewrite <- flat_map_singleton. apply for_each_emits.
  intros i qc' Hi. apply range_elem in Hi.
  rewrite register_getitem by lia. reflexivity.
Qed.

(** The body of the loop of [_controlled_modular_multiplication]. *)
Lemma cmm_body_emits (control : Qubit) (target_reg : list Qubit) (power i : Z)
    (qc : QuantumCircuit) :
  0 ≤ power < 2 ^ 53 → 0 ≤ i < Z.of_nat (length target_reg) → i ≤ 1022 →
  (c ← float_of_int power;
   d ← float_of_int (2 ^ (i + 1));
   t ← getitem target_reg i;
   Val (append (CP (TwoPiTimesOver c d) control t) qc))
  = Val (extend qc [CP (two_pi_times_over_pow2 power (i + 1)) control
                       (qubit_at target_reg i)]).
Proof.
  intros Hp Hi Hi'. rewrite (float_of_int_exact power) by exact Hp.
  cbn [mbind res_bind].
  rewrite float_of_int_pow2 by lia. cbn [mbind res_bind].
  rewrite (getitem_nonneg target_reg i) by lia. reflexivity.
Qed.

Lemma length_range (n : Z) : 0 ≤ n → Z.of_nat (length (range n)) = n.
Proof. intros Hn. unfold range. rewrite length_seqZ. lia. Qed.

Lemma range_snoc (k : nat) :
  range (Z.of_nat (S k)) = range (Z.of_nat k) ++ [Z.of_nat k].
Proof. unfold range. rewrite seqZ_S. reflexivity. Qed.

(** The rotations of the inverse transform form a triangle: [j + 1] gates
    for the qubit [j]. *)
Lemma iqft_rotations_total (qubits : list Qubit) (k : nat) :
  2 * Z.of_nat (length (flat_map (iqft_rotations qubits) (range (Z.of_nat k))))
  = Z.of_nat k * (Z.of_nat k + 1).
Proof.
  induction k as [|k IH]; [reflexivity|].
  rewrite range_snoc, flat_map_app, length_app, Nat2Z.inj_add.
  cbn [flat_map]. rewrite app_nil_r. unfold iqft_rotations at 2.
  rewrite length_app, length_fmap. cbn [length].
  rewrite Nat2Z.inj_add, length_range by lia. lia.
Qed.

Lemma iqft_gates_length (qubits : list Qubit) :
  let m := Z.of_nat (length qubits) in
  Z.of_nat (length (iqft_gates qubits)) = m / 2 + m * (m + 1) / 2.
Proof.
  intros m. unfold iqft_gates, iqft_swaps. fold m.
  rewrite length_app, length_fmap, Nat2Z.inj_add.
  assert (Hhalf : 0 ≤ m / 2) by (apply Z.div_pos; lia).
  rewrite length_range by exact Hhalf. f_equal.
  pose proof (iqft_rotations_total qubits (length qubits)) as Htot. fold m in Htot.
  apply Z.div_unique_exact; [lia|]. symmetry. exact Htot.
Qed.

Lemma cmm_gates_length (control : Qubit) (target_reg : list Qubit) (power : Z) :
  length (cmm_gates control target_reg power) = length target_reg.
Proof.
  unfold cmm_gates, range. rewrite length_fmap, length_seqZ. lia.
Qed.

End GateCounts.

Section ShorCircuit.

Import Shor.

(** X1. Construction of a [ShorsAlgorithm]: it succeeds exactly for [N > 1]
    and a positive shot count, the argument [N] being checked first; the
    object keeps both and [n] is the bit length of [N]; [factor_number] raises
    what the constructor raises, before any circuit exists, and otherwise is
    [factor] on the object. *)
Theorem shor_init_contract (N0 shots0 : Z) (env : list (Z * Counts)) :
  (1 < N0 → 0 < shots0 →
   ∃ self, __init__ N0 shots0 = Val self ∧
           N self = N0 ∧ shots self = shots0 ∧
           2 ^ (n self - 1) ≤ N0 < 2 ^ n self ∧
           factor_number N0 shots0 env = factor self env) ∧
  (N0 ≤ 1 →
   __init__ N0 shots0 = Raise (ValueError "N must be an integer greater than 1.") ∧
   factor_number N0 shots0 env
   = ([], Raise (ValueError "N must be an integer greater than 1."))) ∧
  (1 < N0 → shots0 ≤ 0 →
   __init__ N0 shots0
   = Raise (ValueError "Number of shots must be a positive integer.") ∧
   factor_number N0 shots0 env
   = ([], Raise (ValueError "Number of shots must be a positive integer."))).
Proof.
  split; [|split].
  - intros HN Hs.
    destruct (__init__ N0 shots0) as [self| |] eqn:Hinit.
    2,3: unfold __init__ in Hinit;
         replace (N0 <=? 1) with false in Hinit by (symmetry; apply Z.leb_gt; lia);
         replace (shots0 <=? 0) with false in Hinit
           by (symmetry; apply Z.leb_gt; lia);
         discriminate.
    exists self. split; [reflexivity|].
    destruct (init_bit_length N0 shots0 self Hinit) as [HNs Hn].
    split; [exact HNs|]. split.
    { unfold __init__ in Hinit. destruct (N0 <=? 1); [discriminate|].
      destruct (shots0 <=? 0); [discriminate|]. injection Hinit as <-. reflexivity. }
    split.
    { rewrite Hn. replace (Z.log2 N0 + 1 - 1) with (Z.log2 N0) by lia.
      replace (Z.log2 N0 + 1) with (Z.succ (Z.log2 N0)) by lia.
      apply Z.log2_spec. lia. }
    unfold factor_number. rewrite Hinit. cbn.
    destruct (factor self env); reflexivity.
  - intros HN. unfold factor_number, __init__.
    replace (N0 <=? 1) with true by (symmetry; apply Z.leb_le; lia).
    split; reflexivity.
  - intros HN Hs. unfold factor_number, __init__.
    replace (N0 <=? 1) with false by (symmetry; apply Z.leb_gt; lia).
    replace (shots0 <=? 0) with true by (symmetry; apply Z.leb_le; lia).
    split; reflexivity.
Qed.

Lemma shor_init_contract_witness :
  ∃ self, __init__ 21 100 = Val self ∧ N self = 21 ∧ shots self = 100 ∧
          2 ^ (n self - 1) ≤ 21 < 2 ^ n self ∧
          factor_number 21 100 [(3, [])] = factor self [(3, [])].
Proof.
  destruct (shor_init_contract 21 100 [(3, [])]) as (Hok & _ & _).
  apply Hok; lia.
Defined.

(** X2. [_controlled_modular_multiplication] appends one controlled-phase
    rotation per qubit of the target register, in order: from [control] onto
    qubit [i] with the angle [2 pi power / 2^(i+1)]; the register and the
    gates already present are kept. *)
Theorem controlled_modular_multiplication_gates (qc : QuantumCircuit)
    (control : Qubit) (target_reg : list Qubit) (power : Z) :
  0 ≤ power < 2 ^ 53 →
  Z.of_nat (length target_reg) ≤ 1023 →
  _controlled_modular_multiplication qc control target_reg power
  = Val (extend qc (cmm_gates control target_reg power)) ∧
  length (cmm_gates control target_reg power) = length target_reg.
Proof.
  intros Hp Hlen. split; [|apply cmm_gates_length].
  unfold _controlled_modular_multiplication, cmm_gates.
  rewrite <- flat_map_singleton. apply for_each_emits.
  intros i qc' Hi. apply range_elem in Hi.
  apply cmm_body_emits; lia.
Qed.

Lemma controlled_modular_multiplication_gates_witness :
  _controlled_modular_multiplication (mkCircuit [] [] []) (mkQubit "count" 1)
    (QuantumRegister 2 "power") 4
  = Val (mkCircuit [] []
           [CP (two_pi_times_over_pow2 4 1) (mkQubit "count" 1) (mkQubit "power" 0);
            CP (two_pi_times_over_pow2 4 2) (mkQubit "count" 1) (mkQubit "power" 1)]).
Proof.
  destruct (controlled_modular_multiplication_gates (mkCircuit [] [] [])
              (mkQubit "count" 1) (QuantumRegister 2 "power") 4
              ltac:(lia) ltac:(vm_compute; discriminate)) as [Hgates _].
  rewrite Hgates. reflexivity.
Defined.

(** X3. The inverse quantum Fourier transform on [m <= 1024] qubits appends
    [floor(m/2) + m(m+1)/2] instructions after those already in the circuit
    and leaves the registers of the circuit as they are. *)
Theorem inverse_qft_size (qc : QuantumCircuit) (qubits : list Qubit) :
  Z.of_nat (length qubits) ≤ 1024 →
  let m := Z.of_nat (length qubits) in
  ∃ qc' gates,
    _apply_qft_inverse qc qubits = Val qc' ∧
    data qc' = data qc ++ gates ∧
    Z.of_nat (length gates) = m / 2 + m * (m + 1) / 2 ∧
    qregs qc' = qregs qc ∧ cregs qc' = cregs qc.
Proof.
  intros Hm m. exists (extend qc (iqft_gates qubits)), (iqft_gates qubits).
  split; [|split; [reflexivity|split; [apply iqft_gates_length|split; reflexivity]]].
  unfold _apply_qft_inverse, iqft_gates.
  rewrite swap_loop_emits. cbn [mbind res_bind].
  rewrite (for_each_emits (range (Z.of_nat (length qubits))) _
             (iqft_rotations qubits)).
  - rewrite extend_extend. reflexivity.
  - intros j qc' Hj. apply range_elem in Hj.
    apply rotation_loop_emits; lia.
Qed.

Lemma inverse_qft_size_witness :
  ∃ qc' gates,
    _apply_qft_inverse (mkCircuit [] [] [H (mkQubit "count" 0)])
      (QuantumRegister 5 "count") = Val qc' ∧
    data qc' = [H (mkQubit "count" 0)] ++ gates ∧
    Z.of_nat (length gates) = 17 ∧
    qregs qc' = [] ∧ cregs qc' = [].
Proof.
  apply (inverse_qft_size (mkCircuit [] [] [H (mkQubit "count" 0)])
           (QuantumRegister 5 "count")).
  vm_compute. discriminate.
Defined.

(** The circuit of [_quantum_period_finding], gate by gate. *)
Lemma period_circuit_emits (self : ShorsAlgorithm) (a : Z) :
  0 < N self ≤ 2 ^ 53 →
  1 ≤ n self ≤ 512 →
  period_circuit self a
  = Val (mkCircuit [QuantumRegister (2 * n self) "count";
                    QuantumRegister (n self) "power"]
                   [ClassicalRegister (2 * n self) "c"]
                   (period_gates self a)).
Proof.
  intros HN Hn.
  assert (Hcount : Z.of_nat (length (QuantumRegister (2 * n self) "count"))
                   = 2 * n self) by (apply register_length; lia).
  unfold period_circuit, period_gates.
  rewrite register_loop_emits. cbn [mbind res_bind].
  rewrite (register_getitem (n self) "power" 0) by lia. cbn [mbind res_bind].
  rewrite (for_each_emits (range (2 * n self)) _
             (λ i, cmm_gates (mkQubit "count" i) (QuantumRegister (n self) "power")
                     (pow_mod a (2 ^ i) (N self)))).
  - cbn [mbind res_bind]. unfold _apply_qft_inverse.
    rewrite swap_loop_emits. cbn [mbind res_bind].
    rewrite (for_each_emits (range (Z.of_nat (length
                               (QuantumRegister (2 * n self) "count")))) _
               (iqft_rotations (QuantumRegister (2 * n self) "count"))).
    + cbn [mbind res_bind]. unfold measure, measure_gates, iqft_gates.
      rewrite append_extend, !extend_extend. unfold extend. cbn [qregs cregs data].
      rewrite !app_nil_l, <- !app_assoc. reflexivity.
    + intros j qc' Hj. apply range_elem in Hj.
      apply rotation_loop_emits; lia.
  - intros i qc' Hi. apply range_elem in Hi.
    rewrite register_getitem by lia. cbn [mbind res_bind].
    unfold _controlled_modular_multiplication, cmm_gates.
    rewrite <- flat_map_singleton. apply for_each_emits.
    intros k qc'' Hk. apply range_elem in Hk.
    pose proof (register_length (n self) "power" ltac:(lia)) as Hpower.
    pose proof (Z.mod_pos_bound (a ^ 2 ^ i) (N self) ltac:(lia)) as Hpow.
    apply cmm_body_emits; unfold pow_mod; lia.
Qed.

(** X4. The circuit of [_quantum_period_finding] for [N <= 2^53] and
    [n <= 512]: two registers [count] ([2n] qubits) and [power] ([n] qubits)
    and one classical register of [2n] bits; Hadamard gates on the counting
    qubits, a bit-flip of [power[0]], for each counting qubit [i] in order the
    rotations of the multiplication by [a^(2^i) mod N], the inverse transform
    of the counting register and its measurement; in all [4 n^2 + 6 n + 1]
    instructions. *)
Theorem period_circuit_layout (self : ShorsAlgorithm) (a : Z) :
  0 < N self ≤ 2 ^ 53 →
  1 ≤ n self ≤ 512 →
  period_circuit self a
  = Val (mkCircuit [QuantumRegister (2 * n self) "count";
                    QuantumRegister (n self) "power"]
                   [ClassicalRegister (2 * n self) "c"]
                   (period_gates self a)) ∧
  Z.of_nat (length (period_gates self a)) = 4 * n self * n self + 6 * n self + 1.
Proof.
  intros HN Hn. split; [apply period_circuit_emits; assumption|].
  assert (Hcount : Z.of_nat (length (QuantumRegister (2 * n self) "count"))
                   = 2 * n self) by (apply register_length; lia).
  assert (Hpower : Z.of_nat (length (QuantumRegister (n self) "power")) = n self)
    by (apply register_length; lia).
  unfold period_gates, measure_gates.
  rewrite !length_app, length_fmap. cbn [length].
  rewrite (flat_map_constant_length (c := length (QuantumRegister (n self) "power")))
    by (intros; apply cmm_gates_length).
  rewrite length_zip_with_l_eq
    by (unfold QuantumRegister, ClassicalRegister; rewrite !length_fmap; reflexivity).
  rewrite !Nat2Z.inj_add, Nat2Z.inj_mul, iqft_gates_length.
  cbv zeta. rewrite Hcount, Hpower, length_range by lia.
  replace (2 * n self / 2) with (n self) by (apply Z.div_unique_exact; lia).
  replace (2 * n self * (2 * n self + 1) / 2) with (n self * (2 * n self + 1))
    by (apply Z.div_unique_exact; lia).
  cbn [Z.of_nat]. lia.
Qed.

Lemma period_circuit_layout_witness :
  period_circuit (mkShor 15 100 4) 7
  = Val (mkCircuit [QuantumRegister 8 "count"; QuantumRegister 4 "power"]
                   [ClassicalRegister 8 "c"]
                   (period_gates (mkShor 15 100 4) 7)) ∧
  Z.of_nat (length (period_gates (mkShor 15 100 4) 7)) = 89.
Proof.
  apply (period_circuit_layout (mkShor 15 100 4) 7); cbn; lia.
Defined.

End ShorCircuit.

(** ** Shor: measurement, period candidates and the factor loop *)

Section Measurement.

Import Shor.

(** [max] keeps the first of the largest counts. *)
Lemma max_from_first_most_frequent (items : list (string * Z)) (best : string * Z) :
  first_most_frequent (best :: items) (max_from best items).
Proof.
  revert best. induction items as [|kv items IH]; intros best.
  - exists [], best.2, []. destruct best as [k c]. cbn.
    split; [reflexivity|]. split; intros kv Hkv; inversion Hkv.
  - cbn [max_from]. destruct (best.2 <? kv.2) eqn:Hlt.
    + apply Z.ltb_lt in Hlt.
      destruct (IH kv) as (before & c & after & Heq & Hb & Ha).
      exists (best :: before), c, after. split; [cbn; f_equal; exact Heq|].
      split; [|exact Ha]. intros kv' Hkv'. apply elem_of_cons in Hkv' as [->|Hin];
        [|apply Hb, Hin].
      destruct before as [|b before]; cbn in Heq; injection Heq as Hhead _.
      * apply (f_equal snd) in Hhead. cbn in Hhead. lia.
      * specialize (Hb b ltac:(apply list_elem_of_here)). subst b. lia.
    + apply Z.ltb_ge in Hlt.
      destruct (IH best) as (before & c & after & Heq & Hb & Ha).
      destruct before as [|b before]; cbn in Heq; injection Heq as Hhead Hitems.
      * exists [], c, (kv :: after).
        split; [cbn; f_equal; [exact Hhead|f_equal; exact Hitems]|].
        split; [intros kv' Hkv'; inversion Hkv'|].
        intros kv' Hkv'. apply elem_of_cons in Hkv' as [->|Hin]; [|apply Ha, Hin].
        apply (f_equal snd) in Hhead. cbn in Hhead. lia.
      * exists (best :: kv :: before), c, after.
        split; [cbn; do 2 f_equal; exact Hitems|]. split; [|exact Ha].
        intros kv' Hkv'.
        pose proof (Hb b ltac:(apply list_elem_of_here)) as Hbest. subst b.
        apply elem_of_cons in Hkv' as [->|Hin]; [exact Hbest|].
        apply elem_of_cons in Hin as [->|Hin]; [lia|].
        apply Hb, list_elem_of_further, Hin.
Qed.

(** X5. [_quantum_period_finding] hands one circuit to the simulator and
    returns the most frequent measurement of the answer, the first one in
    iteration order when several share the largest count; on an empty answer
    the circuit has been run and [max] raises [ValueError]. *)
Theorem quantum_period_finding_most_frequent (self : ShorsAlgorithm) (a : Z)
    (counts : Counts) (qc : QuantumCircuit) :
  period_circuit self a = Val qc →
  (counts = [] →
   ∃ msg, _quantum_period_finding self a counts = ([qc], Raise (ValueError msg))) ∧
  (counts ≠ [] →
   ∃ k, _quantum_period_finding self a counts = ([qc], Val k) ∧
        first_most_frequent counts k).
Proof.
  intros Hqc. unfold _quantum_period_finding. rewrite Hqc. split.
  - intros ->. eexists. reflexivity.
  - intros Hne. destruct counts as [|kv items]; [contradiction|].
    exists (max_from kv items). split; [reflexivity|].
    apply max_from_first_most_frequent.
Qed.

Lemma quantum_period_finding_most_frequent_witness :
  ∃ qc k,
    _quantum_period_finding (mkShor 15 100 4) 7
      [("11000000", 20); ("01000000", 40); ("10000000", 40)] = ([qc], Val k) ∧
    first_most_frequent
      [("11000000", 20); ("01000000", 40); ("10000000", 40)] k ∧
    k = "01000000".
Proof.
  destruct (period_circuit (mkShor 15 100 4) 7) as [qc| |] eqn:Hqc;
    [|vm_compute in Hqc; discriminate..].
  destruct (quantum_period_finding_most_frequent (mkShor 15 100 4) 7
              [("11000000", 20); ("01000000", 40); ("10000000", 40)] qc Hqc)
    as [_ Hmax].
  destruct (Hmax ltac:(discriminate)) as (k & Hrun & Hfirst).
  exists qc, k. split; [exact Hrun|]. split; [exact Hfirst|].
  unfold _quantum_period_finding in Hrun. rewrite Hqc in Hrun.
  cbn in Hrun. injection Hrun as <-. reflexivity.
Defined.

End Measurement.

Section PeriodCandidates.

Import Shor.

Lemma Qred_denominator (a : Z) (p : positive) :
  Z.pos (Qden (Qred (a # p))) = Z.pos p / Z.gcd a (Z.pos p).
Proof.
  unfold Qred. pose proof (Z.ggcd_gcd a (Z.pos p)) as Hg.
  pose proof (Z.ggcd_correct_divisors a (Z.pos p)) as Hd.
  destruct (Z.ggcd a (Z.pos p)) as [g [aa bb]]. cbn [fst snd] in *.
  destruct Hd as [_ Hb]. cbn [Qden]. rewrite <- Hg.
  assert (Hgpos : 0 < g).
  { pose proof (Z.gcd_nonneg a (Z.pos p)). rewrite <- Hg in *.
    destruct (Z.eq_dec g 0) as [->|]; lia. }
  assert (Hbb : 0 < bb) by nia.
  rewrite Z2Pos.id by exact Hbb.
  rewrite Hb at 1. rewrite Z.mul_comm, Z.div_mul by lia. reflexivity.
Qed.

Lemma str_mul_zero_value (k : nat) : unsigned_value (str_mul_nat "0" k) = 0.
Proof.
  induction k as [|k IH]; [reflexivity|].
  change (str_mul_nat "0" (S k)) with (String "0"%char (str_mul_nat "0" k)).
  cbn [unsigned_value Ascii.eqb Bool.eqb]. cbn. exact IH.
Qed.

(** The candidate period of a measurement of zeros is 1. *)
Lemma post_processing_zero (self : ShorsAlgorithm) (k : Z) :
  1 ≤ N self → 0 ≤ n self → 1 ≤ k →
  _classical_post_processing self (str_mul "0" k) = Val 1.
Proof.
  intros HN Hn Hk. unfold _classical_post_processing, str_mul.
  rewrite int2_value.
  2:{ apply (str_all_mul DeutschJozsa.is_bit "0"%char). reflexivity. }
  2:{ rewrite (str_mul_nat_length "0"%char). lia. }
  rewrite str_mul_zero_value. cbn [mbind res_bind].
  assert (Hp : 0 < 2 ^ (2 * n self)) by (apply Z.pow_pos_nonneg; lia).
  assert (Hdiv : truediv 0 (2 ^ (2 * n self)) = Val 0%Q).
  { unfold truediv.
    replace (2 ^ (2 * n self) =? 0) with false by (symmetry; apply Z.eqb_neq; lia).
    reflexivity. }
  rewrite Hdiv. cbn [mbind res_bind].
  change (from_float 0%Q) with 0%Q. unfold limit_denominator.
  replace (N self <? 1) with false by (symmetry; apply Z.ltb_ge; lia).
  change (denominator 0%Q) with 1.
  replace (1 <=? N self) with true by (symmetry; apply Z.leb_le; lia).
  reflexivity.
Qed.

(** X6. For every width of the counting register, the candidate period
    computed from a measurement of [2n] binary digits lies between 1 and [N]:
    the method never raises on such a measurement and never proposes 0 or a
    period above [N]. *)
Theorem post_processing_range (self : ShorsAlgorithm) (measurement : string) :
  1 ≤ N self →
  1 ≤ n self →
  str_len measurement = 2 * n self →
  str_all DeutschJozsa.is_bit measurement = true →
  ∃ r, _classical_post_processing self measurement = Val r ∧ 1 ≤ r ≤ N self.
Proof.
  intros HN Hn Hlen Hbits.
  destruct (post_processing_binary64 self measurement HN Hn Hlen Hbits)
    as (phase & r & _ & Hr & p & _ & Hrange & _).
  exists r. split; [exact Hr|exact Hrange].
Qed.

Lemma post_processing_range_witness :
  ∃ r, _classical_post_processing (mkShor 21 100 5) "0010101011" = Val r ∧
       1 ≤ r ≤ 21.
Proof.
  apply (post_processing_range (mkShor 21 100 5) "0010101011");
    [cbn; lia|cbn; lia|reflexivity|reflexivity].
Defined.

(** X7. When the measured phase [m / 2^(2n)], in lowest terms, has a
    denominator [2^(2n) / gcd(m, 2^(2n))] that does not exceed [N], the
    candidate period is that denominator (for [2n <= 53], where the quotient
    is exact). *)
Theorem post_processing_exact_phase (self : ShorsAlgorithm) (measurement : string) :
  1 ≤ N self →
  1 ≤ n self →
  2 * n self ≤ 53 →
  str_len measurement = 2 * n self →
  str_all DeutschJozsa.is_bit measurement = true →
  let m := unsigned_value measurement in
  let d := 2 ^ (2 * n self) / Z.gcd m (2 ^ (2 * n self)) in
  d ≤ N self →
  _classical_post_processing self measurement = Val d.
Proof.
  intros HN Hn H53 Hlen Hbits m d Hd. subst m d.
  unfold _classical_post_processing. unfold str_len in Hlen.
  rewrite int2_value by (assumption || lia). cbn [mbind res_bind].
  pose proof (unsigned_value_bounds measurement) as Hm. rewrite Hlen in Hm.
  assert (Hpow : 2 ^ (2 * n self) ≤ 2 ^ 53) by (apply Z.pow_le_mono_r; lia).
  rewrite truediv_pow2_exact by lia. cbn [mbind res_bind].
  unfold from_float. rewrite Qcanon.Qred_involutive.
  assert (Hp : 0 < 2 ^ (2 * n self)) by (apply Z.pow_pos_nonneg; lia).
  assert (Hden : denominator (Qred (unsigned_value measurement
                                     # Z.to_pos (2 ^ (2 * n self))))
                 = 2 ^ (2 * n self)
                   / Z.gcd (unsigned_value measurement) (2 ^ (2 * n self))).
  { unfold denominator. rewrite Qred_denominator, Z2Pos.id by exact Hp.
    reflexivity. }
  unfold limit_denominator.
  replace (N self <? 1) with false by (symmetry; apply Z.ltb_ge; lia).
  rewrite Hden.
  replace (_ <=? N self) with true by (symmetry; apply Z.leb_le; exact Hd).
  cbn [mbind res_bind]. rewrite Hden. reflexivity.
Qed.

Lemma post_processing_exact_phase_witness :
  _classical_post_processing (mkShor 15 100 4) "11000000" = Val 4.
Proof.
  apply (post_processing_exact_phase (mkShor 15 100 4) "11000000");
    [cbn; lia|cbn; lia|cbn; lia|reflexivity|reflexivity|vm_compute; discriminate].
Defined.

End PeriodCandidates.

Section FactorOutcomes.

Import Shor.

Variable self : ShorsAlgorithm.

(** A pass logs nothing when it stops at the greatest common divisor, and
    the period-finding circuit of its base otherwise. *)
Lemma attempt_log (a : Z) (counts : Counts) (log : list QuantumCircuit)
    (r : res step) :
  attempt self a counts = (log, r) →
  log = [] ∨
  (Z.gcd a (N self) = 1 ∧ ∃ qc, period_circuit self a = Val qc ∧ log = [qc]).
Proof.
  unfold attempt. destruct (Z.gcd a (N self) =? 1) eqn:Hg; cbn.
  - apply Z.eqb_eq in Hg. unfold _quantum_period_finding.
    destruct (period_circuit self a) as [qc| |]; cbn;
      [|intros [= <- _]; left; reflexivity..].
    intros Hrun. right. split; [exact Hg|]. exists qc. split; [reflexivity|].
    destruct (max_key counts) as [m| |]; cbn in Hrun;
      [|injection Hrun as <- _; reflexivity..].
    destruct (_classical_post_processing self m) as [r'| |]; cbn in Hrun;
      [|injection Hrun as <- _; reflexivity..].
    destruct (r' mod 2 =? 0); cbn in Hrun; [|injection Hrun as <- _; reflexivity].
    destruct (_ =? N self); cbn in Hrun; injection Hrun as <- _; reflexivity.
  - intros [= <- _]. left. reflexivity.
Qed.

Lemma attempt_return_nonneg (a : Z) (counts : Counts) (log : list QuantumCircuit)
    (p q : Z) :
  0 ≤ N self → attempt self a counts = (log, Val (Return (p, q))) → 0 ≤ p ∧ 0 ≤ q.
Proof.
  intros HN. unfold attempt. destruct (Z.gcd a (N self) =? 1) eqn:Hg; cbn.
  - unfold _quantum_period_finding.
    destruct (period_circuit self a) as [qc| |]; cbn; try discriminate.
    destruct (max_key counts) as [m| |]; cbn; try discriminate.
    destruct (_classical_post_processing self m) as [r| |]; cbn; try discriminate.
    destruct (r mod 2 =? 0); cbn; try discriminate.
    destruct (_ =? N self) eqn:Hprod; cbn; try discriminate.
    intros [= <- <- <-]. split; apply Z.gcd_nonneg.
  - intros [= <- <- <-]. split; [apply Z.gcd_nonneg|].
    apply Z_div_nonneg_nonneg; [exact HN|apply Z.gcd_nonneg].
Qed.

Lemma factor_return_nonneg (env : list (Z * Counts)) (log : list QuantumCircuit)
    (p q : Z) :
  0 ≤ N self → factor self env = (log, Val (p, q)) → 0 ≤ p ∧ 0 ≤ q.
Proof.
  intros HN. revert log. induction env as [|[a counts] env IH]; intros log; cbn.
  - destruct (N self mod 2 =? 0) eqn:He; cbn; [|discriminate].
    intros [= <- <- <-]. split; [lia|apply Z_div_nonneg_nonneg; lia].
  - destruct (N self mod 2 =? 0) eqn:He; cbn.
    + intros [= <- <- <-]. split; [lia|apply Z_div_nonneg_nonneg; lia].
    + destruct (attempt self a counts) as [log1 [[[p1 q1]|]| |]] eqn:Ha; cbn;
        try discriminate.
      * intros [= <- <- <-]. eapply attempt_return_nonneg; [exact HN|exact Ha].
      * destruct (factor self env) as [log2 r2] eqn:Hf.
        intros [= <- ->]. eapply IH. reflexivity.
Qed.

End FactorOutcomes.

Section FactorExtras.

Import Shor.

(** X8. A measurement of zeros makes the pass retry: its candidate period is
    1, which is odd, for every base and every width of the counting register. *)
Theorem all_zero_measurement_retries (self : ShorsAlgorithm) (a : Z)
    (counts : Counts) (env : list (Z * Counts)) (qc : QuantumCircuit) (k : Z) :
  1 < N self →
  0 ≤ n self →
  N self mod 2 ≠ 0 →
  Z.gcd a (N self) = 1 →
  period_circuit self a = Val qc →
  1 ≤ k →
  max_key counts = Val (str_mul "0" k) →
  _classical_post_processing self (str_mul "0" k) = Val 1 ∧
  attempt self a counts = ([qc], Val Again) ∧
  factor self ((a, counts) :: env)
  = ([qc] ++ (factor self env).1, (factor self env).2).
Proof.
  intros HN Hn Ho Hg Hqc Hk Hmax.
  assert (Hr : _classical_post_processing self (str_mul "0" k) = Val 1)
    by (apply post_processing_zero; lia).
  pose proof (attempt_quantum_path self a counts qc (str_mul "0" k) 1
                Hg Hqc Hmax Hr) as Ha.
  change (negb (1 mod 2 =? 0)) with true in Ha. cbv iota in Ha.
  split; [exact Hr|]. split; [exact Ha|].
  rewrite factor_odd_unfold by exact Ho. rewrite Ha. cbn.
  destruct (factor self env); reflexivity.
Qed.

Lemma all_zero_measurement_retries_witness :
  (factor (mkShor 15 100 4)
     [(7, [("00000000", 70); ("01000000", 30)]); (5, [])]).2 = Val (5, 3).
Proof.
  destruct (period_circuit (mkShor 15 100 4) 7) as [qc| |] eqn:Hqc;
    [|vm_compute in Hqc; discriminate..].
  destruct (all_zero_measurement_retries (mkShor 15 100 4) 7
              [("00000000", 70); ("01000000", 30)] [(5, [])] qc 8
              ltac:(cbn; lia) ltac:(cbn; lia) ltac:(vm_compute; discriminate)
              ltac:(reflexivity) Hqc ltac:(lia) ltac:(reflexivity))
    as (_ & _ & Hf).
  refine (eq_trans (f_equal snd Hf) _). reflexivity.
Defined.

(** X9. The two classical exits of [factor] give proper factors: for odd [N]
    and a drawn base [a] in [[2, N-1]] sharing a factor with [N], the pair
    [(g, N // g)] returned has [1 < g < N] and [1 < N // g < N]; for even
    [N > 2] the pair [(2, N // 2)] has [1 < N // 2 < N]. *)
Theorem classical_exits_proper_factors (self : ShorsAlgorithm) (a : Z)
    (counts : Counts) (env : list (Z * Counts)) :
  1 < N self →
  (N self mod 2 ≠ 0 → 2 ≤ a ≤ N self - 1 → Z.gcd a (N self) ≠ 1 →
   let g := Z.gcd a (N self) in
   factor self ((a, counts) :: env) = ([], Val (g, N self / g)) ∧
   1 < g < N self ∧ 1 < N self / g < N self ∧ g * (N self / g) = N self) ∧
  (N self mod 2 = 0 → 2 < N self →
   factor self env = ([], Val (2, N self / 2)) ∧
   1 < N self / 2 < N self ∧ 2 * (N self / 2) = N self).
Proof.
  intros HN. split.
  - intros Ho Ha Hg g.
    pose proof (gcd_times_quotient self a) as Hprod. fold g in Hprod.
    assert (Hgpos : 1 < g).
    { pose proof (Z.gcd_nonneg a (N self)) as Hnn. fold g in Hnn.
      destruct (Z.eq_dec g 0) as [H0|H0]; [rewrite H0 in Hprod; lia|].
      subst g. lia. }
    assert (Hga : g ≤ a).
    { apply Z.divide_pos_le; [lia|]. apply Z.gcd_divide_l. }
    split.
    { rewrite factor_odd_unfold by exact Ho. unfold attempt. fold g.
      replace (g =? 1) with false by (symmetry; apply Z.eqb_neq; lia).
      reflexivity. }
    split; [lia|]. split; [|exact Hprod]. nia.
  - intros He H2.
    pose proof (Z.div_mod (N self) 2 ltac:(lia)) as Hdm. rewrite He in Hdm.
    split; [|lia].
    apply Z.eqb_eq in He. destruct env as [|[a' c'] env']; cbn; rewrite He;
      reflexivity.
Qed.

Lemma classical_exits_proper_factors_witness :
  factor (mkShor 35 100 6) [(14, [])] = ([], Val (7, 5)) ∧
  factor (mkShor 12 100 4) [] = ([], Val (2, 6)).
Proof.
  destruct (classical_exits_proper_factors (mkShor 35 100 6) 14 [] []
              ltac:(cbn; lia)) as [Hgcd _].
  destruct (classical_exits_proper_factors (mkShor 12 100 4) 0 [] []
              ltac:(cbn; lia)) as [_ Heven].
  split.
  - apply (Hgcd ltac:(vm_compute; discriminate) ltac:(cbn; lia)
             ltac:(vm_compute; discriminate)).
  - apply (Heven eq_refl ltac:(cbn; lia)).
Defined.

(** X10. Whatever path returns them, the two numbers returned by [factor] are
    positive divisors of [N]; hence for a prime [N] the only pairs that
    [factor] can return are [(1, N)] and [(N, 1)]. *)
Theorem factor_returns_positive_divisors (self : ShorsAlgorithm)
    (env : list (Z * Counts)) (log : list QuantumCircuit) (p q : Z) :
  1 < N self →
  factor self env = (log, Val (p, q)) →
  1 ≤ p ∧ 1 ≤ q ∧ (p | N self) ∧ (q | N self) ∧
  (Z.prime (N self) → (p, q) = (1, N self) ∨ (p, q) = (N self, 1)).
Proof.
  intros HN Hf.
  pose proof (factor_return_product self env log p q Hf) as Hprod.
  destruct (factor_return_nonneg self env log p q ltac:(lia) Hf) as [Hp Hq].
  assert (Hp1 : 1 ≤ p) by nia. assert (Hq1 : 1 ≤ q) by nia.
  assert (Hdp : (p | N self)) by (exists q; lia).
  assert (Hdq : (q | N self)) by (exists p; lia).
  repeat (split; [assumption|]).
  intros Hprime.
  destruct (Z.divide_prime_r p (N self) Hprime Hdp) as [H|[H|[H|H]]]; try lia.
  - left. f_equal; nia.
  - right. f_equal; nia.
Qed.

Lemma factor_returns_positive_divisors_witness :
  (factor (mkShor 3 100 2) [(2, [("1000", 100)])]).2 = Val (3, 1) ∧
  ((3, 1) = (1, 3) ∨ (3, 1) = (3, 1)).
Proof.
  destruct (factor (mkShor 3 100 2) [(2, [("1000", 100)])]) as [log r] eqn:Hf.
  assert (Hr : r = Val (3, 1)) by (vm_compute in Hf; congruence).
  subst r. split; [reflexivity|].
  apply (factor_returns_positive_divisors (mkShor 3 100 2)
           [(2, [("1000", 100)])] log 3 1 ltac:(cbn; lia) Hf).
  exact Z.prime_3.
Defined.

(** X11. Every circuit that [factor] hands to the simulator is the
    period-finding circuit of a drawn base that is coprime to [N]: no circuit
    is run for a base that already shares a factor with [N], and none for an
    even [N]. *)
Theorem factor_submits_period_circuits (self : ShorsAlgorithm)
    (env : list (Z * Counts)) (qc : QuantumCircuit) :
  qc ∈ (factor self env).1 →
  N self mod 2 ≠ 0 ∧
  ∃ a counts, (a, counts) ∈ env ∧ Z.gcd a (N self) = 1 ∧
              period_circuit self a = Val qc.
Proof.
  induction env as [|[a counts] env IH]; cbn.
  - destruct (N self mod 2 =? 0); cbn; intros Hin; inversion Hin.
  - destruct (N self mod 2 =? 0) eqn:He; cbn; [intros Hin; inversion Hin|].
    apply Z.eqb_neq in He.
    destruct (attempt self a counts) as [log1 r1] eqn:Ha.
    assert (Hhead : qc ∈ log1 →
                    ∃ a' counts', (a', counts') ∈ (a, counts) :: env ∧
                                  Z.gcd a' (N self) = 1 ∧
                                  period_circuit self a' = Val qc).
    { intros Hin. destruct (attempt_log self a counts log1 r1 Ha)
        as [->|(Hg & qc' & Hqc & ->)]; [inversion Hin|].
      apply list_elem_of_singleton in Hin. subst qc'.
      exists a, counts. split; [apply list_elem_of_here|]. split; assumption. }
    destruct r1 as [[factors|]| |]; cbn.
    + rewrite app_nil_r. intros Hin. split; [exact He|apply Hhead, Hin].
    + destruct (factor self env) as [log2 r2]. cbn in IH. cbn [fst].
      intros Hin. apply elem_of_app in Hin as [Hin|Hin].
      * split; [exact He|apply Hhead, Hin].
      * destruct (IH Hin) as (_ & a' & counts' & Hin' & Hg & Hqc).
        split; [exact He|]. exists a', counts'.
        split; [apply list_elem_of_further, Hin'|]. split; assumption.
    + intros Hin. split; [exact He|apply Hhead, Hin].
    + intros Hin. split; [exact He|apply Hhead, Hin].
Qed.

Lemma factor_submits_period_circuits_witness :
  ∃ qc, (factor (mkShor 15 100 4)
           [(7, [("01000000", 60); ("11000000", 40)])]).1 = [qc] ∧
        period_circuit (mkShor 15 100 4) 7 = Val qc.
Proof.
  assert (Hex : ∃ qc, (factor (mkShor 15 100 4)
                         [(7, [("01000000", 60); ("11000000", 40)])]).1 = [qc]).
  { destruct (period_circuit (mkShor 15 100 4) 7) as [qc| |] eqn:Hqc;
      [|vm_compute in Hqc; discriminate..].
    exists qc. cbn -[period_circuit]. unfold attempt, _quantum_period_finding.
    cbn -[period_circuit _classical_post_processing]. rewrite Hqc.
    cbn -[_classical_post_processing].
    destruct (_classical_post_processing _ _) as [r| |]; cbn; [|reflexivity..].
    destruct (r mod 2 =? 0); cbn; [|reflexivity].
    destruct (_ =? 15); reflexivity. }
  destruct Hex as [qc Hlog]. exists qc. split; [exact Hlog|].
  destruct (factor_submits_period_circuits (mkShor 15 100 4)
              [(7, [("01000000", 60); ("11000000", 40)])] qc)
    as (_ & a & c & Hin & _ & Hp).
  - rewrite Hlog. apply list_elem_of_here.
  - apply list_elem_of_singleton in Hin. injection Hin as -> _. exact Hp.
Defined.

End FactorExtras.

(** ** Deutsch-Jozsa: constructor, oracles and circuit as a whole *)

Section Indexing.

Context {A : Type} `{Inhabited A}.

(** A sequence is the list of its items taken by index. *)
Lemma list_by_index (l : list A) (k : Z) :
  (λ i, l !!! Z.to_nat (i - k)) <$> seqZ k (Z.of_nat (length l)) = l.
Proof.
  apply list_eq. intros i. rewrite list_lookup_fmap.
  destruct (decide (i < length l)%nat) as [Hlt|Hge].
  - rewrite lookup_seqZ_lt by lia. cbn.
    replace (Z.to_nat (k + Z.of_nat i - k)) with i by lia.
    symmetry. apply list_lookup_lookup_total_lt, Hlt.
  - rewrite lookup_seqZ_ge by lia. cbn. symmetry. apply lookup_ge_None_2. lia.
Qed.

End Indexing.

Section StringCounts.

Lemma str_count_nonneg (c : ascii) (s : string) : 0 ≤ str_count c s.
Proof.
  induction s as [|c' s IH]; cbn [str_count]; [lia|].
  destruct (Ascii.eqb c' c); lia.
Qed.

Lemma str_count_app (c : ascii) (s1 s2 : string) :
  str_count c (s1 +:+ s2) = str_count c s1 + str_count c s2.
Proof.
  induction s1 as [|c' s1 IH]; [reflexivity|].
  change (String c' s1 +:+ s2) with (String c' (s1 +:+ s2)).
  cbn [str_count]. rewrite IH. lia.
Qed.

Lemma str_count_mul (c c' : ascii) (k : nat) :
  str_count c (str_mul_nat (String c' EmptyString) k)
  = if Ascii.eqb c' c then Z.of_nat k else 0.
Proof.
  induction k as [|k IH]; [destruct (Ascii.eqb c' c); reflexivity|].
  change (str_mul_nat (String c' EmptyString) (S k))
    with (String c' (str_mul_nat (String c' EmptyString) k)).
  cbn [str_count]. rewrite IH. destruct (Ascii.eqb c' c); lia.
Qed.

(** Counting, length and alphabet only depend on the characters of a
    string up to their order. *)
Lemma str_count_permutation (c : ascii) (s1 s2 : string) :
  list_ascii_of_string s1 ≡ₚ list_ascii_of_string s2 →
  str_count c s1 = str_count c s2.
Proof.
  assert (Hl : ∀ s, str_count c s
                    = foldr (λ c' acc, (if Ascii.eqb c' c then 1 else 0) + acc) 0
                        (list_ascii_of_string s)).
  { induction s as [|c' s IH]; [reflexivity|]. cbn. rewrite IH. reflexivity. }
  rewrite !Hl. intros Hp. induction Hp as [|x l l' _ IH|x y l|l l' l'' _ IH1 _ IH2];
    cbn; lia.
Qed.

Lemma str_len_permutation (s1 s2 : string) :
  list_ascii_of_string s1 ≡ₚ list_ascii_of_string s2 → str_len s1 = str_len s2.
Proof.
  assert (Hl : ∀ s, String.length s = length (list_ascii_of_string s)).
  { induction s as [|c' s IH]; [reflexivity|]. cbn. rewrite IH. reflexivity. }
  unfold str_len. rewrite !Hl. intros Hp. rewrite (Permutation_length Hp).
  reflexivity.
Qed.

Lemma str_all_permutation (p : ascii → bool) (s1 s2 : string) :
  list_ascii_of_string s1 ≡ₚ list_ascii_of_string s2 →
  str_all p s1 = str_all p s2.
Proof.
  assert (Hl : ∀ s, str_all p s = forallb p (list_ascii_of_string s)).
  { induction s as [|c' s IH]; [reflexivity|]. cbn. rewrite IH. reflexivity. }
  rewrite !Hl. intros Hp. induction Hp as [|x l l' _ IH|x y l|l l' l'' _ IH1 _ IH2];
    cbn; [reflexivity|rewrite IH; reflexivity| |congruence].
  destruct (p x), (p y); reflexivity.
Qed.

Lemma str_count_zero_get (c : ascii) (s : string) (i : nat) :
  str_count c s = 0 → String.get i s ≠ Some c.
Proof.
  revert i. induction s as [|c' s IH]; intros i; cbn [str_count];
    [destruct i; discriminate|].
  pose proof (str_count_nonneg c s) as Hnn.
  destruct (Ascii.eqb_spec c' c) as [->|Hne]; [lia|].
  intros Hz. destruct i as [|i]; cbn; [congruence|]. apply IH. lia.
Qed.

End StringCounts.

Section Counters.

Lemma count_gates_app (p : Instruction → bool) (g1 g2 : list Instruction) :
  count_gates p (g1 ++ g2) = count_gates p g1 + count_gates p g2.
Proof. induction g1 as [|g g1 IH]; cbn; [reflexivity|]. rewrite IH. lia. Qed.

Lemma count_gates_flips (p : Instruction → bool) (qubits : list Qubit) (i : Z) :
  (∀ q, p (X q) = false) → count_gates p (flips qubits i) = 0.
Proof.
  intros Hp. unfold flips. induction (zero_positions _ i) as [|j l IH]; [reflexivity|].
  cbn. rewrite Hp, IH. reflexivity.
Qed.

(** One controlled flip per ['1'] of the bitstring. *)
Lemma custom_term_controlled_flips (s : string) (qubits : list Qubit)
    (target : Qubit) (i : Z) :
  count_gates is_controlled_flip (custom_term_gates s qubits target i)
  = if decide (String.get (Z.to_nat i) s = Some "1"%char) then 1 else 0.
Proof.
  unfold custom_term_gates. destruct (decide _); [|reflexivity].
  rewrite !count_gates_app, count_gates_flips by reflexivity.
  unfold controlled_flip. destruct (_ =? 1); reflexivity.
Qed.

(** The bit-flips of an input qubit come in pairs. *)
Lemma custom_term_flips_even (s : string) (qubits : list Qubit) (target q : Qubit)
    (i : Z) :
  Z.even (count_gates (is_flip_of q) (custom_term_gates s qubits target i)) = true.
Proof.
  unfold custom_term_gates. destruct (decide _); [|reflexivity].
  rewrite !count_gates_app.
  assert (Hcf : count_gates (is_flip_of q) [controlled_flip qubits target] = 0)
    by (unfold controlled_flip; destruct (_ =? 1); reflexivity).
  rewrite Hcf.
  replace (count_gates (is_flip_of q) (flips qubits i) +
           (0 + count_gates (is_flip_of q) (flips qubits i)))
    with (2 * count_gates (is_flip_of q) (flips qubits i)) by lia.
  apply Z.even_mul.
Qed.

Lemma count_controlled_flips_from (T s : string) (qubits : list Qubit)
    (target : Qubit) (k : nat) :
  (∀ j, String.get (k + j) T = String.get j s) →
  count_gates is_controlled_flip
    (flat_map (custom_term_gates T qubits target)
       (seqZ (Z.of_nat k) (Z.of_nat (String.length s))))
  = str_count "1" s.
Proof.
  revert k. induction s as [|c s IH]; intros k Hget; [reflexivity|].
  cbn [String.length str_count]. rewrite Nat2Z.inj_succ, seqZ_cons by lia.
  cbn [flat_map]. rewrite count_gates_app, custom_term_controlled_flips.
  rewrite Nat2Z.id. specialize (Hget 0%nat) as Hhead.
  rewrite Nat.add_0_r in Hhead. cbn in Hhead. rewrite Hhead.
  replace (Z.succ (Z.of_nat k)) with (Z.of_nat (S k)) by lia.
  replace (Z.pred (Z.succ (Z.of_nat (String.length s))))
    with (Z.of_nat (String.length s)) by lia.
  rewrite IH.
  - destruct (Ascii.eqb_spec c "1"%char) as [->|Hne].
    + rewrite decide_True by reflexivity. reflexivity.
    + rewrite decide_False by congruence. reflexivity.
  - intros j. specialize (Hget (S j)). cbn in Hget.
    replace (S k + j)%nat with (k + S j)%nat by lia. exact Hget.
Qed.

Lemma count_flat_map_even {A : Type} (p : Instruction → bool)
    (f : A → list Instruction) (l : list A) :
  (∀ x, Z.even (count_gates p (f x)) = true) →
  Z.even (count_gates p (flat_map f l)) = true.
Proof.
  intros Hf. induction l as [|x l IH]; [reflexivity|].
  cbn [flat_map]. rewrite count_gates_app, Z.even_add, Hf, IH. reflexivity.
Qed.

End Counters.

Section OracleLayouts.

Import DeutschJozsa.

(** The balanced branch of [_create_oracle]: a controlled bit-flip from
    every qubit of the register onto the target. *)
Lemma balanced_oracle_emits (qubits : list Qubit) (target : Qubit)
    (qc : QuantumCircuit) :
  qubits ≠ [] →
  (q ← getitem qubits 0;
   for_each (range2 1 (Z.of_nat (length qubits))) (λ i qc,
     q ← getitem qubits i; Val (append (CX q target) qc))
     (append (CX q target) qc))
  = Val (extend qc ((λ q, CX q target) <$> qubits)).
Proof.
  intros Hne. destruct qubits as [|q0 rest]; [contradiction|].
  change (getitem (q0 :: rest) 0) with (Val q0). cbn [mbind res_bind].
  rewrite (for_each_emits _ _ (λ i, [CX ((q0 :: rest) !!! Z.to_nat i) target])).
  - rewrite append_extend, extend_extend, flat_map_singleton. do 2 f_equal.
    cbn [fmap list_fmap app]. f_equal. unfold range2. cbn [length].
    replace (Z.of_nat (S (length rest)) - 1) with (Z.of_nat (length rest)) by lia.
    rewrite <- (list_by_index rest 1) at 2.
    rewrite <- list_fmap_compose. apply list_fmap_ext.
    intros j i Hi. apply lookup_seqZ in Hi as [-> Hi]. cbn.
    replace (Z.to_nat (1 + Z.of_nat j)) with (S j) by lia.
    replace (Z.to_nat (1 + Z.of_nat j - 1)) with j by lia. reflexivity.
  - intros i qc' Hi. unfold range2 in Hi. apply elem_of_seqZ in Hi.
    rewrite (getitem_nonneg (q0 :: rest) i) by lia. reflexivity.
Qed.

(** On a valid configuration the oracle synthesizer appends the gates of
    [oracle_gates] to the circuit. *)
Lemma create_oracle_emits (self : DeutschJozsaAlgorithm) (qc : QuantumCircuit)
    (qubits : list Qubit) (target : Qubit) :
  valid_config self →
  Z.of_nat (length qubits) = n_qubits self →
  _create_oracle self qc qubits target
  = Val (extend qc (oracle_gates self qubits target)).
Proof.
  intros (Hn & Hty & _ & _ & Hcustom) Hlen.
  apply list_elem_of_In in Hty. cbn in Hty.
  destruct Hty as [Hty|[Hty|[Hty|[]]]]; symmetry in Hty;
    unfold _create_oracle, oracle_gates; rewrite Hty;
    cbn [String.eqb Ascii.eqb Bool.eqb].
  - destruct (constant_value self =? 1); [reflexivity|].
    rewrite extend_nil. reflexivity.
  - apply balanced_oracle_emits. intros ->. cbn in Hlen. lia.
  - destruct (Hcustom Hty) as (s & Hs & Hslen & _). rewrite Hs.
    unfold custom_oracle_gates.
    apply for_each_emits. intros i qc' Hi. apply range_elem in Hi.
    rewrite Hlen in Hi.
    apply custom_term_emits; rewrite ?Hlen; [exact Hslen|exact Hi|lia].
Qed.

End OracleLayouts.

Section DeutschJozsaExtras.

Import DeutschJozsa.

(** The object that the constructor returns keeps its arguments. *)
Lemma init_fields (shuffle : string → string) (n : Z) (ty : string) (cv : Z)
    (bits : option string) (sh : Z) (self : DeutschJozsaAlgorithm) :
  __init__ shuffle n ty cv bits sh = Val self →
  self = mkDJ n ty cv
           (match bits with
            | Some s => Some s
            | None =>
              if String.eqb ty "custom"
              then Some (_generate_random_balanced_oracle shuffle n) else None
            end) sh.
Proof.
  unfold __init__. destruct (n <=? 0); [discriminate|].
  destruct (negb _); [discriminate|]. destruct (negb _); [discriminate|].
  destruct (String.eqb ty "custom"), bits as [s|]; cbn [mbind res_bind].
  - destruct (negb _); [discriminate|]. destruct (negb _); [discriminate|].
    cbn [mbind res_bind]. destruct (sh <=? 0); [discriminate|].
    intros [= <-]. reflexivity.
  - destruct (sh <=? 0); [discriminate|]. intros [= <-]. reflexivity.
  - destruct (sh <=? 0); [discriminate|]. intros [= <-]. reflexivity.
  - destruct (sh <=? 0); [discriminate|]. intros [= <-]. reflexivity.
Qed.

(** X12. The constructor of [DeutschJozsaAlgorithm] returns an object exactly
    when [n_qubits >= 1], the oracle type is one of the three names, the
    constant value is 0 or 1, the shot count is positive and, for a custom
    oracle given with its bitstring, the bitstring has [2^n] characters all in
    ['0'], ['1']; the object keeps the arguments, a custom oracle without
    bitstring receiving the generated one; a bitstring given with another
    oracle type is kept unchecked; in every other case the constructor raises
    [ValueError]. *)
Theorem dj_init_contract (shuffle : string → string) (n : Z) (ty : string)
    (cv : Z) (bits : option string) (sh : Z) :
  let accepted :=
    1 ≤ n ∧ ty ∈ ["constant"; "balanced"; "custom"] ∧ cv ∈ [0; 1] ∧ 0 < sh ∧
    (ty = "custom" →
     ∀ s, bits = Some s → str_len s = 2 ^ n ∧ str_all is_bit s = true) in
  (accepted →
   __init__ shuffle n ty cv bits sh
   = Val (mkDJ n ty cv
            (match bits with
             | Some s => Some s
             | None =>
               if String.eqb ty "custom"
               then Some (_generate_random_balanced_oracle shuffle n) else None
             end) sh)) ∧
  (¬ accepted → ∃ msg, __init__ shuffle n ty cv bits sh = Raise (ValueError msg)).
Proof.
  intros accepted. subst accepted. unfold __init__. split.
  - intros (Hn & Hty & Hcv & Hsh & Hbits).
    replace (n <=? 0) with false by (symmetry; apply Z.leb_gt; lia).
    rewrite !bool_decide_eq_true_2 by assumption. cbn [negb].
    replace (sh <=? 0) with false by (symmetry; apply Z.leb_gt; lia).
    destruct (String.eqb_spec ty "custom") as [Hc|Hc].
    + destruct bits as [s|]; [|reflexivity].
      destruct (Hbits Hc s eq_refl) as [Hlen Hall].
      apply Z.eqb_eq in Hlen. rewrite Hlen, Hall. reflexivity.
    + destruct bits; reflexivity.
  - intros Hrej.
    destruct (n <=? 0) eqn:Hn; [eauto|]. apply Z.leb_gt in Hn.
    destruct (bool_decide (ty ∈ ["constant"; "balanced"; "custom"])) eqn:Hty;
      cbn [negb]; [|eauto]. apply bool_decide_eq_true in Hty.
    destruct (bool_decide (cv ∈ [0; 1])) eqn:Hcv; cbn [negb]; [|eauto].
    apply bool_decide_eq_true in Hcv.
    destruct (String.eqb_spec ty "custom") as [Hc|Hc].
    + destruct bits as [s|].
      * destruct (str_len s =? 2 ^ n) eqn:Hlen; cbn [negb]; [|cbn; eauto].
        destruct (str_all is_bit s) eqn:Hall; cbn [negb]; [|cbn; eauto].
        cbn [mbind res_bind]. destruct (sh <=? 0) eqn:Hsh; [eauto|].
        exfalso. apply Hrej. apply Z.leb_gt in Hsh. apply Z.eqb_eq in Hlen.
        repeat (split; [assumption || lia|]).
        intros _ s' [= <-]. split; assumption.
      * cbn [mbind res_bind]. destruct (sh <=? 0) eqn:Hsh; [eauto|].
        exfalso. apply Hrej. apply Z.leb_gt in Hsh.
        repeat (split; [assumption || lia|]). intros _ s' [=].
    + cbn [mbind res_bind]. destruct (sh <=? 0) eqn:Hsh; [eauto|].
      exfalso. apply Hrej. apply Z.leb_gt in Hsh.
      repeat (split; [assumption || lia|]). intros Hc'. contradiction.
Qed.

Lemma dj_init_contract_witness :
  __init__ (λ s, s) 3 "balanced" 0 (Some "not checked") 1024
  = Val (mkDJ 3 "balanced" 0 (Some "not checked") 1024) ∧
  ∃ msg, __init__ (λ s, s) 3 "parity" 0 None 1024 = Raise (ValueError msg).
Proof.
  destruct (dj_init_contract (λ s, s) 3 "balanced" 0 (Some "not checked") 1024)
    as [Hacc _].
  destruct (dj_init_contract (λ s, s) 3 "parity" 0 None 1024) as [_ Hrej].
  split.
  - apply Hacc. repeat split; try lia.
    + apply list_elem_of_In. cbn. tauto.
    + apply list_elem_of_In. cbn. tauto.
    + discriminate.
    + discriminate.
  - apply Hrej. intros (_ & Hty & _). apply list_elem_of_In in Hty. cbn in Hty.
    destruct Hty as [Hty|[Hty|[Hty|[]]]]; discriminate.
Defined.

(** X13. A custom oracle built without bitstring is balanced whenever
    [random.shuffle] permutes its argument: the generated bitstring has [2^n]
    characters, half of them ['1'] and half ['0'], and [validate_oracle]
    answers ["balanced"]. *)
Theorem random_balanced_oracle_is_balanced (shuffle : string → string)
    (n cv sh : Z) :
  (∀ s, list_ascii_of_string (shuffle s) ≡ₚ list_ascii_of_string s) →
  1 ≤ n → cv ∈ [0; 1] → 0 < sh →
  ∃ self s,
    __init__ shuffle n "custom" cv None sh = Val self ∧
    custom_bitstring self = Some s ∧
    s = _generate_random_balanced_oracle shuffle n ∧
    str_len s = 2 ^ n ∧
    str_all is_bit s = true ∧
    str_count "1" s = 2 ^ (n - 1) ∧
    str_count "0" s = 2 ^ (n - 1) ∧
    validate_oracle self = Val (Some "balanced").
Proof.
  intros Hperm Hn Hcv Hsh.
  set (s := _generate_random_balanced_oracle shuffle n).
  assert (Hhalf : 0 ≤ 2 ^ (n - 1)) by (apply Z.pow_nonneg; lia).
  assert (Hpow : 2 ^ n = 2 * 2 ^ (n - 1)).
  { replace n with (Z.succ (n - 1)) at 1 by lia. apply Z.pow_succ_r. lia. }
  assert (Hcount : ∀ c, str_count c s
                        = (if Ascii.eqb "0" c then 2 ^ (n - 1) else 0)
                          + (if Ascii.eqb "1" c then 2 ^ (n - 1) else 0)).
  { intros c. subst s. unfold _generate_random_balanced_oracle.
    rewrite (str_count_permutation c _ _ (Hperm _)), str_count_app.
    unfold str_mul. rewrite !str_count_mul, half_of_pow2 by lia.
    rewrite Z2Nat.id by lia. reflexivity. }
  assert (Hlen : str_len s = 2 ^ n).
  { subst s. unfold _generate_random_balanced_oracle.
    rewrite (str_len_permutation _ _ (Hperm _)). unfold str_len.
    rewrite str_length_app, Nat2Z.inj_add. unfold str_mul.
    rewrite !str_mul_nat_length, half_of_pow2 by lia. lia. }
  assert (Hall : str_all is_bit s = true).
  { subst s. unfold _generate_random_balanced_oracle.
    rewrite (str_all_permutation _ _ _ (Hperm _)), str_all_app. unfold str_mul.
    rewrite !str_all_mul by reflexivity. reflexivity. }
  exists (mkDJ n "custom" cv (Some s) sh), s.
  split.
  { unfold __init__.
    replace (n <=? 0) with false by (symmetry; apply Z.leb_gt; lia).
    rewrite bool_decide_eq_true_2 by (apply list_elem_of_In; cbn; tauto).
    rewrite bool_decide_eq_true_2 by assumption.
    replace (sh <=? 0) with false by (symmetry; apply Z.leb_gt; lia).
    reflexivity. }
  split; [reflexivity|]. split; [reflexivity|]. split; [exact Hlen|].
  split; [exact Hall|]. split; [rewrite Hcount; cbn; lia|].
  split; [rewrite Hcount; cbn; lia|].
  unfold validate_oracle. cbn [oracle_type custom_bitstring String.eqb Ascii.eqb
                                Bool.eqb mbind res_bind].
  rewrite Hlen, (Hcount "1"%char), half_of_pow2 by lia.
  cbn [Ascii.eqb Bool.eqb]. rewrite Z.add_0_l.
  replace (2 ^ (n - 1) =? 0) with false
    by (symmetry; apply Z.eqb_neq; pose proof (Z.pow_pos_nonneg 2 (n - 1)); lia).
  replace (2 ^ (n - 1) =? 2 ^ n) with false
    by (symmetry; apply Z.eqb_neq; pose proof (Z.pow_pos_nonneg 2 (n - 1)); lia).
  rewrite Z.eqb_refl. reflexivity.
Qed.

Lemma random_balanced_oracle_is_balanced_witness :
  ∃ self s,
    __init__ (λ s, s) 2 "custom" 0 None 1024 = Val self ∧
    custom_bitstring self = Some s ∧
    s = _generate_random_balanced_oracle (λ s, s) 2 ∧
    str_len s = 2 ^ 2 ∧
    str_all is_bit s = true ∧
    str_count "1" s = 2 ^ (2 - 1) ∧
    str_count "0" s = 2 ^ (2 - 1) ∧
    validate_oracle self = Val (Some "balanced").
Proof.
  apply (random_balanced_oracle_is_balanced (λ s, s) 2 0 1024).
  - intros s. reflexivity.
  - lia.
  - apply list_elem_of_In. cbn. tauto.
  - lia.
Defined.

(** X14. The oracle of a constant function is empty for the value 0 and a
    single bit-flip of the target for the value 1; the oracle of the balanced
    function is one controlled bit-flip onto the target from each qubit of the
    register, in the order of the register. *)
Theorem create_oracle_constant_and_balanced (self : DeutschJozsaAlgorithm)
    (qc : QuantumCircuit) (qubits : list Qubit) (target : Qubit) :
  (oracle_type self = "constant" →
   _create_oracle self qc qubits target
   = Val (extend qc (if decide (constant_value self = 1) then [X target] else []))) ∧
  (oracle_type self = "balanced" → qubits ≠ [] →
   _create_oracle self qc qubits target
   = Val (extend qc ((λ q, CX q target) <$> qubits))).
Proof.
  split.
  - intros Hty. unfold _create_oracle. rewrite Hty.
    cbn [String.eqb Ascii.eqb Bool.eqb].
    destruct (Z.eqb_spec (constant_value self) 1) as [Hcv|Hcv].
    + rewrite decide_True by exact Hcv. reflexivity.
    + rewrite decide_False by exact Hcv. rewrite extend_nil. reflexivity.
  - intros Hty Hne. unfold _create_oracle. rewrite Hty.
    cbn [String.eqb Ascii.eqb Bool.eqb].
    apply balanced_oracle_emits, Hne.
Qed.

Lemma create_oracle_constant_and_balanced_witness :
  _create_oracle (mkDJ 3 "balanced" 0 None 1024) (mkCircuit [] [] [])
    (QuantumRegister 3 "input") (mkQubit "output" 0)
  = Val (mkCircuit [] []
           [CX (mkQubit "input" 0) (mkQubit "output" 0);
            CX (mkQubit "input" 1) (mkQubit "output" 0);
            CX (mkQubit "input" 2) (mkQubit "output" 0)]) ∧
  _create_oracle (mkDJ 3 "constant" 1 None 1024) (mkCircuit [] [] [])
    (QuantumRegister 3 "input") (mkQubit "output" 0)
  = Val (mkCircuit [] [] [X (mkQubit "output" 0)]).
Proof.
  destruct (create_oracle_constant_and_balanced (mkDJ 3 "balanced" 0 None 1024)
              (mkCircuit [] [] []) (QuantumRegister 3 "input")
              (mkQubit "output" 0)) as [_ Hb].
  destruct (create_oracle_constant_and_balanced (mkDJ 3 "constant" 1 None 1024)
              (mkCircuit [] [] []) (QuantumRegister 3 "input")
              (mkQubit "output" 0)) as [Hc _].
  split.
  - rewrite (Hb eq_refl) by (vm_compute; discriminate). reflexivity.
  - rewrite (Hc eq_refl). reflexivity.
Defined.

(** X15. The custom oracle costs one controlled bit-flip ([cx] or [mcx]) per
    ['1'] of the bitstring and flips every input qubit an even number of
    times; for a bitstring without ['1'] it adds no gate at all. *)
Theorem custom_oracle_gate_counts (self : DeutschJozsaAlgorithm)
    (qc : QuantumCircuit) (qubits : list Qubit) (target : Qubit) (s : string) :
  1 ≤ Z.of_nat (length qubits) →
  oracle_type self = "custom" →
  custom_bitstring self = Some s →
  str_len s = 2 ^ Z.of_nat (length qubits) →
  ∃ gates,
    _create_oracle self qc qubits target = Val (extend qc gates) ∧
    count_gates is_controlled_flip gates = str_count "1" s ∧
    (∀ q, Z.even (count_gates (is_flip_of q) gates) = true) ∧
    (str_count "1" s = 0 → gates = []).
Proof.
  intros Hn Hty Hs Hlen. exists (custom_oracle_gates s qubits target).
  split; [|split; [|split]].
  - unfold _create_oracle, custom_oracle_gates. rewrite Hty, Hs.
    cbn [String.eqb Ascii.eqb Bool.eqb].
    apply for_each_emits. intros i qc' Hi. apply range_elem in Hi.
    apply custom_term_emits; assumption.
  - unfold custom_oracle_gates, range. rewrite <- Hlen. unfold str_len.
    apply (count_controlled_flips_from s s qubits target 0). reflexivity.
  - intros q. unfold custom_oracle_gates. apply count_flat_map_even.
    intros i. apply custom_term_flips_even.
  - intros Hzero. unfold custom_oracle_gates.
    induction (range _) as [|i l IH]; [reflexivity|].
    cbn [flat_map]. rewrite IH. unfold custom_term_gates.
    rewrite decide_False by (apply str_count_zero_get, Hzero). reflexivity.
Qed.

Lemma custom_oracle_gate_counts_witness :
  ∃ gates,
    _create_oracle (mkDJ 2 "custom" 0 (Some "0111") 1024) (mkCircuit [] [] [])
      (QuantumRegister 2 "input") (mkQubit "output" 0)
    = Val (extend (mkCircuit [] [] []) gates) ∧
    count_gates is_controlled_flip gates = 3 ∧
    (∀ q, Z.even (count_gates (is_flip_of q) gates) = true) ∧
    (3 = 0 → gates = []).
Proof.
  apply (custom_oracle_gate_counts (mkDJ 2 "custom" 0 (Some "0111") 1024)
           (mkCircuit [] [] []) (QuantumRegister 2 "input")
           (mkQubit "output" 0) "0111");
    [vm_compute; discriminate|reflexivity|reflexivity|reflexivity].
Defined.

(** The circuit of [get_circuit], gate by gate. *)
Lemma get_circuit_emits (self : DeutschJozsaAlgorithm) :
  valid_config self →
  get_circuit self
  = Val (mkCircuit [QuantumRegister (n_qubits self) "input";
                    QuantumRegister 1 "output"]
                   [ClassicalRegister (n_qubits self) "c"]
                   (dj_gates self)).
Proof.
  intros Hv. pose proof Hv as (Hn & _). unfold get_circuit, dj_gates.
  rewrite (register_getitem 1 "output" 0) by lia. cbn [mbind res_bind].
  rewrite register_loop_emits. cbn [mbind res_bind].
  rewrite create_oracle_emits by (exact Hv || (apply register_length; lia)).
  cbn [mbind res_bind]. rewrite register_loop_emits. cbn [mbind res_bind].
  unfold measure, measure_gates. rewrite !append_extend, !extend_extend.
  unfold extend. cbn [qregs cregs data]. rewrite app_nil_l. reflexivity.
Qed.

(** X16. The circuit of [get_circuit] on a valid configuration: registers
    [input] ([n] qubits) and [output] (one qubit), one classical register of
    [n] bits; a bit-flip of the output qubit, Hadamard gates on the input
    qubits and on the output qubit, the gates of the oracle, Hadamard gates on
    the input qubits, and the measurement of input qubit [i] into bit [i] for
    every [i < n]; the output qubit is not measured. Outside the oracle the
    circuit has [3n + 2] instructions. *)
Theorem get_circuit_layout (self : DeutschJozsaAlgorithm) :
  valid_config self →
  get_circuit self
  = Val (mkCircuit [QuantumRegister (n_qubits self) "input";
                    QuantumRegister 1 "output"]
                   [ClassicalRegister (n_qubits self) "c"]
                   (dj_gates self)) ∧
  measure_gates (QuantumRegister (n_qubits self) "input")
    (ClassicalRegister (n_qubits self) "c")
  = (λ i, Measure (mkQubit "input" i) (mkClbit "c" i)) <$> range (n_qubits self) ∧
  Z.of_nat (length (dj_gates self))
  = 3 * n_qubits self + 2
    + Z.of_nat (length (oracle_gates self (QuantumRegister (n_qubits self) "input")
                          (mkQubit "output" 0))).
Proof.
  intros Hv. pose proof Hv as (Hn & _).
  split; [apply get_circuit_emits, Hv|].
  split; [apply measure_gates_registers|].
  unfold dj_gates. rewrite measure_gates_registers.
  rewrite !length_app, !length_fmap. cbn [length].
  pose proof (register_length (n_qubits self) "input" ltac:(lia)) as Hlen.
  pose proof (length_range (n_qubits self) ltac:(lia)) as Hrange.
  lia.
Qed.

Lemma get_circuit_layout_witness :
  get_circuit (mkDJ 2 "balanced" 0 None 1024)
  = Val (mkCircuit [QuantumRegister 2 "input"; QuantumRegister 1 "output"]
                   [ClassicalRegister 2 "c"]
                   [X (mkQubit "output" 0);
                    H (mkQubit "input" 0); H (mkQubit "input" 1);
                    H (mkQubit "output" 0);
                    CX (mkQubit "input" 0) (mkQubit "output" 0);
                    CX (mkQubit "input" 1) (mkQubit "output" 0);
                    H (mkQubit "input" 0); H (mkQubit "input" 1);
                    Measure (mkQubit "input" 0) (mkClbit "c" 0);
                    Measure (mkQubit "input" 1) (mkClbit "c" 1)]).
Proof.
  destruct (get_circuit_layout (mkDJ 2 "balanced" 0 None 1024)) as (Hqc & _ & _).
  - repeat split; cbn; try lia.
    + apply list_elem_of_In. cbn. tauto.
    + apply list_elem_of_In. cbn. tauto.
    + discriminate.
  - rewrite Hqc. reflexivity.
Defined.



End DeutschJozsaExtras.

(** ** Well-formed circuits *)

Section WellFormed.

Variable qc : QuantumCircuit.

Lemma well_formed_one (g : Instruction) (q : Qubit) :
  instruction_qubits g = [q] → instruction_clbits g = [] →
  q ∈ concat (qregs qc) → well_formed qc g.
Proof.
  intros Hq Hc Hin. unfold well_formed. rewrite Hq, Hc.
  split; [apply NoDup_singleton|]. split.
  - intros q' Hq'. apply list_elem_of_singleton in Hq'. subst q'. exact Hin.
  - intros c Hc'. inversion Hc'.
Qed.

Lemma well_formed_two (g : Instruction) (a b : Qubit) :
  instruction_qubits g = [a; b] → instruction_clbits g = [] →
  a ≠ b → a ∈ concat (qregs qc) → b ∈ concat (qregs qc) → well_formed qc g.
Proof.
  intros Hq Hc Hne Ha Hb. unfold well_formed. rewrite Hq, Hc. split; [|split].
  - apply list.NoDup_cons. split; [|apply NoDup_singleton].
    rewrite list_elem_of_singleton. exact Hne.
  - intros q' Hq'. apply elem_of_cons in Hq' as [->|Hq']; [exact Ha|].
    apply list_elem_of_singleton in Hq'. subst q'. exact Hb.
  - intros c Hc'. inversion Hc'.
Qed.

Lemma well_formed_measure (q : Qubit) (c : Clbit) :
  q ∈ concat (qregs qc) → c ∈ concat (cregs qc) → well_formed qc (Measure q c).
Proof.
  intros Hq Hc. unfold well_formed. cbn [instruction_qubits instruction_clbits].
  split; [apply NoDup_singleton|]. split.
  - intros q' Hq'. apply list_elem_of_singleton in Hq'. subst q'. exact Hq.
  - intros c' Hc'. apply list_elem_of_singleton in Hc'. subst c'. exact Hc.
Qed.

Lemma well_formed_mcx (controls : list Qubit) (target : Qubit) :
  NoDup controls → target ∉ controls →
  (∀ q, q ∈ controls → q ∈ concat (qregs qc)) → target ∈ concat (qregs qc) →
  well_formed qc (MCX controls target).
Proof.
  intros Hnd Ht Hcs Hin. unfold well_formed.
  cbn [instruction_qubits instruction_clbits]. split; [|split].
  - apply list.NoDup_app. split; [exact Hnd|]. split; [|apply NoDup_singleton].
    intros q Hq Hq'. apply list_elem_of_singleton in Hq'. subst q. contradiction.
  - intros q Hq. apply elem_of_app in Hq as [Hq|Hq]; [apply Hcs, Hq|].
    apply list_elem_of_singleton in Hq. subst q. exact Hin.
  - intros c Hc. inversion Hc.
Qed.

End WellFormed.

Section DeutschJozsaWellFormed.

Import DeutschJozsa.

Variable self : DeutschJozsaAlgorithm.

Hypothesis Hvalid : valid_config self.

Local Abbreviation input := (QuantumRegister (n_qubits self) "input").

Local Abbreviation out := (mkQubit "output" 0).

Local Abbreviation circuit :=
  (mkCircuit [QuantumRegister (n_qubits self) "input"; QuantumRegister 1 "output"]
     [ClassicalRegister (n_qubits self) "c"] (dj_gates self)).

Lemma dj_input_in (q : Qubit) : q ∈ input → q ∈ concat (qregs circuit).
Proof. intros Hq. cbn [qregs concat]. apply elem_of_app. left. exact Hq. Qed.

Lemma dj_output_in : out ∈ concat (qregs circuit).
Proof.
  cbn [qregs concat]. apply elem_of_app. right. apply elem_of_app. left.
  apply register_elem. exists 0. split; [lia|reflexivity].
Qed.

Lemma dj_input_not_output (q : Qubit) : q ∈ input → q ≠ out.
Proof. intros Hq. apply register_elem in Hq as (i & _ & ->). discriminate. Qed.

Lemma dj_flips_well_formed (i : Z) :
  Forall (well_formed circuit) (flips input i).
Proof.
  destruct Hvalid as (Hn & _).
  unfold flips. apply Forall_fmap, list.Forall_forall. intros j Hj.
  unfold zero_positions in Hj. apply list_elem_of_filter in Hj as [_ Hj].
  apply range_elem in Hj. rewrite register_length in Hj by lia.
  apply (well_formed_one circuit _ (qubit_at input j)); [reflexivity..|].
  apply dj_input_in. rewrite qubit_at_register by lia.
  apply register_elem. exists j. split; [lia|reflexivity].
Qed.

Lemma dj_controlled_flip_well_formed :
  well_formed circuit (controlled_flip input out).
Proof.
  destruct Hvalid as (Hn & _). unfold controlled_flip.
  rewrite register_length by lia. destruct (n_qubits self =? 1) eqn:H1.
  - assert (Hq : qubit_at input 0 ∈ input).
    { rewrite qubit_at_register by lia. apply register_elem.
      exists 0. split; [lia|reflexivity]. }
    apply (well_formed_two circuit _ (qubit_at input 0) out); [reflexivity..| | |].
    + apply dj_input_not_output, Hq.
    + apply dj_input_in, Hq.
    + apply dj_output_in.
  - apply well_formed_mcx.
    + apply register_NoDup.
    + intros Hin. apply (dj_input_not_output out Hin). reflexivity.
    + apply dj_input_in.
    + apply dj_output_in.
Qed.

Lemma dj_oracle_well_formed :
  Forall (well_formed circuit) (oracle_gates self input out).
Proof.
  unfold oracle_gates. destruct (String.eqb (oracle_type self) "constant").
  { destruct (constant_value self =? 1); [|apply Forall_nil; exact I].
    apply Forall_cons; [|apply Forall_nil; exact I].
    apply (well_formed_one circuit _ out); [reflexivity..|apply dj_output_in]. }
  destruct (String.eqb (oracle_type self) "balanced").
  { apply Forall_fmap, list.Forall_forall. intros q Hq.
    apply (well_formed_two circuit _ q out); [reflexivity..| | |].
    - apply dj_input_not_output, Hq.
    - apply dj_input_in, Hq.
    - apply dj_output_in. }
  destruct (custom_bitstring self) as [s|]; [|apply Forall_nil; exact I].
  unfold custom_oracle_gates. apply list.Forall_forall. intros g Hg.
  apply list_elem_of_In, in_flat_map in Hg as (i & _ & Hg).
  apply list_elem_of_In in Hg. unfold custom_term_gates in Hg.
  destruct (decide _); [|inversion Hg].
  pose proof (dj_flips_well_formed i) as Hflips.
  apply elem_of_app in Hg as [Hg|Hg];
    [exact (proj1 (list.Forall_forall _ _) Hflips g Hg)|].
  apply elem_of_app in Hg as [Hg|Hg];
    [|exact (proj1 (list.Forall_forall _ _) Hflips g Hg)].
  apply list_elem_of_singleton in Hg. subst g.
  apply dj_controlled_flip_well_formed.
Qed.

Lemma dj_gates_well_formed : Forall (well_formed circuit) (dj_gates self).
Proof.
  destruct Hvalid as (Hn & _).
  assert (Hhadamard : Forall (well_formed circuit) (H <$> input)).
  { apply Forall_fmap, list.Forall_forall. intros q Hq.
    apply (well_formed_one circuit _ q); [reflexivity..|apply dj_input_in, Hq]. }
  unfold dj_gates. repeat apply Forall_app_2.
  - apply Forall_cons; [|apply Forall_nil; exact I].
    apply (well_formed_one circuit _ out); [reflexivity..|apply dj_output_in].
  - exact Hhadamard.
  - apply Forall_cons; [|apply Forall_nil; exact I].
    apply (well_formed_one circuit _ out); [reflexivity..|apply dj_output_in].
  - apply dj_oracle_well_formed.
  - exact Hhadamard.
  - rewrite measure_gates_registers. apply Forall_fmap, list.Forall_forall.
    intros i Hi. apply range_elem in Hi. apply well_formed_measure.
    + apply dj_input_in, register_elem. exists i. split; [lia|reflexivity].
    + cbn [cregs concat]. apply elem_of_app. left.
      unfold ClassicalRegister. apply list_elem_of_fmap. exists i.
      split; [reflexivity|]. apply range_elem. lia.
Qed.

End DeutschJozsaWellFormed.

Section PeriodWellFormed.

Import Shor.

Variables (self : ShorsAlgorithm) (a : Z) (qc : QuantumCircuit).

Hypothesis Hn : 1 ≤ n self.

Hypothesis Hqregs :
  qregs qc = [QuantumRegister (2 * n self) "count"; QuantumRegister (n self) "power"].

Hypothesis Hcregs : cregs qc = [ClassicalRegister (2 * n self) "c"].

Local Abbreviation count := (QuantumRegister (2 * n self) "count").

Local Abbreviation power := (QuantumRegister (n self) "power").

Lemma period_count_in (i : Z) :
  0 ≤ i < 2 * n self → mkQubit "count" i ∈ concat (qregs qc).
Proof.
  intros Hi. rewrite Hqregs. cbn [concat]. apply elem_of_app. left.
  apply register_elem. exists i. split; [lia|reflexivity].
Qed.

Lemma period_power_in (k : Z) :
  0 ≤ k < n self → mkQubit "power" k ∈ concat (qregs qc).
Proof.
  intros Hk. rewrite Hqregs. cbn [concat]. apply elem_of_app. right.
  apply elem_of_app. left.
  apply register_elem. exists k. split; [lia|reflexivity].
Qed.

Lemma period_cmm_well_formed (i pw : Z) :
  0 ≤ i < 2 * n self →
  Forall (well_formed qc) (cmm_gates (mkQubit "count" i) power pw).
Proof.
  intros Hi. unfold cmm_gates. apply Forall_fmap, list.Forall_forall.
  intros k Hk. apply range_elem in Hk. rewrite register_length in Hk by lia.
  cbn [compose]. rewrite qubit_at_register by lia.
  apply (well_formed_two qc _ (mkQubit "count" i) (mkQubit "power" k));
    [reflexivity..|discriminate|apply period_count_in, Hi|apply period_power_in, Hk].
Qed.

Lemma period_iqft_well_formed : Forall (well_formed qc) (iqft_gates count).
Proof.
  assert (Hlen : Z.of_nat (length count) = 2 * n self)
    by (apply register_length; lia).
  unfold iqft_gates. apply Forall_app_2.
  - unfold iqft_swaps. rewrite Hlen. apply Forall_fmap, list.Forall_forall.
    intros i Hi. apply range_elem in Hi. cbn [compose].
    replace (2 * n self / 2) with (n self) in Hi by (apply Z.div_unique_exact; lia).
    rewrite !qubit_at_register by lia.
    apply (well_formed_two qc _ (mkQubit "count" i)
             (mkQubit "count" (2 * n self - 1 - i)));
      [reflexivity..| |apply period_count_in; lia|apply period_count_in; lia].
    intros [= Heq]. lia.
  - rewrite Hlen. apply list.Forall_forall. intros g Hg.
    apply list_elem_of_In, in_flat_map in Hg as (j & Hj & Hg).
    apply list_elem_of_In, range_elem in Hj. apply list_elem_of_In in Hg.
    unfold iqft_rotations in Hg. apply elem_of_app in Hg as [Hg|Hg].
    + apply list_elem_of_fmap in Hg as (k & -> & Hk). apply range_elem in Hk.
      rewrite !qubit_at_register by lia.
      apply (well_formed_two qc _ (mkQubit "count" k) (mkQubit "count" j));
        [reflexivity..| |apply period_count_in; lia|apply period_count_in; lia].
      intros [= Heq]. lia.
    + apply list_elem_of_singleton in Hg. subst g.
      rewrite qubit_at_register by lia.
      apply (well_formed_one qc _ (mkQubit "count" j));
        [reflexivity..|apply period_count_in; lia].
Qed.

Lemma period_gates_well_formed : Forall (well_formed qc) (period_gates self a).
Proof.
  unfold period_gates.
  apply Forall_app_2; [|apply Forall_app_2; [|apply Forall_app_2;
                          [|apply Forall_app_2]]].
  - apply Forall_fmap, list.Forall_forall. intros q Hq.
    apply register_elem in Hq as (i & Hi & ->).
    apply (well_formed_one qc _ (mkQubit "count" i));
      [reflexivity..|apply period_count_in, Hi].
  - apply Forall_cons; [|apply Forall_nil; exact I].
    apply (well_formed_one qc _ (mkQubit "power" 0));
      [reflexivity..|apply period_power_in; lia].
  - apply list.Forall_forall. intros g Hg.
    apply list_elem_of_In, in_flat_map in Hg as (i & Hi & Hg).
    apply list_elem_of_In, range_elem in Hi. apply list_elem_of_In in Hg.
    exact (proj1 (list.Forall_forall _ _) (period_cmm_well_formed i _ Hi) g Hg).
  - apply period_iqft_well_formed.
  - rewrite measure_gates_registers. apply Forall_fmap, list.Forall_forall.
    intros i Hi. apply range_elem in Hi. apply well_formed_measure.
    + apply period_count_in, Hi.
    + rewrite Hcregs. cbn [concat]. apply elem_of_app. left.
      unfold ClassicalRegister. apply list_elem_of_fmap. exists i.
      split; [reflexivity|]. apply range_elem. lia.
Qed.

End PeriodWellFormed.

Section WellFormedCircuits.

(** X18. Every instruction of the circuit of [get_circuit] (the one that [run]
    hands to the simulator) acts on pairwise distinct qubits of the registers
    [input] and [output] of that circuit and measures into bits of its
    classical register: no controlled gate has its target among its controls. *)
Theorem get_circuit_well_formed (self : DeutschJozsa.DeutschJozsaAlgorithm) :
  valid_config self →
  ∃ qc, DeutschJozsa.get_circuit self = Val qc ∧
        Forall (well_formed qc) (data qc).
Proof.
  intros Hv. eexists. split; [apply get_circuit_emits, Hv|].
  cbn [data]. apply dj_gates_well_formed, Hv.
Qed.

Lemma get_circuit_well_formed_witness :
  ∃ qc, DeutschJozsa.get_circuit (DeutschJozsa.mkDJ 3 "custom" 0 (Some "01101001") 100)
        = Val qc ∧
        Forall (well_formed qc) (data qc).
Proof.
  apply (get_circuit_well_formed
           (DeutschJozsa.mkDJ 3 "custom" 0 (Some "01101001") 100)).
  repeat split; cbn; try lia.
  - apply list_elem_of_In. cbn. tauto.
  - apply list_elem_of_In. cbn. tauto.
  - intros _. exists "01101001". repeat split.
Defined.

(** X19. Every instruction of the period-finding circuit acts on pairwise
    distinct qubits of its registers [count] and [power] and measures into
    bits of its classical register: a swap of the inverse transform never
    pairs a qubit with itself and no rotation is controlled by its own target.
    *)
Theorem period_circuit_well_formed (self : Shor.ShorsAlgorithm) (a : Z) :
  0 < Shor.N self ≤ 2 ^ 53 →
  1 ≤ Shor.n self ≤ 512 →
  ∃ qc, Shor.period_circuit self a = Val qc ∧
        Forall (well_formed qc) (data qc).
Proof.
  intros HN Hn. eexists. split; [apply period_circuit_emits; assumption|].
  cbn [data]. apply period_gates_well_formed; [lia|reflexivity..].
Qed.

Lemma period_circuit_well_formed_witness :
  ∃ qc, Shor.period_circuit (Shor.mkShor 15 100 4) 7 = Val qc ∧
        Forall (well_formed qc) (data qc).
Proof.
  apply (period_circuit_well_formed (Shor.mkShor 15 100 4) 7); cbn; lia.
Defined.

End WellFormedCircuits.

(** ** The command line of the Deutsch-Jozsa script *)

Section CommandLineExtras.

Import DeutschJozsa.

(** [l[-1]] is the last item of a non-empty sequence. *)
Lemma getitem_last {A : Type} `{Inhabited A} (l : list A) :
  l ≠ [] → ∃ x, list.last l = Some x ∧ getitem l (-1) = Val x.
Proof.
  intros Hne. destruct (exists_last Hne) as (front & x & ->).
  exists x. split; [apply last_snoc|].
  rewrite getitem_negative by (rewrite length_app; cbn; lia).
  f_equal. apply list_lookup_total_middle. rewrite length_app. cbn. lia.
Qed.

Lemma getitem_lookup {A : Type} (l : list A) (i : Z) (x : A) :
  0 ≤ i → l !! Z.to_nat i = Some x → getitem l i = Val x.
Proof.
  intros Hi Hx. pose proof (lookup_lt_Some _ _ _ Hx) as Hlt. unfold getitem.
  replace (i <? 0) with false by (symmetry; apply Z.ltb_ge; lia).
  replace (0 <=? i) with true by (symmetry; apply Z.leb_le; lia).
  replace (i <? Z.of_nat (length l)) with true by (symmetry; apply Z.ltb_lt; lia).
  cbn. rewrite Hx. reflexivity.
Qed.

(** What the script has read when it reaches the constructor. *)
Lemma configure_reads (int_ : string → res Z) (shuffle : string → string)
    (argv : list string) (self : DeutschJozsaAlgorithm) :
  configure int_ shuffle argv = Val self →
  ∃ arg1 n ty cv sh,
    argv !! 1%nat = Some arg1 ∧ int_ arg1 = Val n ∧
    ty = default "balanced" (argv !! 2%nat) ∧
    (if (3 <? Z.of_nat (length argv)) && String.eqb ty "constant"
     then ∃ arg3, argv !! 3%nat = Some arg3 ∧ int_ arg3 = Val cv
     else cv = 0) ∧
    (if 4 <? Z.of_nat (length argv)
     then ∃ arg, list.last argv = Some arg ∧ int_ arg = Val sh
     else sh = 1024) ∧
    __init__ shuffle n ty cv None sh = Val self.
Proof.
  unfold configure. intros Hrun.
  destruct argv as [|prog [|arg1 rest]]; [discriminate..|].
  rewrite (getitem_lookup _ 1 arg1) in Hrun by (lia || reflexivity).
  cbn [mbind res_bind] in Hrun.
  destruct (int_ arg1) as [n| |] eqn:Hn; cbn [mbind res_bind] in Hrun;
    [|discriminate..].
  exists arg1, n.
  set (len := Z.of_nat (length (prog :: arg1 :: rest))) in *.
  assert (Hty : (if 2 <? len then getitem (prog :: arg1 :: rest) 2
                 else Val "balanced")
                = Val (default "balanced" ((prog :: arg1 :: rest) !! 2%nat))).
  { subst len. destruct rest as [|arg2 rest']; [reflexivity|].
    replace (2 <? _) with true by (symmetry; apply Z.ltb_lt; cbn [length]; lia).
    apply getitem_lookup; [lia|reflexivity]. }
  rewrite Hty in Hrun. cbn [mbind res_bind] in Hrun.
  set (ty := default "balanced" ((prog :: arg1 :: rest) !! 2%nat)) in *.
  exists ty.
  destruct ((3 <? len) && String.eqb ty "constant") eqn:Hc.
  - apply andb_true_iff in Hc as [Hlen3 _]. apply Z.ltb_lt in Hlen3.
    destruct rest as [|arg2 [|arg3 rest']]; [subst len; cbn in Hlen3; lia..|].
    rewrite (getitem_lookup _ 3 arg3) in Hrun by (lia || reflexivity).
    cbn [mbind res_bind] in Hrun.
    destruct (int_ arg3) as [cv| |] eqn:Hcv; cbn [mbind res_bind] in Hrun;
      [|discriminate..].
    exists cv.
    destruct (4 <? len) eqn:H4.
    + destruct (getitem_last (prog :: arg1 :: arg2 :: arg3 :: rest')
                  ltac:(discriminate)) as (arg & Hlast & Hget).
      rewrite Hget in Hrun. cbn [mbind res_bind] in Hrun.
      destruct (int_ arg) as [sh| |] eqn:Hsh; cbn [mbind res_bind] in Hrun;
        [|discriminate..].
      exists sh. repeat (split; [reflexivity || eauto|]). exact Hrun.
    + cbn [mbind res_bind] in Hrun. exists 1024.
      repeat (split; [reflexivity || eauto|]). exact Hrun.
  - cbn [mbind res_bind] in Hrun. exists 0.
    destruct (4 <? len) eqn:H4.
    + destruct (getitem_last (prog :: arg1 :: rest) ltac:(discriminate))
        as (arg & Hlast & Hget).
      rewrite Hget in Hrun. cbn [mbind res_bind] in Hrun.
      destruct (int_ arg) as [sh| |] eqn:Hsh; cbn [mbind res_bind] in Hrun;
        [|discriminate..].
      exists sh. repeat (split; [reflexivity || eauto|]). exact Hrun.
    + cbn [mbind res_bind] in Hrun. exists 1024.
      repeat (split; [reflexivity || eauto|]). exact Hrun.
Qed.

(** X20. The object configured from the command line: the number of qubits is
    the first argument; the oracle type is the second one, ["balanced"] when
    absent; the constant value is 0 unless the type is ["constant"] and a
    third argument is given; the shot count is 1024 unless at least four
    arguments follow the program name, in which case it is the last argument
    (with three arguments the third one is never the shot count); a custom
    oracle always gets the generated bitstring. *)
Theorem command_line_configuration (int_ : string → res Z)
    (shuffle : string → string) (argv : list string)
    (self : DeutschJozsaAlgorithm) :
  configure int_ shuffle argv = Val self →
  (∃ arg, argv !! 1%nat = Some arg ∧ int_ arg = Val (n_qubits self)) ∧
  oracle_type self = default "balanced" (argv !! 2%nat) ∧
  ((length argv ≤ 3)%nat ∨ oracle_type self ≠ "constant" → constant_value self = 0) ∧
  ((length argv ≤ 4)%nat → shots self = 1024) ∧
  ((5 ≤ length argv)%nat →
   ∃ arg, list.last argv = Some arg ∧ int_ arg = Val (shots self)) ∧
  custom_bitstring self
  = (if String.eqb (oracle_type self) "custom"
     then Some (_generate_random_balanced_oracle shuffle (n_qubits self))
     else None).
Proof.
  intros Hrun.
  destruct (configure_reads int_ shuffle argv self Hrun)
    as (arg1 & n & ty & cv & sh & Harg1 & Hn & Hty & Hcv & Hsh & Hinit).
  rewrite (init_fields _ _ _ _ _ _ _ Hinit).
  cbn [n_qubits oracle_type constant_value shots custom_bitstring].
  split; [eauto|]. split; [exact Hty|]. split; [|split; [|split; [|reflexivity]]].
  - intros Hcase. destruct ((3 <? Z.of_nat (length argv)) && String.eqb ty "constant")
      eqn:Hc; [|exact Hcv].
    apply andb_true_iff in Hc as [Hlen Hconst].
    apply Z.ltb_lt in Hlen. apply String.eqb_eq in Hconst.
    destruct Hcase as [Hle|Hne]; [lia|contradiction].
  - intros Hle. replace (4 <? Z.of_nat (length argv)) with false in Hsh
      by (symmetry; apply Z.ltb_ge; lia).
    exact Hsh.
  - intros Hge. replace (4 <? Z.of_nat (length argv)) with true in Hsh
      by (symmetry; apply Z.ltb_lt; lia).
    exact Hsh.
Qed.

Lemma command_line_configuration_witness :
  let int_ := λ s, match NilZero.int_of_string s with
                   | Some i => Val (Z.of_int i)
                   | None => Raise (ValueError "invalid literal for int()")
                   end in
  ∃ self, configure int_ (λ s, s) ["dj.py"; "3"; "balanced"; "500"] = Val self ∧
          shots self = 1024 ∧ constant_value self = 0 ∧ n_qubits self = 3.
Proof.
  cbv zeta.
  destruct (configure _ _ ["dj.py"; "3"; "balanced"; "500"]) as [self| |] eqn:Hrun;
    [|vm_compute in Hrun; discriminate..].
  destruct (command_line_configuration _ _ _ self Hrun)
    as ((arg & Harg & Hn) & Hty & Hcv & Hsh & _).
  exists self. split; [reflexivity|]. split; [apply Hsh; cbn [length]; lia|].
  split; [apply Hcv; right; rewrite Hty; discriminate|].
  injection Harg as <-. change (Val 3 = Val (n_qubits self)) in Hn.
  injection Hn as <-. reflexivity.
Defined.

End CommandLineExtras.

(** ** Shor: which candidate periods a pass accepts *)

Section ProductTest.

(** For an odd modulus, the product of the two greatest common divisors
    is the modulus exactly when the modulus divides [(x+1)(x-1)]. *)
Lemma gcd_product_iff (x N : Z) :
  0 < N → N mod 2 ≠ 0 →
  Z.gcd (x + 1) N * Z.gcd (x - 1) N = N ↔ (N | (x + 1) * (x - 1)).
Proof.
  intros HN Hodd.
  set (g1 := Z.gcd (x + 1) N). set (g2 := Z.gcd (x - 1) N).
  destruct (Z.gcd_divide_l (x + 1) N) as [a1 Ha1]. fold g1 in Ha1.
  destruct (Z.gcd_divide_r (x + 1) N) as [k1 Hk1]. fold g1 in Hk1.
  destruct (Z.gcd_divide_l (x - 1) N) as [a2 Ha2]. fold g2 in Ha2.
  destruct (Z.gcd_divide_r (x - 1) N) as [k2 Hk2]. fold g2 in Hk2.
  pose proof (Z.gcd_nonneg (x + 1) N) as Hg1. fold g1 in Hg1.
  pose proof (Z.gcd_nonneg (x - 1) N) as Hg2. fold g2 in Hg2.
  split.
  - intros Hprod. exists (a1 * a2). rewrite <- Hprod, Ha1, Ha2. ring.
  - intros [q Hq].
    destruct (Z.gcd_bezout (x + 1) N g1 eq_refl) as (u1 & v1 & Hb1).
    destruct (Z.gcd_bezout (x - 1) N g2 eq_refl) as (u2 & v2 & Hb2).
    assert (Hdiv1 : (N | g1 * g2)).
    { exists (u1 * u2 * q + u1 * (x + 1) * v2 + v1 * u2 * (x - 1) + v1 * v2 * N).
      rewrite <- Hb1 at 1. rewrite <- Hb2 at 1.
      replace ((u1 * (x + 1) + v1 * N) * (u2 * (x - 1) + v2 * N))
        with (u1 * u2 * ((x + 1) * (x - 1))
              + (u1 * (x + 1) * v2 + v1 * u2 * (x - 1) + v1 * v2 * N) * N) by ring.
      rewrite Hq. ring. }
    assert (Hcop : Z.gcd g1 g2 = 1).
    { pose proof (Z.gcd_nonneg g1 g2) as Hnn.
      destruct (Z.gcd_divide_l g1 g2) as [c1 Hc1].
      destruct (Z.gcd_divide_r g1 g2) as [c2 Hc2].
      set (d := Z.gcd g1 g2) in *.
      clearbody d.
      assert (Hd2 : (d | 2)).
      { exists (a1 * c1 - a2 * c2). rewrite Hc1 in Ha1. rewrite Hc2 in Ha2.
        replace 2 with ((x + 1) - (x - 1)) by ring. rewrite Ha1, Ha2. ring. }
      assert (HdN : (d | N)) by (exists (k1 * c1); rewrite Hk1, Hc1; ring).
      assert (Hle : d ≤ 2) by (apply Z.divide_pos_le; [lia|exact Hd2]).
      destruct (Z.eq_dec d 0) as [H0|H0];
        [destruct HdN as [c Hc]; rewrite H0 in Hc; lia|].
      destruct (Z.eq_dec d 2) as [H2|H2]; [|lia].
      exfalso. apply Hodd. destruct HdN as [c Hc]. rewrite Hc, H2.
      apply Z.mod_mul. lia. }
    assert (Hdiv2 : (g1 * g2 | N)).
    { destruct (Z.gcd_bezout g1 g2 1 Hcop) as (u & v & Hb).
      exists (u * k2 + v * k1).
      replace N with (N * (u * g1 + v * g2)) at 1 by (rewrite Hb; ring).
      replace (N * (u * g1 + v * g2)) with (u * g1 * N + v * g2 * N) by ring.
      rewrite Hk2 at 1. rewrite Hk1 at 1. ring. }
    apply Z.divide_antisym_nonneg; try assumption; [|lia].
    apply Z.mul_nonneg_nonneg; assumption.
Qed.

(** The square of [a^k mod N] is [a^(2k)] modulo [N]. *)
Lemma pow_mod_square (a k N : Z) :
  0 ≤ k → 0 < N →
  (pow_mod a k N * pow_mod a k N) mod N = a ^ (2 * k) mod N.
Proof.
  intros Hk HN. unfold pow_mod. rewrite <- Z.mul_mod by lia.
  rewrite <- Z.pow_add_r by lia. f_equal. f_equal. lia.
Qed.

Lemma divides_square_minus_one (x N : Z) :
  1 < N → ((N | (x + 1) * (x - 1)) ↔ (x * x) mod N = 1).
Proof.
  intros HN. replace ((x + 1) * (x - 1)) with (x * x - 1) by ring. split.
  - intros [q Hq]. replace (x * x) with (1 + q * N) by lia.
    rewrite Z.mod_add by lia. apply Z.mod_small. lia.
  - intros Hmod. exists (x * x / N).
    pose proof (Z.div_mod (x * x) N ltac:(lia)). lia.
Qed.

End ProductTest.

Section AcceptedPeriods.

Import Shor.

Lemma post_processing_positive (self : ShorsAlgorithm) (m : string) (r : Z) :
  _classical_post_processing self m = Val r → 0 < r.
Proof.
  unfold _classical_post_processing.
  destruct (int2 m) as [v| |]; cbn [mbind res_bind]; try discriminate.
  destruct (truediv _ _) as [phase| |]; cbn [mbind res_bind]; try discriminate.
  destruct (limit_denominator _ _) as [frac| |]; cbn [mbind res_bind];
    try discriminate.
  intros [= <-]. unfold denominator. lia.
Qed.

(** The product test of [factor] on an even candidate period [r]: for an
    odd [N] it succeeds exactly when [a^r = 1 (mod N)]. *)
Lemma product_test_iff (a r N : Z) :
  1 < N → N mod 2 ≠ 0 → 0 < r → r mod 2 = 0 →
  let x := pow_mod a (r / 2) N in
  Z.gcd (x + 1) N * Z.gcd (x - 1) N = N ↔ a ^ r mod N = 1.
Proof.
  intros HN Ho Hr Hpar x.
  rewrite gcd_product_iff, divides_square_minus_one by lia.
  subst x. rewrite pow_mod_square by (try apply Z.div_pos; lia).
  replace (2 * (r / 2)) with r by (pose proof (Z.div_mod r 2 ltac:(lia)); lia).
  reflexivity.
Qed.

(** A pair of greatest common divisors of product [N] is made of proper
    factors unless [x] is 1 or [N - 1]. *)
Lemma proper_factors_iff (x N : Z) :
  1 < N → 0 ≤ x < N →
  Z.gcd (x + 1) N * Z.gcd (x - 1) N = N →
  (1 < Z.gcd (x + 1) N < N ∧ 1 < Z.gcd (x - 1) N < N) ↔ (x ≠ 1 ∧ x ≠ N - 1).
Proof.
  intros HN Hx Hprod.
  set (factor1 := Z.gcd (x + 1) N) in *. set (factor2 := Z.gcd (x - 1) N) in *.
  pose proof (Z.gcd_nonneg (x + 1) N) as Hf1. fold factor1 in Hf1.
  pose proof (Z.gcd_nonneg (x - 1) N) as Hf2. fold factor2 in Hf2.
  assert (H1 : factor1 = N ↔ x = N - 1).
  { split.
    - intros Heq. pose proof (Z.gcd_divide_l (x + 1) N) as [c Hc].
      fold factor1 in Hc. rewrite Heq in Hc.
      assert (c = 1) by nia. lia.
    - intros Heq. subst factor1. rewrite Heq.
      replace (N - 1 + 1) with N by lia. rewrite Z.gcd_diag. lia. }
  assert (H2 : factor2 = N ↔ x = 1).
  { split.
    - intros Heq. pose proof (Z.gcd_divide_l (x - 1) N) as [c Hc].
      fold factor2 in Hc. rewrite Heq in Hc.
      assert (c = 0) by nia. lia.
    - intros Heq. subst factor2. rewrite Heq.
      replace (1 - 1) with 0 by lia. rewrite Z.gcd_0_l. lia. }
  split.
  - intros [[_ Hlt1] [_ Hlt2]]. split; intros Heq.
    + apply H2 in Heq. lia.
    + apply H1 in Heq. lia.
  - intros [Hne1 Hne2].
    assert (Hn1 : factor1 ≠ N) by (intros Heq; apply Hne2, H1, Heq).
    assert (Hn2 : factor2 ≠ N) by (intros Heq; apply Hne1, H2, Heq).
    assert (Hle1 : factor1 ≤ N)
      by (apply Z.divide_pos_le; [lia|apply Z.gcd_divide_r]).
    assert (Hle2 : factor2 ≤ N)
      by (apply Z.divide_pos_le; [lia|apply Z.gcd_divide_r]).
    nia.
Qed.

(** X21. On the quantum path of [factor] with an odd [N], a pass returns a
    pair exactly when the candidate period [r] is even and [a^r = 1 (mod N)],
    that is when [r] is a multiple of the order of [a]; in every other case it
    retries. *)
Theorem factor_accepts_exactly_periods (self : ShorsAlgorithm) (a : Z)
    (counts : Counts) (qc : QuantumCircuit) (m : string) (r : Z) :
  1 < N self →
  N self mod 2 ≠ 0 →
  Z.gcd a (N self) = 1 →
  period_circuit self a = Val qc →
  max_key counts = Val m →
  _classical_post_processing self m = Val r →
  let x := pow_mod a (r / 2) (N self) in
  (attempt self a counts
   = ([qc], Val (Return (Z.gcd (x + 1) (N self), Z.gcd (x - 1) (N self))))
   ↔ r mod 2 = 0 ∧ a ^ r mod N self = 1) ∧
  (attempt self a counts = ([qc], Val Again)
   ↔ ¬ (r mod 2 = 0 ∧ a ^ r mod N self = 1)).
Proof.
  intros HN Ho Hg Hqc Hm Hr x.
  pose proof (post_processing_positive self m r Hr) as Hpos.
  pose proof (attempt_quantum_path self a counts qc m r Hg Hqc Hm Hr) as Ha.
  cbv zeta in Ha. fold x in Ha. rewrite Ha.
  pose proof (product_test_iff a r (N self) HN Ho Hpos) as Htest.
  cbv zeta in Htest. fold x in Htest.
  destruct (Z.eqb_spec (r mod 2) 0) as [Hpar|Hpar]; cbn [negb].
  - specialize (Htest Hpar).
    destruct (Z.eqb_spec (Z.gcd (x + 1) (N self) * Z.gcd (x - 1) (N self)) (N self))
      as [Hprod|Hprod]; cbn [negb].
    + split; split.
      * intros _. split; [exact Hpar|apply Htest, Hprod].
      * reflexivity.
      * discriminate.
      * intros Hno. exfalso. apply Hno. split; [exact Hpar|apply Htest, Hprod].
    + split; split.
      * discriminate.
      * intros [_ Hper]. exfalso. apply Hprod, Htest, Hper.
      * intros _ [_ Hper]. apply Hprod, Htest, Hper.
      * reflexivity.
  - split; split.
    + discriminate.
    + intros [Hpar' _]. contradiction.
    + intros _ [Hpar' _]. contradiction.
    + reflexivity.
Qed.

Lemma factor_accepts_exactly_periods_witness :
  (attempt (mkShor 15 100 4) 7 [("01000000", 60); ("11000000", 40)]).2
  = Val (Return (5, 3)) ∧
  4 mod 2 = 0 ∧ 7 ^ 4 mod 15 = 1.
Proof.
  destruct (period_circuit (mkShor 15 100 4) 7) as [qc| |] eqn:Hqc;
    [|vm_compute in Hqc; discriminate..].
  destruct (factor_accepts_exactly_periods (mkShor 15 100 4) 7
              [("01000000", 60); ("11000000", 40)] qc "01000000" 4
              ltac:(cbn; lia) ltac:(vm_compute; discriminate)
              ltac:(reflexivity) Hqc ltac:(reflexivity)
              ltac:(vm_compute; reflexivity)) as [[_ Hacc] _].
  split; [|split; reflexivity].
  refine (eq_trans (f_equal snd (Hacc (conj eq_refl eq_refl))) _). reflexivity.
Defined.

(** X22. When a pass returns a pair on the quantum path, both numbers are
    proper factors of [N] exactly when [x = a^(r/2) mod N] is neither 1 nor
    [N - 1]. *)
Theorem quantum_path_proper_factors (self : ShorsAlgorithm) (a : Z)
    (counts : Counts) (qc : QuantumCircuit) (m : string) (r : Z) :
  1 < N self →
  N self mod 2 ≠ 0 →
  Z.gcd a (N self) = 1 →
  period_circuit self a = Val qc →
  max_key counts = Val m →
  _classical_post_processing self m = Val r →
  let x := pow_mod a (r / 2) (N self) in
  let factor1 := Z.gcd (x + 1) (N self) in
  let factor2 := Z.gcd (x - 1) (N self) in
  attempt self a counts = ([qc], Val (Return (factor1, factor2))) →
  (1 < factor1 < N self ∧ 1 < factor2 < N self) ↔ (x ≠ 1 ∧ x ≠ N self - 1).
Proof.
  intros HN Ho Hg Hqc Hm Hr x factor1 factor2 Hret.
  pose proof (attempt_return_product self a counts [qc] factor1 factor2 Hret)
    as Hprod.
  assert (Hx : 0 ≤ x < N self) by (apply Z.mod_pos_bound; lia).
  apply proper_factors_iff; assumption.
Qed.

Lemma quantum_path_proper_factors_witness :
  1 < Z.gcd (pow_mod 7 (4 / 2) 15 + 1) 15 < 15 ∧
  1 < Z.gcd (pow_mod 7 (4 / 2) 15 - 1) 15 < 15.
Proof.
  destruct (period_circuit (mkShor 15 100 4) 7) as [qc| |] eqn:Hqc;
    [|vm_compute in Hqc; discriminate..].
  apply (quantum_path_proper_factors (mkShor 15 100 4) 7
           [("01000000", 60); ("11000000", 40)] qc "01000000" 4
           ltac:(cbn; lia) ltac:(vm_compute; discriminate)
           ltac:(reflexivity) Hqc ltac:(reflexivity)
           ltac:(vm_compute; reflexivity)).
  - unfold attempt, _quantum_period_finding. cbn -[period_circuit].
    rewrite Hqc. vm_compute. reflexivity.
  - split; vm_compute; discriminate.
Defined.

End AcceptedPeriods.

(** ** Shor: recovery of the period from a good measurement *)

Section PeriodRecovery.

Import Shor.

(** Within the exact range of binary64 the candidate period is the
    denominator of a best approximation of [m / 2^(2n)]. *)
Lemma post_processing_exact (self : ShorsAlgorithm) (measurement : string) :
  1 ≤ N self →
  1 ≤ n self →
  2 * n self ≤ 53 →
  str_len measurement = 2 * n self →
  str_all DeutschJozsa.is_bit measurement = true →
  ∃ p q,
    _classical_post_processing self measurement = Val q ∧
    Z.gcd p q = 1 ∧
    best_approximation (N self)
      (unsigned_value measurement # Z.to_pos (2 ^ (2 * n self))) p q.
Proof.
  intros HN Hn H53 Hlen Hbits.
  destruct (post_processing_binary64 self measurement HN Hn Hlen Hbits)
    as (phase & q & Hphase & Hq & p & Hg & Hbest).
  pose proof (unsigned_value_bounds measurement) as Hm.
  unfold str_len in Hlen. rewrite Hlen in Hm.
  assert (Hpow : 2 ^ (2 * n self) ≤ 2 ^ 53) by (apply Z.pow_le_mono_r; lia).
  rewrite truediv_pow2_exact in Hphase by lia. injection Hphase as <-.
  exists p, q. split; [exact Hq|]. split; [exact Hg|].
  apply best_approximation_Qred, Hbest.
Qed.

(** With [N^2 < D], a fraction [s/r] in lowest terms with [r <= N] that
    lies within [1/(2D)] of [m/D] is the only best approximation of [m/D]
    among the fractions of denominator at most [N]. *)
Lemma best_approximation_unique (bound m D p q s r : Z) :
  0 < D → bound * bound < D →
  Z.gcd p q = 1 → best_approximation bound (m # Z.to_pos D) p q →
  1 ≤ r ≤ bound → Z.gcd s r = 1 →
  2 * Z.abs (m * r - s * D) ≤ r →
  q = r.
Proof.
  intros HD HND Hpq [Hqr Hbest] Hr Hsr Hnear.
  specialize (Hbest s r Hr). apply Qabs_dist_le in Hbest.
  rewrite !Z2Pos.id in Hbest by lia.
  set (A := Z.abs (m * q - p * D)) in *.
  set (B := Z.abs (m * r - s * D)) in *.
  assert (HA : 0 ≤ A) by apply Z.abs_nonneg.
  assert (HB : 0 ≤ B) by apply Z.abs_nonneg.
  assert (Hcross : p * r = s * q).
  { destruct (Z.eq_dec (p * r) (s * q)) as [Heq|Hne]; [exact Heq|exfalso].
    assert (Hsplit : D * (p * r - s * q) = q * (m * r - s * D) - r * (m * q - p * D))
      by ring.
    assert (Hle : D * Z.abs (p * r - s * q) ≤ q * B + r * A).
    { rewrite <- (Z.abs_eq D) at 1 by lia. rewrite <- Z.abs_mul, Hsplit.
      pose proof (Z.abs_mul q (m * r - s * D)) as Hq1.
      pose proof (Z.abs_mul r (m * q - p * D)) as Hr1.
      rewrite (Z.abs_eq q) in Hq1 by lia. rewrite (Z.abs_eq r) in Hr1 by lia.
      fold B in Hq1. fold A in Hr1. lia. }
    assert (Hone : 1 ≤ Z.abs (p * r - s * q)) by lia.
    assert (Hqr2 : q * r ≤ bound * bound) by nia.
    nia. }
  apply Z.divide_antisym_nonneg; [lia|lia| |].
  - apply (Z.gauss q p r); [exists s; lia|rewrite Z.gcd_comm; exact Hpq].
  - apply (Z.gauss r s q); [exists p; lia|rewrite Z.gcd_comm; exact Hsr].
Qed.

Lemma square_below_pow2 (N n : Z) : 1 ≤ N → 1 ≤ n → N < 2 ^ n → N * N < 2 ^ (2 * n).
Proof.
  intros HN Hn HNn. replace (2 * n) with (n + n) by lia.
  rewrite Z.pow_add_r by lia. nia.
Qed.

(** X23. When the measurement [m] is, among the [2n]-bit values, nearest to
    [s/r * 2^(2n)] for a fraction [s/r] in lowest terms with [r <= N], the
    candidate period is [r]: with [N < 2^n] no other fraction of denominator
    at most [N] is as close to [m / 2^(2n)]. *)
Theorem post_processing_recovers_period (self : ShorsAlgorithm)
    (measurement : string) (s r : Z) :
  1 ≤ N self →
  1 ≤ n self →
  2 * n self ≤ 53 →
  N self < 2 ^ n self →
  str_len measurement = 2 * n self →
  str_all DeutschJozsa.is_bit measurement = true →
  1 ≤ r ≤ N self →
  Z.gcd s r = 1 →
  2 * Z.abs (unsigned_value measurement * r - s * 2 ^ (2 * n self)) ≤ r →
  _classical_post_processing self measurement = Val r.
Proof.
  intros HN Hn H53 HNn Hlen Hbits Hr Hsr Hnear.
  destruct (post_processing_exact self measurement HN Hn H53 Hlen Hbits)
    as (p & q & Hq & Hpq & Hbest).
  rewrite Hq. f_equal.
  apply (best_approximation_unique (N self) (unsigned_value measurement)
           (2 ^ (2 * n self)) p q s r); try assumption.
  - apply Z.pow_pos_nonneg; lia.
  - apply square_below_pow2; assumption.
Qed.

Lemma post_processing_recovers_period_witness :
  _classical_post_processing (mkShor 21 100 5) "0010101011" = Val 6.
Proof.
  apply (post_processing_recovers_period (mkShor 21 100 5) "0010101011" 1 6);
    [cbn; lia|cbn; lia|cbn; lia|cbn; lia|reflexivity|reflexivity|cbn; lia
    |reflexivity|vm_compute; discriminate].
Defined.



End PeriodRecovery.
